(** * baseband: BCD codec and CRC engine of [vlbi_base/utils.py]

    A shallow embedding of [bcd_decode], [bcd_encode], the [CRC] class,
    [gcd] and [lcm] of [baseband/vlbi_base/utils.py], with the properties
    the format description states about them.  The header, payload, frame and stream
    layers of the Mark 5B reader are modelled from the format description
    (their modules are exercised by [mark5b/tests/test_mark5b.py]). *)

From Stdlib Require Import ZArith List Lia Bool Ascii String Wf_nat QArith Qround Qabs Lqa.
Import ListNotations.

Open Scope Z_scope.

(** ** numpy's integer dtypes *)

Module Np.

(** The integer dtypes of numpy: signed and unsigned, 8 to 64 bits. *)
Inductive dtype : Type :=
| int8 | int16 | int32 | int64
| uint8 | uint16 | uint32 | uint64.

Definition bits (dt : dtype) : Z :=
  match dt with
  | int8 | uint8 => 8
  | int16 | uint16 => 16
  | int32 | uint32 => 32
  | int64 | uint64 => 64
  end.

Definition signed (dt : dtype) : bool :=
  match dt with
  | int8 | int16 | int32 | int64 => true
  | uint8 | uint16 | uint32 | uint64 => false
  end.

(** [np.iinfo(dt).min] and [np.iinfo(dt).max]. *)
Definition dtype_min (dt : dtype) : Z :=
  if signed dt then - 2 ^ (bits dt - 1) else 0.

Definition dtype_max (dt : dtype) : Z :=
  if signed dt then 2 ^ (bits dt - 1) - 1 else 2 ^ bits dt - 1.

(** Whether a Python [int] is a value of the dtype. *)
Definition fits (dt : dtype) (x : Z) : bool :=
  (dtype_min dt <=? x) && (x <=? dtype_max dt).

(** The value an arithmetic result takes in the dtype: integer array
    arithmetic wraps silently, in two's complement for a signed
    dtype. *)
Definition cast (dt : dtype) (x : Z) : Z :=
  (x - dtype_min dt) mod 2 ^ bits dt + dtype_min dt.

End Np.
Import Np.

(** ** The Python built-ins the utilities rely on *)

Module Py.

(** Exceptions the utilities can raise.  [InvalidBCD raw] is the
    [ValueError("invalid BCD encoded value {0}={1}.")] of [bcd_decode],
    carrying the raw value it formats into the message; [IntParseError]
    is the [ValueError] of the built-in [int] when it is re-raised;
    [OverflowError] is what numpy raises when a Python [int] operand is
    not a value of the dtype of the array it meets. *)
Inductive exn : Type :=
| InvalidBCD (raw : Z)
| IntParseError
| OverflowError.

Inductive outcome (A : Type) : Type :=
| Return (a : A)
| Raise (e : exn).
Arguments Return {A} a.
Arguments Raise {A} e.

(** An integer argument is either a Python [int] or a one-dimensional
    [numpy.ndarray] of integers, which carries its dtype. *)
Inductive value : Type :=
| PyInt (n : Z)
| NdArray (dt : dtype) (a : list Z).

(** Digits of a non-negative [n] in base [b], least significant first.
    The recursion is on fuel; [digits] supplies enough of it. *)
Fixpoint digits_lsb (b : Z) (fuel : nat) (n : Z) : list Z :=
  match fuel with
  | O => []
  | S f => if n <? b then [n] else (n mod b) :: digits_lsb b f (n / b)
  end.

Definition digits (b n : Z) : list Z :=
  digits_lsb b (S (Z.to_nat (Z.log2 n))) n.

(** The character of a digit value below 36, lower case as [format]
    prints it. *)
Definition digit_char (d : Z) : ascii :=
  if d <? 10 then ascii_of_nat (48 + Z.to_nat d)
  else ascii_of_nat (87 + Z.to_nat d).

(** The digit value of a character as [int(s, base)] reads it. *)
Definition char_digit (c : ascii) : option Z :=
  let k := Z.of_nat (nat_of_ascii c) in
  if (48 <=? k) && (k <=? 57) then Some (k - 48)
  else if (97 <=? k) && (k <=? 122) then Some (k - 87)
  else if (65 <=? k) && (k <=? 90) then Some (k - 55)
  else None.

(** ['{:x}'.format(n)] and ['{:d}'.format(n)] for a Python [int]: an
    optional minus sign, then the digits most significant first. *)
Definition format_base (b n : Z) : string :=
  string_of_list_ascii
    ((if n <? 0 then ["-"%char] else [])
       ++ map digit_char (rev (digits b (Z.abs n)))).

Definition format_x : Z -> string := format_base 16.
Definition format_d : Z -> string := format_base 10.

(** [int(s, base)] on strings of the form [-]digits: the only strings
    [format] produces.  [None] stands for the [ValueError] of [int]. *)
Definition int_digits (b : Z) (cs : list ascii) : option Z :=
  fold_left
    (fun acc c =>
       match acc, char_digit c with
       | Some a, Some d => if d <? b then Some (a * b + d) else None
       | _, _ => None
       end)
    cs (Some 0).

Definition int_of_string (b : Z) (s : string) : option Z :=
  match list_ascii_of_string s with
  | [] => None
  | c :: cs =>
      if Ascii.eqb c "-" then
        match cs with
        | [] => None
        | _ => option_map Z.opp (int_digits b cs)
        end
      else int_digits b (c :: cs)
  end.

End Py.
Import Py.

(** ** BCD codec: the scalar code path *)

(** [int('{:x}'.format(value))], with the [ValueError] turned into the
    BCD error that reports [value]. *)
Definition bcd_decode_int (value : Z) : outcome Z :=
  match int_of_string 10 (format_x value) with
  | Some r => Return r
  | None => Raise (InvalidBCD value)
  end.

(** [int('{:d}'.format(value), base=16)]; a failure of [int] would be
    re-raised as it is. *)
Definition bcd_encode_int (value : Z) : outcome Z :=
  match int_of_string 16 (format_d value) with
  | Some r => Return r
  | None => Raise IntParseError
  end.

(** ** BCD codec: the array code path *)

(** [a[mask]]: the elements of [a] at which the boolean mask holds. *)
Fixpoint np_select (mask : list bool) (a : list Z) : list Z :=
  match mask, a with
  | true :: mask', x :: a' => x :: np_select mask' a'
  | false :: mask', _ :: a' => np_select mask' a'
  | _, _ => []
  end.

(** [digit * factor]: an array times a Python [int].  The Python [int]
    is converted to the dtype of the array, [OverflowError] when it is not
    one of its values (numpy 2; numpy 1 promotes the product to a wider
    type instead, and for a 64-bit dtype, where no wider integer type
    exists, the in-place addition that follows raises), and the products
    wrap in that dtype. *)
Definition products (dt : dtype) (digit : list Z) (factor : Z) : list Z :=
  map (fun d => cast dt (d * factor)) digit.

Definition np_mul (dt : dtype) (digit : list Z) (factor : Z) : outcome (list Z) :=
  if fits dt factor then Return (products dt digit factor)
  else Raise OverflowError.

(** [result += x] on arrays of one shape and dtype, in place. *)
Fixpoint np_iadd (dt : dtype) (result x : list Z) : list Z :=
  match result, x with
  | r :: result', d :: x' => cast dt (r + d) :: np_iadd dt result' x'
  | _, _ => []
  end.

(** The [while np.any(bcd > 0)] loop of [bcd_decode] on an array of dtype
    [dt].  [divmod] floors, as [Z.div] and [Z.modulo] do.  [None] is fuel
    exhaustion; [bcd_decode_array] supplies enough fuel. *)
Fixpoint bcd_decode_loop (dt : dtype) (fuel : nat)
    (value bcd result : list Z) (factor : Z) : option (outcome (list Z)) :=
  if existsb (fun b => 0 <? b) bcd then
    match fuel with
    | O => None
    | S f =>
        let digit := map (fun b => b mod 0x10) bcd in
        let bcd' := map (fun b => b / 0x10) bcd in
        if existsb (fun d => 9 <? d) digit then
          let value' := nth 0 (np_select (map (fun d => 9 <? d) digit) value) 0 in
          Some (Raise (InvalidBCD value'))
        else
          match np_mul dt digit factor with
          | Return x =>
              bcd_decode_loop dt f value bcd' (np_iadd dt result x) (factor * 10)
          | Raise e => Some (Raise e)
          end
    end
  else Some (Return result).

(** Halving steps that exhaust the largest element of [a]. *)
Definition loop_fuel (a : list Z) : nat :=
  S (Z.to_nat (Z.log2 (fold_right Z.max 0 a))).

(** [result = np.zeros_like(value)], then the loop. *)
Definition bcd_decode_array (dt : dtype) (value : list Z)
  : option (outcome (list Z)) :=
  bcd_decode_loop dt (loop_fuel value) value value (map (fun _ => 0) value) 1.

Definition outcome_map {A B : Type} (f : A -> B) (o : outcome A) : outcome B :=
  match o with
  | Return a => Return (f a)
  | Raise e => Raise e
  end.

(** [bcd_decode]: the formatting of an array raises [TypeError], which
    sends arrays to the loop; a Python [int] never reaches it. *)
Definition bcd_decode (value : Py.value) : option (outcome Py.value) :=
  match value with
  | PyInt n => Some (outcome_map PyInt (bcd_decode_int n))
  | NdArray dt a => option_map (outcome_map (NdArray dt)) (bcd_decode_array dt a)
  end.

(** [result += x] in [bcd_encode], where [x] is an array of dtype [dt] and
    [result] starts as the Python [int] 0: the first addition converts the
    [int] to [dt] and builds a new array, the later ones update it in
    place. *)
Definition iadd (dt : dtype) (result : Py.value) (x : list Z) : outcome Py.value :=
  match result with
  | PyInt n =>
      if fits dt n then Return (NdArray dt (map (fun d => cast dt (n + d)) x))
      else Raise OverflowError
  | NdArray dt' r => Return (NdArray dt' (np_iadd dt' r x))
  end.

(** The [while np.any(value > 0)] loop of [bcd_encode] on an array of
    dtype [dt]. *)
Fixpoint bcd_encode_loop (dt : dtype) (fuel : nat)
    (value : list Z) (result : Py.value) (factor : Z)
  : option (outcome Py.value) :=
  if existsb (fun v => 0 <? v) value then
    match fuel with
    | O => None
    | S f =>
        let digit := map (fun v => v mod 10) value in
        let value' := map (fun v => v / 10) value in
        match np_mul dt digit factor with
        | Return x =>
            match iadd dt result x with
            | Return result' => bcd_encode_loop dt f value' result' (factor * 16)
            | Raise e => Some (Raise e)
            end
        | Raise e => Some (Raise e)
        end
    end
  else Some (Return result).

(** [result = np.zeros_like(value)] is overwritten by [result = 0] before
    the loop starts. *)
Definition bcd_encode_array (dt : dtype) (value : list Z)
  : option (outcome Py.value) :=
  bcd_encode_loop dt (loop_fuel value) value (PyInt 0) 1.

Definition bcd_encode (value : Py.value) : option (outcome Py.value) :=
  match value with
  | PyInt n => Some (outcome_map PyInt (bcd_encode_int n))
  | NdArray dt a => bcd_encode_array dt a
  end.

(** [bcd_decode(bcd_encode(value))]. *)
Definition bcd_roundtrip (value : Py.value) : option (outcome Py.value) :=
  match bcd_encode value with
  | Some (Return bcd) => bcd_decode bcd
  | Some (Raise e) => Some (Raise e)
  | None => None
  end.

(** [np.all(x == y)] with the broadcasting of a scalar against an array. *)
Definition np_all_eq (x y : Py.value) : bool :=
  match x, y with
  | PyInt m, PyInt n => m =? n
  | PyInt m, NdArray _ a => forallb (fun v => m =? v) a
  | NdArray _ a, PyInt n => forallb (fun v => v =? n) a
  | NdArray _ a, NdArray _ b =>
      (List.length a =? List.length b)%nat
      && forallb (fun p => fst p =? snd p) (combine a b)
  end.

(** Nibble [k] of a raw value: hexadecimal digit [k], counted from the
    least significant one. *)
Definition nibble (k : nat) (v : Z) : Z :=
  Z.land (Z.shiftr v (4 * Z.of_nat k)) 0xF.

(** ** CRC engine *)

(** Arithmetic of an unsigned [w]-bit dtype wraps modulo [2 ^ w]
    ([w = 1]: bool). *)
Definition wrap (w x : Z) : Z := x mod 2 ^ w.

(** The state of a [CRC] instance. *)
Record CRC : Type := mkCRC {
  polynomial : Z;
  pol_bin : list Z  (* int8 array of the binary digits, leading bit first *)
}.

Fixpoint traverse {A B : Type} (f : A -> option B) (l : list A) : option (list B) :=
  match l with
  | [] => Some []
  | x :: l' =>
      match f x, traverse f l' with
      | Some y, Some ys => Some (y :: ys)
      | _, _ => None
      end
  end.

(** [CRC.__init__]: [int(bit)] for every character of
    ['{:b}'.format(polynomial)]; the sign of a negative polynomial makes
    [int] raise. *)
Definition CRC_init (polynomial : Z) : outcome CRC :=
  match traverse (fun bit => int_of_string 10 (String bit EmptyString))
          (list_ascii_of_string (format_base 2 polynomial)) with
  | Some bits => Return (mkCRC polynomial bits)
  | None => Raise IntParseError
  end.

(** [CRC.__len__]: [pol_bin.size - 1]. *)
Definition CRC_len (self : CRC) : Z := Z.of_nat (List.length (pol_bin self)) - 1.

(** [s[0:len(m)] ^= m], for a mask no longer than [s]. *)
Fixpoint ixor (m s : list Z) : list Z :=
  match m, s with
  | x :: m', y :: s' => Z.lxor y x :: ixor m' s'
  | _, _ => s
  end.

(** [stream[i:i+len(m)] ^= m].  In [_crc] the window always lies inside
    the stream (see [crc_window_in_range]), so the mask is never
    broadcast against a shorter slice. *)
Fixpoint ixor_slice (stream : list Z) (i : nat) (m : list Z) : list Z :=
  match i, stream with
  | O, _ => ixor m stream
  | S i', y :: stream' => y :: ixor_slice stream' i' m
  | S _, [] => []
  end.

(** [stream[start:]] with Python's reading of a negative start. *)
Definition py_slice_from (start : Z) (stream : list Z) : list Z :=
  let n := Z.of_nat (List.length stream) in
  skipn (Z.to_nat (if start <? 0 then Z.max 0 (start + n) else start)) stream.

(** One turn of the loop of [_crc], on the stream as it stands. *)
Definition crc_step (pol_bin : list Z) (stream : list Z) (i : nat) : list Z :=
  ixor_slice stream i (map (fun m => Z.land m (nth i stream 0)) pol_bin).

(** The stream after the loop of [_crc] (the update is in place). *)
Definition crc_divide (w : Z) (self : CRC) (stream : list Z) : list Z :=
  let pol_bin := map (fun b => wrap w (- b)) (pol_bin self) in
  fold_left (crc_step pol_bin)
    (seq 0 (Z.to_nat (Z.of_nat (List.length stream) - CRC_len self))) stream.

(** [CRC._crc] on a stream of dtype unsigned [w]-bit ([w = 1]: bool). *)
Definition _crc (w : Z) (self : CRC) (stream : list Z) : list Z :=
  py_slice_from (- CRC_len self) (crc_divide w self stream).

(** [CRC.__call__]. *)
Definition CRC_call (w : Z) (self : CRC) (stream : list Z) : list Z :=
  _crc w self (stream ++ repeat 0 (Z.to_nat (CRC_len self))).

(** [CRC.check]; the copy keeps the caller's stream as it was. *)
Definition CRC_check (w : Z) (self : CRC) (stream : list Z) : bool :=
  forallb (fun x => x =? 0) (_crc w self stream).

(** Bit lane [j] of a stream of words, as a stream of dtype bool. *)
Definition lane (j : Z) (stream : list Z) : list Z :=
  map (fun x => Z.b2z (Z.testbit x j)) stream.

(** Flipping bit [j] of element [i] of a stream. *)
Fixpoint flip_bit (i : nat) (j : Z) (stream : list Z) : list Z :=
  match i, stream with
  | _, [] => []
  | O, x :: stream' => Z.lxor x (2 ^ j) :: stream'
  | S i', x :: stream' => x :: flip_bit i' j stream'
  end.

(** ** Greatest common divisor and least common multiple *)

(** The [while b: a, b = b, a % b] loop of [gcd].  Python's [%] on
    integers takes the sign of the divisor, as [Z.modulo] does.  [None] is
    fuel exhaustion; [gcd] supplies enough fuel. *)
Fixpoint gcd_loop (fuel : nat) (a b : Z) : option Z :=
  if b =? 0 then Some a
  else
    match fuel with
    | O => None
    | S f => gcd_loop f b (a mod b)
    end.

(** [gcd] on Python integers. *)
Definition gcd (a b : Z) : option Z := gcd_loop (Z.to_nat (Z.abs b)) a b.

(** The result of an integer floor division: a quotient, or the
    [ZeroDivisionError] of a zero divisor. *)
Inductive quotient : Type :=
| Quotient (q : Z)
| ZeroDivisionError.

(** [a // b] on Python integers. *)
Definition floordiv (a b : Z) : quotient :=
  if b =? 0 then ZeroDivisionError else Quotient (a / b).

(** [lcm]: [abs(a * b) // gcd(a, b)]. *)
Definition lcm (a b : Z) : option quotient :=
  option_map (floordiv (Z.abs (a * b))) (gcd a b).

(** *** The checksum as the format description words it

    Binary polynomial long division on a bit-vector: [check_length] zero
    bits are appended; then for each position [i] from 0 to
    [len - check_length - 1], if bit [i] is set, the polynomial is XORed
    into the window [[i, i + check_length]]; the remainder is the final
    [check_length] bits. *)
Module LongDivision.

Definition bitlength (p : Z) : Z := if p =? 0 then 0 else Z.log2 p + 1.

Definition check_length (p : Z) : nat := Z.to_nat (bitlength p - 1).

(** The polynomial as bits, leading coefficient first. *)
Definition poly_bits (p : Z) : list bool :=
  map (fun k => Z.testbit p (Z.of_nat (check_length p - k)))
    (seq 0 (S (check_length p))).

Definition xor_window (i : nat) (pol bits : list bool) : list bool :=
  firstn i bits
    ++ map (fun q => xorb (fst q) (snd q))
         (combine (firstn (List.length pol) (skipn i bits)) pol)
    ++ skipn (i + List.length pol) bits.

Definition divide (p : Z) (bits : list bool) : list bool :=
  fold_left
    (fun s i => if nth i s false then xor_window i (poly_bits p) s else s)
    (seq 0 (List.length bits - check_length p)) bits.

Definition remainder (p : Z) (bits : list bool) : list bool :=
  let s := divide p (bits ++ repeat false (check_length p)) in
  skipn (List.length s - check_length p) s.

End LongDivision.

(** ** Digit sums, for stating what the codec computes *)

(** The number whose base-[b] digits, least significant first, are [ds]. *)
Fixpoint undigits (b : Z) (ds : list Z) : Z :=
  match ds with
  | [] => 0
  | d :: ds' => d + b * undigits b ds'
  end.

(** The decimal digits of [n] packed one per nibble. *)
Definition bcd_pack (n : Z) : Z := undigits 16 (digits 10 n).

(** The nibbles of [v] read as decimal digits. *)
Definition bcd_unpack (v : Z) : Z := undigits 10 (digits 16 v).

(** Every nibble of [v] is a decimal digit. *)
Definition bcd_valid (v : Z) : bool := forallb (fun d => d <? 10) (digits 16 v).

(** The result of an accumulation loop once the remaining digits of
    [bcd] are folded in at weight [factor]. *)
Definition folded (dt : dtype) (unpack : Z -> Z) (factor : Z) (result bcd : list Z) : list Z :=
  map (fun p => cast dt (fst p + factor * unpack (snd p))) (combine result bcd).

(** What the accumulation loops keep true of the elements [bcd] they have
    still to consume: each is non-negative and, weighted, stays below the
    largest value of the dtype when multiplied by the factor. *)
Definition bounded (dt : dtype) (weight : Z -> Z) (factor : Z) (bcd : list Z) : Prop :=
  Forall (fun b => 0 <= b /\ factor * weight b <= dtype_max dt) bcd.

(** The integers [bcd_decode] looks at: the argument itself, or the
    elements of the array. *)
Definition elements (value : Py.value) : list Z :=
  match value with
  | PyInt n => [n]
  | NdArray _ a => a
  end.

(** A value of the dtype. *)
Definition in_range (dt : dtype) (x : Z) : Prop := dtype_min dt <= x <= dtype_max dt.

(** An array holds values of its dtype; a Python [int] is unbounded. *)
Definition well_typed (value : Py.value) : Prop :=
  match value with
  | PyInt _ => True
  | NdArray dt a => Forall (in_range dt) a
  end.

(** The first element, in array order, that is not a BCD value. *)
Definition first_offending (a : list Z) : option Z :=
  find (fun v => negb (bcd_valid v)) a.

(** Element-wise XOR of two streams of one length. *)
Definition xor_streams (a b : list Z) : list Z :=
  map (fun p => Z.lxor (fst p) (snd p)) (combine a b).

(** A value of dtype unsigned [w]-bit. *)
Definition in_dtype (w x : Z) : Prop := 0 <= x < 2 ^ w.

(** What the division of a stream with a single set bit keeps true before
    turn [i]: the stream has [N] bits, the positions before [i] are
    cleared, and its last set bit [L] is less than [t] positions after
    every set bit still to be visited, [t] being the offset of the last
    set bit of the polynomial. *)
Definition single_bit_invariant (t N i : nat) (s : list Z) : Prop :=
  List.length s = N
  /\ Forall (fun b => b = 0 \/ b = 1) s
  /\ (forall q, (q < i)%nat -> nth q s 0 = 0)
  /\ exists L, (L < N)%nat
       /\ nth L s 0 = 1
       /\ (forall q, (L < q)%nat -> nth q s 0 = 0)
       /\ (forall q, (i <= q)%nat -> nth q s 0 = 1 -> (L < q + t)%nat).

(** ** Header time, from the format description *)

Module HeaderTime.

(** Modelled from the spec: the three BCD time fields of a header (the
    header class of [mark5b/header.py] is not part of the sources). *)
Record fields : Type := mkFields {
  bcd_jday : Z;
  bcd_seconds : Z;
  bcd_fraction : Z
}.

(** Modelled from the spec: Mark 5B constants missing with the header
    class; the day counter has three BCD digits and wraps after 1000
    days, the fraction has four BCD digits, so that timestamps are
    counted in ticks of 1/10000 s since MJD 0. *)
Definition mark5b_wrap_days : Z := 1000.

(** Modelled from the spec: the resolution of the four-digit BCD
    fraction (header class missing from the sources). *)
Definition ticks_per_second : Z := 10000.

(** Modelled from the spec: ticks in a day of 86400 seconds. *)
Definition ticks_per_day : Z := 86400 * ticks_per_second.

Section Epoch.
(** The wrap period of the day counter, in days. *)
Variable wrap_days : Z.

(** Modelled from the spec: the wrap period in ticks (header class
    missing from the sources). *)
Definition wrap_period : Z := wrap_days * ticks_per_day.

(** Modelled from the spec: the timestamp built from the decoded BCD
    digits when the day counter is read in its wrap number [c]
    (header time derivation, missing from the sources). *)
Definition time_in_epoch (h : fields) (c : Z) : outcome Z :=
  match bcd_decode_int (bcd_jday h), bcd_decode_int (bcd_seconds h),
        bcd_decode_int (bcd_fraction h) with
  | Return jday, Return seconds, Return fraction =>
      Return (((c * wrap_days + jday) * 86400 + seconds) * ticks_per_second
              + fraction)
  | Raise e, _, _ => Raise e
  | _, Raise e, _ => Raise e
  | _, _, Raise e => Raise e
  end.

(** Modelled from the spec: the disambiguation rule (missing from the
    sources): among the candidates [base + c * wrap_period] the one
    closest to the reference, ties resolved toward the earlier
    epoch. *)
Definition nearest_epoch (base ref : Z) : Z :=
  - ((wrap_period + 2 * (base - ref)) / (2 * wrap_period)).

(** Modelled from the spec: the absolute timestamp of a header, given a
    caller-supplied reference epoch (in ticks). *)
Definition time (h : fields) (ref : Z) : outcome Z :=
  match time_in_epoch h 0 with
  | Return base => time_in_epoch h (nearest_epoch base ref)
  | Raise e => Raise e
  end.
End Epoch.

End HeaderTime.

(** ** Payload codec, from the format description *)

Module Payload.

(** Modelled from the spec: the reshape of a flat array into rows of [n]
    elements (payload module missing from the sources); the recursion is
    on fuel, [chunks] supplies the length of the list. *)
Fixpoint chunks_aux {A : Type} (fuel n : nat) (l : list A) : list (list A) :=
  match fuel with
  | O => []
  | S f =>
      match l with
      | [] => []
      | _ => firstn n l :: chunks_aux f n (skipn n l)
      end
  end.

(** Modelled from the spec: rows of [n] elements of a flat list. *)
Definition chunks {A : Type} (n : nat) (l : list A) : list (list A) :=
  chunks_aux (List.length l) n l.

(** Modelled from the spec: field [k] of [bps] bits of a raw word or
    byte, counted from the least significant bit (payload module missing
    from the sources). *)
Definition field (bps : Z) (word : Z) (k : nat) : Z :=
  Z.land (Z.shiftr word (bps * Z.of_nat k)) (2 ^ bps - 1).

(** Modelled from the spec: the bytes of a 32-bit word in memory order,
    little endian (payload module missing from the sources). *)
Definition word_bytes (word : Z) : list Z :=
  map (field 8 word) (seq 0 4).

(** Modelled from the spec: a word from its fields, least significant
    first (payload module missing from the sources). *)
Definition pack (bps : Z) (codes : list Z) : Z := undigits (2 ^ bps) codes.

Section Codec.
(** The optimal reconstruction magnitude of the high 2-bit level
    ([OPTIMAL_2BIT_HIGH], whose module is not part of the sources). *)
Variable OPT : Q.

(** Modelled from the spec: the quantization alphabet by code, as the
    lookup tables of [test_decoding] show it: for one bit, 0 is -1 and
    1 is +1; for two bits, 0 is -OPT, 1 is +1, 2 is -1 and 3 is +OPT. *)
Definition alphabet (bps : Z) : list Q :=
  if bps =? 1 then [(- (1))%Q; 1%Q] else [(- OPT)%Q; 1%Q; (- (1))%Q; OPT].

(** Modelled from the spec: the level of a code, by its place in the
    alphabet. *)
Definition level (bps : Z) (code : Z) : Q := nth (Z.to_nat code) (alphabet bps) 0%Q.

(** Modelled from the spec: the lookup tables [lut1bit] and [lut2bit]
    (payload module, missing from the sources): the levels of the
    fields of a byte, least significant field first. *)
Definition lut (bps : Z) (byte : Z) : list Q :=
  map (fun k => level bps (field bps byte k)) (seq 0 (Z.to_nat (8 / bps))).

(** Modelled from the spec: [decode], the table lookup of every byte,
    reshaped into rows of [nchan] channels. *)
Definition decode (bps : Z) (nchan : nat) (words : list Z) : list (list Q) :=
  chunks nchan (flat_map (fun word => flat_map (lut bps) (word_bytes word)) words).

(** Modelled from the spec: the code whose level is nearest to [x]
    among [best :: codes] (encoder missing from the sources); the
    earlier code wins a tie. *)
Fixpoint nearest (bps : Z) (x : Q) (best : Z) (codes : list Z) : Z :=
  match codes with
  | [] => best
  | c :: codes' =>
      if Qlt_le_dec (Qabs (x - level bps c)) (Qabs (x - level bps best))
      then nearest bps x c codes'
      else nearest bps x best codes'
  end.

(** Modelled from the spec: the nearest code among all codes of the
    alphabet. *)
Definition nearest_code (bps : Z) (x : Q) : Z :=
  nearest bps x 0 (map Z.of_nat (seq 1 (List.length (alphabet bps) - 1))).

(** Modelled from the spec: [encode], the inverse quantization of every
    sample to its nearest code point, packed into 32-bit words. *)
Definition encode (bps : Z) (samples : list (list Q)) : list Z :=
  map (pack bps)
    (chunks (Z.to_nat (32 / bps)) (map (nearest_code bps) (List.concat samples))).
End Codec.

End Payload.

(** ** Frame, from the format description *)

Module Frame.

(** Modelled from the spec: a frame is a header, a payload and a validity
    flag (the frame class is not part of the sources); the payload
    carries its bits per sample and channel count. *)
Record frame : Type := mkFrame {
  header : list Z;
  payload : list Z;
  bps : Z;
  nchan : nat;
  valid : bool
}.

(** Modelled from the spec: the fixed word pattern of the payload of an
    invalid Mark 5B frame. *)
Definition sentinel : Z := 0x11223344.

(** Modelled from the spec: the declared shape, samples and channels
    (frame class missing from the sources). *)
Definition shape (f : frame) : nat * nat :=
  (Z.to_nat (Z.of_nat (List.length (payload f)) * 32 / (bps f * Z.of_nat (nchan f))),
   nchan f).

Section Codec.
Variable OPT : Q.

(** Modelled from the spec: the [data] property. *)
Definition data (f : frame) : list (list Q) :=
  if valid f then Payload.decode OPT (bps f) (nchan f) (payload f)
  else repeat (repeat 0%Q (snd (shape f))) (fst (shape f)).

(** Modelled from the spec: [from_samples] ([fromdata] in the tests). *)
Definition from_samples (samples : list (list Q)) (header : list Z)
    (bps : Z) (nchan : nat) (valid : bool) : frame :=
  let words := Payload.encode OPT bps samples in
  mkFrame header (if valid then words else map (fun _ => sentinel) words)
    bps nchan valid.
End Codec.

End Frame.

(** ** Stream reader, from the format description *)

Module Stream.

(** Modelled from the spec: the state of a stream opened for reading
    (the stream classes are not part of the sources): start time in
    seconds, sample rate in Hz, size and cursor in samples. *)
Record reader : Type := mkReader {
  time0 : Q;
  sample_rate : Q;
  size : Z;
  offset : Z
}.

(** Modelled from the spec: opening sets the cursor to zero. *)
Definition open_read (time0 sample_rate : Q) (size : Z) : reader :=
  mkReader time0 sample_rate size 0.

(** Modelled from the spec: rounding to the nearest integer sample
    (stream classes missing from the sources). *)
Definition round (x : Q) : Z := Qfloor (x + (1 # 2))%Q.

(** Modelled from the spec: [tell] in samples. *)
Definition tell (fh : reader) : Z := offset fh.

(** Modelled from the spec: [tell] in the time unit. *)
Definition tell_time (fh : reader) : Q :=
  (time0 fh + inject_Z (offset fh) / sample_rate fh)%Q.

(** Modelled from the spec: [seek] to a sample count. *)
Definition seek (fh : reader) (n : Z) : reader :=
  mkReader (time0 fh) (sample_rate fh) (size fh) n.

(** Modelled from the spec: [seek] to an absolute timestamp. *)
Definition seek_time (fh : reader) (target : Q) : reader :=
  seek fh (round ((target - time0 fh) * sample_rate fh)%Q).

End Stream.

(** * Properties *)

Example bcd_decode_array_ok :
  bcd_decode (NdArray uint32 [0x821; 0; 0x19801])
  = Some (Return (NdArray uint32 [821; 0; 19801])).
Proof. reflexivity. Qed.

Example bcd_decode_array_bad :
  bcd_decode (NdArray uint32 [0xA0; 0x0B]) = Some (Raise (InvalidBCD 0x0B)).
Proof. reflexivity. Qed.

Example bcd_encode_array_ok :
  bcd_encode (NdArray uint32 [821; 0; 19801])
  = Some (Return (NdArray uint32 [0x821; 0; 0x19801])).
Proof. reflexivity. Qed.

Example bcd_encode_array_zero :
  bcd_encode (NdArray uint32 [0; 0]) = Some (Return (PyInt 0)).
Proof. reflexivity. Qed.

Example crc_mark4 :
  match CRC_init 0x180f with
  | Return crc =>
      pol_bin crc = [1;1;0;0;0;0;0;0;0;1;1;1;1]
      /\ CRC_call 1 crc [1;0;1;1] = [1;0;0;0;0;1;0;0;1;0;1;1]
      /\ map Z.b2z (LongDivision.remainder 0x180f [true;false;true;true])
         = [1;0;0;0;0;1;0;0;1;0;1;1]
      /\ CRC_check 1 crc ([1;0;1;1] ++ CRC_call 1 crc [1;0;1;1]) = true
  | Raise _ => False
  end.
Proof. vm_compute. repeat split. Qed.

Section Digits.
Variable b : Z.
Hypothesis Hb : 2 <= b.

Lemma digits_lsb_fuel (f1 : nat) : forall (f2 : nat) (n : Z),
  0 <= n -> n < 2 ^ Z.of_nat (S f1) -> n < 2 ^ Z.of_nat (S f2) ->
  digits_lsb b (S f1) n = digits_lsb b (S f2) n.
Proof.
  induction f1 as [|f1 IH]; intros f2 n Hn H1 H2.
  - change (2 ^ Z.of_nat 1) with 2 in H1.
    cbn [digits_lsb]. destruct (n <? b) eqn:E; [reflexivity|].
    apply Z.ltb_ge in E. lia.
  - cbn [digits_lsb]. cbn [digits_lsb] in IH.
    destruct (n <? b) eqn:E; [reflexivity|]. apply Z.ltb_ge in E.
    f_equal.
    assert (Hq : 0 <= n / b) by (apply Z.div_pos; lia).
    assert (Hq1 : 1 <= n / b).
    { apply Z.div_le_lower_bound; lia. }
    assert (Hhalf : forall k : nat, n < 2 ^ Z.of_nat (S k) -> n / b < 2 ^ Z.of_nat k).
    { intros k Hk. rewrite Nat2Z.inj_succ, Z.pow_succ_r in Hk by lia.
      apply Z.div_lt_upper_bound; [lia|].
      assert (0 < 2 ^ Z.of_nat k) by (apply Z.pow_pos_nonneg; lia). nia. }
    pose proof (Hhalf _ H1) as A1. pose proof (Hhalf _ H2) as A2.
    destruct f2 as [|f2].
    { change (2 ^ Z.of_nat 0) with 1 in A2. lia. }
    apply (IH f2 (n / b)); assumption.
Qed.

Lemma digits_eq (n : Z) : 0 <= n ->
  digits b n = if n <? b then [n] else (n mod b) :: digits b (n / b).
Proof.
  intros Hn. unfold digits. cbn [digits_lsb].
  destruct (n <? b) eqn:E; [reflexivity|]. apply Z.ltb_ge in E.
  f_equal.
  assert (Hq1 : 1 <= n / b) by (apply Z.div_le_lower_bound; lia).
  assert (Hlt : n / b < n).
  { apply Z.div_lt; lia. }
  assert (Hn' : n < 2 ^ Z.succ (Z.log2 n)) by (apply Z.log2_spec; lia).
  assert (Hl : 1 <= Z.log2 n) by (apply Z.log2_le_pow2; simpl; lia).
  destruct (Z.to_nat (Z.log2 n)) as [|k] eqn:Ek; [lia|].
  apply digits_lsb_fuel.
  - lia.
  - apply Z.div_lt_upper_bound; [lia|].
    replace (Z.of_nat (S k)) with (Z.log2 n) by lia.
    rewrite Z.pow_succ_r in Hn' by lia.
    assert (0 < 2 ^ Z.log2 n) by (apply Z.pow_pos_nonneg; lia). nia.
  - rewrite Nat2Z.inj_succ, Z2Nat.id by (apply Z.log2_nonneg).
    apply Z.log2_spec. lia.
Qed.
End Digits.

Lemma Z_strong_ind (P : Z -> Prop) :
  (forall n, 0 <= n -> (forall m, 0 <= m < n -> P m) -> P n) ->
  forall n, 0 <= n -> P n.
Proof.
  intros H n Hn. revert Hn.
  induction n as [n IH] using (well_founded_induction (Z.lt_wf 0)).
  intros Hn. apply H; [assumption|]. intros m Hm. apply IH; lia.
Qed.

Lemma digits_range (b n : Z) : 2 <= b -> 0 <= n ->
  Forall (fun d => 0 <= d < b) (digits b n).
Proof.
  intros Hb Hn. revert n Hn. apply (Z_strong_ind (fun n => Forall _ (digits b n))).
  intros n Hn IH. rewrite digits_eq by assumption.
  destruct (n <? b) eqn:E.
  - apply Z.ltb_lt in E. constructor; [lia|constructor].
  - apply Z.ltb_ge in E. constructor.
    + apply Z.mod_pos_bound. lia.
    + apply IH. split; [apply Z.div_pos; lia | apply Z.div_lt; lia].
Qed.

Lemma undigits_digits (b n : Z) : 2 <= b -> 0 <= n -> undigits b (digits b n) = n.
Proof.
  intros Hb Hn. revert n Hn. apply (Z_strong_ind (fun n => undigits b (digits b n) = n)).
  intros n Hn IH. rewrite digits_eq by assumption.
  destruct (n <? b) eqn:E.
  - cbn. lia.
  - apply Z.ltb_ge in E. cbn [undigits]. rewrite IH.
    + pose proof (Z.div_mod n b). lia.
    + split; [apply Z.div_pos; lia | apply Z.div_lt; lia].
Qed.

Lemma digits_nonempty (b n : Z) : digits b n <> [].
Proof.
  unfold digits. cbn [digits_lsb]. destruct (n <? b); discriminate.
Qed.

Lemma char_digit_digit_char (d : Z) : 0 <= d < 36 ->
  char_digit (digit_char d) = Some d.
Proof.
  intros Hd. unfold char_digit, digit_char.
  destruct (d <? 10) eqn:E.
  - apply Z.ltb_lt in E. rewrite nat_ascii_embedding by lia.
    replace ((48 <=? Z.of_nat (48 + Z.to_nat d)) && (Z.of_nat (48 + Z.to_nat d) <=? 57)) with true.
    + f_equal. lia.
    + symmetry. apply andb_true_iff. split; apply Z.leb_le; lia.
  - apply Z.ltb_ge in E. rewrite nat_ascii_embedding by lia.
    replace ((48 <=? Z.of_nat (87 + Z.to_nat d)) && (Z.of_nat (87 + Z.to_nat d) <=? 57)) with false.
    + replace ((97 <=? Z.of_nat (87 + Z.to_nat d)) && (Z.of_nat (87 + Z.to_nat d) <=? 122)) with true.
      * f_equal. lia.
      * symmetry. apply andb_true_iff. split; apply Z.leb_le; lia.
    + symmetry. apply andb_false_iff. right. apply Z.leb_gt. lia.
Qed.

Lemma digit_char_not_minus (d : Z) : 0 <= d < 36 -> Ascii.eqb (digit_char d) "-" = false.
Proof.
  intros Hd. apply Ascii.eqb_neq. intros H.
  apply (f_equal nat_of_ascii) in H. unfold digit_char in H.
  destruct (d <? 10) eqn:E.
  - apply Z.ltb_lt in E. rewrite nat_ascii_embedding in H by lia. cbn in H. lia.
  - apply Z.ltb_ge in E. rewrite nat_ascii_embedding in H by lia. cbn in H. lia.
Qed.

(** Reading back the characters of a digit list. *)
Lemma int_digits_rev (b : Z) (ds : list Z) :
  Forall (fun d => 0 <= d < 36) ds ->
  int_digits b (map digit_char (rev ds))
  = if forallb (fun d => d <? b) ds then Some (undigits b ds) else None.
Proof.
  intros H. induction H as [|d ds Hd Hds IH].
  - reflexivity.
  - cbn [rev forallb undigits]. rewrite map_app. unfold int_digits in *.
    rewrite fold_left_app, IH. cbn [map fold_left].
    rewrite char_digit_digit_char by assumption.
    destruct (forallb (fun d0 => d0 <? b) ds), (d <? b); cbn; try reflexivity.
    f_equal. lia.
Qed.

Lemma int_of_string_format (b' b n : Z) : 2 <= b <= 36 -> 0 <= n ->
  int_of_string b' (format_base b n)
  = if forallb (fun d => d <? b') (digits b n) then Some (undigits b' (digits b n)) else None.
Proof.
  intros Hb Hn. unfold int_of_string, format_base.
  rewrite list_ascii_of_string_of_list_ascii.
  replace (n <? 0) with false by (symmetry; apply Z.ltb_ge; lia).
  rewrite Z.abs_eq by assumption. cbn [app].
  assert (R : Forall (fun d => 0 <= d < 36) (digits b n)).
  { eapply Forall_impl; [|apply digits_range; lia]. cbn. intros; lia. }
  rewrite <- int_digits_rev by assumption.
  assert (R' : Forall (fun d => 0 <= d < 36) (rev (digits b n))).
  { apply Forall_rev. assumption. }
  destruct (rev (digits b n)) as [|d l] eqn:E.
  - exfalso. apply (digits_nonempty b n).
    rewrite <- (rev_involutive (digits b n)), E. reflexivity.
  - cbn [map]. inversion R'; subst. rewrite digit_char_not_minus by assumption.
    reflexivity.
Qed.

Lemma bcd_encode_int_pack (n : Z) : 0 <= n -> bcd_encode_int n = Return (bcd_pack n).
Proof.
  intros Hn. unfold bcd_encode_int, format_d. rewrite int_of_string_format by lia.
  replace (forallb (fun d => d <? 16) (digits 10 n)) with true; [reflexivity|].
  symmetry. apply forallb_forall. intros d Hd. apply Z.ltb_lt.
  pose proof (digits_range 10 n ltac:(lia) Hn) as R.
  rewrite Forall_forall in R. specialize (R d Hd). lia.
Qed.

Lemma bcd_decode_int_unpack (v : Z) : 0 <= v ->
  bcd_decode_int v = if bcd_valid v then Return (bcd_unpack v) else Raise (InvalidBCD v).
Proof.
  intros Hv. unfold bcd_decode_int, format_x. rewrite int_of_string_format by lia.
  unfold bcd_valid, bcd_unpack. destruct (forallb _ _); reflexivity.
Qed.

Lemma bcd_pack_eq (n : Z) : 0 <= n ->
  bcd_pack n = if n <? 10 then n else n mod 10 + 16 * bcd_pack (n / 10).
Proof.
  intros Hn. unfold bcd_pack. rewrite digits_eq by lia.
  destruct (n <? 10); cbn [undigits]; lia.
Qed.

Lemma bcd_unpack_eq (v : Z) : 0 <= v ->
  bcd_unpack v = if v <? 16 then v else v mod 16 + 10 * bcd_unpack (v / 16).
Proof.
  intros Hn. unfold bcd_unpack. rewrite digits_eq by lia.
  destruct (v <? 16); cbn [undigits]; lia.
Qed.

Lemma bcd_valid_eq (v : Z) : 0 <= v ->
  bcd_valid v = if v <? 16 then v <? 10 else (v mod 16 <? 10) && bcd_valid (v / 16).
Proof.
  intros Hn. unfold bcd_valid. rewrite digits_eq by lia.
  destruct (v <? 16); cbn [forallb]; [apply andb_true_r | reflexivity].
Qed.

Lemma bcd_pack_ge (n : Z) : 0 <= n -> n <= bcd_pack n.
Proof.
  revert n. apply (Z_strong_ind (fun n => n <= bcd_pack n)).
  intros n Hn IH. rewrite bcd_pack_eq by assumption.
  destruct (n <? 10) eqn:E; [lia|]. apply Z.ltb_ge in E.
  assert (0 <= n / 10 < n) by (split; [apply Z.div_pos; lia | apply Z.div_lt; lia]).
  specialize (IH _ H). pose proof (Z.div_mod n 10). lia.
Qed.

Lemma bcd_pack_digits (n : Z) : 0 <= n -> digits 16 (bcd_pack n) = digits 10 n.
Proof.
  revert n. apply (Z_strong_ind (fun n => digits 16 (bcd_pack n) = digits 10 n)).
  intros n Hn IH.
  assert (Hp : 0 <= bcd_pack n) by (pose proof (bcd_pack_ge n Hn); lia).
  rewrite (digits_eq 16) by lia. rewrite (digits_eq 10 ltac:(lia) n) by lia.
  rewrite (bcd_pack_eq n) by assumption.
  destruct (n <? 10) eqn:E.
  - apply Z.ltb_lt in E. replace (n <? 16) with true by (symmetry; apply Z.ltb_lt; lia).
    reflexivity.
  - apply Z.ltb_ge in E.
    assert (Hq : 0 <= n / 10 < n) by (split; [apply Z.div_pos; lia | apply Z.div_lt; lia]).
    assert (Hq1 : 1 <= n / 10) by (apply Z.div_le_lower_bound; lia).
    pose proof (bcd_pack_ge (n / 10) ltac:(lia)) as G.
    pose proof (Z.mod_pos_bound n 10 ltac:(lia)) as M.
    replace (n mod 10 + 16 * bcd_pack (n / 10) <? 16) with false
      by (symmetry; apply Z.ltb_ge; lia).
    replace ((n mod 10 + 16 * bcd_pack (n / 10)) mod 16) with (n mod 10).
    2:{ apply Z.mod_unique with (q := bcd_pack (n / 10)); lia. }
    replace ((n mod 10 + 16 * bcd_pack (n / 10)) / 16) with (bcd_pack (n / 10)).
    2:{ apply Z.div_unique with (r := n mod 10); lia. }
    f_equal. apply IH. lia.
Qed.

Lemma bcd_pack_valid (n : Z) : 0 <= n -> bcd_valid (bcd_pack n) = true.
Proof.
  intros Hn. unfold bcd_valid. rewrite bcd_pack_digits by assumption.
  apply forallb_forall. intros d Hd. apply Z.ltb_lt.
  pose proof (digits_range 10 n ltac:(lia) Hn) as R.
  rewrite Forall_forall in R. specialize (R d Hd). lia.
Qed.

Lemma bcd_unpack_pack (n : Z) : 0 <= n -> bcd_unpack (bcd_pack n) = n.
Proof.
  intros Hn. unfold bcd_unpack. rewrite bcd_pack_digits by assumption.
  apply undigits_digits; lia.
Qed.

Lemma bcd_unpack_step (v : Z) : 0 <= v ->
  bcd_unpack v = v mod 16 + 10 * bcd_unpack (v / 16).
Proof.
  intros Hv. rewrite (bcd_unpack_eq v) by assumption.
  destruct (v <? 16) eqn:E; [|reflexivity]. apply Z.ltb_lt in E.
  rewrite Z.mod_small, Z.div_small by lia. change (bcd_unpack 0) with 0. lia.
Qed.

Lemma bcd_pack_step (n : Z) : 0 <= n ->
  bcd_pack n = n mod 10 + 16 * bcd_pack (n / 10).
Proof.
  intros Hv. rewrite (bcd_pack_eq n) by assumption.
  destruct (n <? 10) eqn:E; [|reflexivity]. apply Z.ltb_lt in E.
  rewrite Z.mod_small, Z.div_small by lia. change (bcd_pack 0) with 0. lia.
Qed.

Lemma bcd_valid_step (v : Z) : 0 <= v ->
  bcd_valid v = (v mod 16 <? 10) && bcd_valid (v / 16).
Proof.
  intros Hv. rewrite (bcd_valid_eq v) by assumption.
  destruct (v <? 16) eqn:E; [|reflexivity]. apply Z.ltb_lt in E.
  rewrite Z.mod_small, Z.div_small by lia. change (bcd_valid 0) with true.
  symmetry. apply andb_true_r.
Qed.

Lemma bcd_unpack_le (v : Z) : 0 <= v -> 0 <= bcd_unpack v <= v.
Proof.
  revert v. apply (Z_strong_ind (fun v => 0 <= bcd_unpack v <= v)).
  intros v Hv IH. rewrite bcd_unpack_eq by assumption.
  destruct (v <? 16) eqn:E; [lia|]. apply Z.ltb_ge in E.
  assert (0 <= v / 16 < v) by (split; [apply Z.div_pos; lia | apply Z.div_lt; lia]).
  specialize (IH _ H). pose proof (Z.div_mod v 16).
  pose proof (Z.mod_pos_bound v 16). lia.
Qed.

(** *** Loop fuel *)

Lemma fold_max_ge (a : list Z) : 0 <= fold_right Z.max 0 a /\ Forall (fun v => v <= fold_right Z.max 0 a) a.
Proof.
  induction a as [|x a [IH1 IH2]]; cbn.
  - split; [lia|constructor].
  - split; [lia|]. constructor; [lia|].
    eapply Forall_impl; [|exact IH2]. cbn. intros; lia.
Qed.

Lemma loop_fuel_enough (a : list Z) : Forall (fun v => v < 2 ^ Z.of_nat (loop_fuel a)) a.
Proof.
  destruct (fold_max_ge a) as [H0 H]. eapply Forall_impl; [|exact H].
  cbn beta. intros v Hv. unfold loop_fuel.
  rewrite Nat2Z.inj_succ, Z2Nat.id by apply Z.log2_nonneg.
  destruct (Z.eq_dec (fold_right Z.max 0 a) 0) as [E|E].
  - rewrite E in *. cbn. lia.
  - pose proof (Z.log2_spec (fold_right Z.max 0 a)). lia.
Qed.

Lemma div_fuel (b c : Z) (f : nat) : 2 <= c -> b < 2 ^ Z.of_nat (S f) -> b / c < 2 ^ Z.of_nat f.
Proof.
  intros Hc Hb. assert (0 < 2 ^ Z.of_nat f) by (apply Z.pow_pos_nonneg; lia).
  rewrite Nat2Z.inj_succ, Z.pow_succ_r in Hb by lia.
  apply Z.div_lt_upper_bound; [lia|]. nia.
Qed.

Lemma no_positive_fuel0 (bcd : list Z) :
  Forall (fun b => b < 2 ^ Z.of_nat 0) bcd -> existsb (fun b => 0 <? b) bcd = false.
Proof.
  intros H. induction H as [|b bcd Hb _ IH]; [reflexivity|].
  cbn [existsb]. rewrite IH. change (2 ^ Z.of_nat 0) with 1 in Hb.
  replace (0 <? b) with false by (symmetry; apply Z.ltb_ge; lia). reflexivity.
Qed.

Lemma Forall_div_fuel (c : Z) (f : nat) (bcd : list Z) : 2 <= c ->
  Forall (fun b => b < 2 ^ Z.of_nat (S f)) bcd ->
  Forall (fun b => b < 2 ^ Z.of_nat f) (map (fun b => b / c) bcd).
Proof.
  intros Hc H. apply Forall_map. eapply Forall_impl; [|exact H].
  cbn. intros b Hb. apply div_fuel; assumption.
Qed.

(** The decoding loop always ends, with the fuel [bcd_decode_array] gives. *)
Lemma bcd_decode_loop_total (dt : dtype) (f : nat) : forall value bcd result factor,
  Forall (fun b => b < 2 ^ Z.of_nat f) bcd ->
  exists r, bcd_decode_loop dt f value bcd result factor = Some r.
Proof.
  induction f as [|f IH]; intros value bcd result factor H.
  - cbn. rewrite no_positive_fuel0 by assumption. eauto.
  - cbn [bcd_decode_loop]. destruct (existsb _ bcd); [|eauto].
    destruct (existsb _ (map _ bcd)); [eauto|].
    destruct (np_mul dt _ factor); [|eauto].
    apply IH. apply Forall_div_fuel; [lia|assumption].
Qed.

Lemma bcd_encode_loop_total (dt : dtype) (f : nat) : forall value result factor,
  Forall (fun b => b < 2 ^ Z.of_nat f) value ->
  exists r, bcd_encode_loop dt f value result factor = Some r.
Proof.
  induction f as [|f IH]; intros value result factor H.
  - cbn. rewrite no_positive_fuel0 by assumption. eauto.
  - cbn [bcd_encode_loop]. destruct (existsb _ value); [|eauto].
    destruct (np_mul dt _ factor); [|eauto].
    destruct (iadd dt result _); [|eauto].
    apply IH. apply Forall_div_fuel; [lia|assumption].
Qed.

(** *** Arithmetic in a dtype *)

Lemma bits_pos (dt : dtype) : 0 < bits dt.
Proof. destruct dt; reflexivity. Qed.

Lemma dtype_span (dt : dtype) : dtype_max dt - dtype_min dt + 1 = 2 ^ bits dt.
Proof. destruct dt; reflexivity. Qed.

Lemma dtype_min_nonpos (dt : dtype) : dtype_min dt <= 0.
Proof. destruct dt; vm_compute; discriminate. Qed.

Lemma fits_in_range (dt : dtype) (x : Z) : fits dt x = true <-> in_range dt x.
Proof.
  unfold fits, in_range. rewrite andb_true_iff, !Z.leb_le. reflexivity.
Qed.

Lemma fits_nonneg (dt : dtype) (x : Z) : 0 <= x <= dtype_max dt -> fits dt x = true.
Proof.
  intros H. apply fits_in_range. pose proof (dtype_min_nonpos dt). unfold in_range. lia.
Qed.

Lemma cast_cast (dt : dtype) (x : Z) : cast dt (cast dt x) = cast dt x.
Proof.
  unfold cast. f_equal.
  replace ((x - dtype_min dt) mod 2 ^ bits dt + dtype_min dt - dtype_min dt)
    with ((x - dtype_min dt) mod 2 ^ bits dt) by lia.
  apply Zmod_mod.
Qed.

Lemma cast_add_l (dt : dtype) (x y : Z) : cast dt (cast dt x + y) = cast dt (x + y).
Proof.
  unfold cast. f_equal.
  replace ((x - dtype_min dt) mod 2 ^ bits dt + dtype_min dt + y - dtype_min dt)
    with ((x - dtype_min dt) mod 2 ^ bits dt + y) by lia.
  rewrite Zplus_mod_idemp_l. f_equal. lia.
Qed.

Lemma cast_add_r (dt : dtype) (x y : Z) : cast dt (x + cast dt y) = cast dt (x + y).
Proof. rewrite Z.add_comm, cast_add_l. f_equal. lia. Qed.

Lemma cast_small (dt : dtype) (x : Z) : in_range dt x -> cast dt x = x.
Proof.
  intros [H1 H2]. unfold cast. pose proof (dtype_span dt).
  rewrite Z.mod_small by lia. lia.
Qed.

Lemma cast_0 (dt : dtype) : cast dt 0 = 0.
Proof.
  apply cast_small. split; [apply dtype_min_nonpos|].
  destruct dt; vm_compute; discriminate.
Qed.

(** *** What the loops compute *)

Lemma all_zero (bcd : list Z) :
  Forall (fun b => 0 <= b) bcd -> existsb (fun b => 0 <? b) bcd = false ->
  Forall (fun b => b = 0) bcd.
Proof.
  intros H. induction H as [|b bcd Hb _ IH]; intros E; [constructor|].
  cbn in E. apply orb_false_iff in E. destruct E as [E1 E2].
  apply Z.ltb_ge in E1. constructor; [lia|auto].
Qed.

Section Accumulate.
Variable dt : dtype.
Variables (base radix : Z).
Variable unpack : Z -> Z.
Hypothesis unpack_0 : unpack 0 = 0.
Hypothesis unpack_step : forall v, 0 <= v -> unpack v = v mod radix + base * unpack (v / radix).

Lemma folded_zero (factor : Z) : forall result bcd,
  List.length result = List.length bcd ->
  Forall (fun r => cast dt r = r) result ->
  Forall (fun b => b = 0) bcd ->
  folded dt unpack factor result bcd = result.
Proof.
  induction result as [|r result IH]; intros [|b bcd] L Hr Hb; try discriminate; [reflexivity|].
  inversion Hr; subst. inversion Hb; subst. unfold folded in *.
  cbn [combine map fst snd].
  rewrite unpack_0, Z.mul_0_r, Z.add_0_r. f_equal; [assumption|].
  apply IH; auto.
Qed.

Lemma folded_step (factor : Z) : forall result bcd,
  List.length result = List.length bcd ->
  Forall (fun b => 0 <= b) bcd ->
  folded dt unpack (factor * base)
    (np_iadd dt result (products dt (map (fun b => b mod radix) bcd) factor))
    (map (fun b => b / radix) bcd)
  = folded dt unpack factor result bcd.
Proof.
  induction result as [|r result IH]; intros [|b bcd] L Hb; try discriminate; [reflexivity|].
  inversion Hb; subst. unfold folded in *.
  cbn [combine map np_iadd products fst snd].
  f_equal.
  - rewrite cast_add_l, <- Z.add_assoc, (Z.add_comm (cast dt _)), Z.add_assoc, cast_add_r.
    f_equal. rewrite (unpack_step b) by assumption. ring.
  - apply IH; auto.
Qed.

Lemma np_iadd_cast : forall result x,
  Forall (fun r => cast dt r = r) (np_iadd dt result x).
Proof.
  induction result as [|r result IH]; intros [|d x]; cbn; constructor.
  - apply cast_cast.
  - apply IH.
Qed.

Lemma np_iadd_length : forall result x,
  List.length result = List.length x -> List.length (np_iadd dt result x) = List.length x.
Proof.
  induction result as [|r result IH]; intros [|d x] L; try discriminate; cbn; auto.
Qed.

(** The factor stays a value of the dtype as long as the loop runs: the
    loop keeps [factor * weight b] below the largest value of the dtype
    for the elements [b] still to be consumed. *)
Variable weight : Z -> Z.
Hypothesis weight_pos : forall v, 0 < v -> 0 < weight v.
Hypothesis weight_step : forall v, 0 <= v -> base * weight (v / radix) <= weight v.
Hypothesis radix_pos : 0 < radix.
Hypothesis base_pos : 0 < base.

Lemma bounded_nonneg (factor : Z) (bcd : list Z) :
  bounded dt weight factor bcd -> Forall (fun b => 0 <= b) bcd.
Proof. intros H. eapply Forall_impl; [|exact H]. cbn beta. intros b [Hb _]. exact Hb. Qed.

Lemma bounded_fits (factor : Z) (bcd : list Z) :
  0 < factor -> bounded dt weight factor bcd ->
  existsb (fun b => 0 <? b) bcd = true -> fits dt factor = true.
Proof.
  intros Hf H E. apply existsb_exists in E. destruct E as (b & Hin & Hb).
  apply Z.ltb_lt in Hb. unfold bounded in H. rewrite Forall_forall in H.
  destruct (H b Hin) as [_ Hw]. specialize (weight_pos b Hb).
  apply fits_nonneg. nia.
Qed.

Lemma bounded_step (factor : Z) (bcd : list Z) :
  0 < factor -> bounded dt weight factor bcd ->
  bounded dt weight (factor * base) (map (fun b => b / radix) bcd).
Proof.
  intros Hf H. apply Forall_map. eapply Forall_impl; [|exact H]. cbn beta.
  intros b [Hb Hw]. split; [apply Z.div_pos; lia|].
  specialize (weight_step b Hb). nia.
Qed.

Lemma np_mul_bounded (factor : Z) (bcd digit : list Z) :
  0 < factor -> bounded dt weight factor bcd ->
  existsb (fun b => 0 <? b) bcd = true ->
  np_mul dt digit factor = Return (products dt digit factor).
Proof.
  intros Hf H E. unfold np_mul. rewrite (bounded_fits factor bcd) by assumption.
  reflexivity.
Qed.
End Accumulate.

Lemma Forall_div_nonneg (c : Z) (bcd : list Z) : 0 < c ->
  Forall (fun b => 0 <= b) bcd -> Forall (fun b => 0 <= b) (map (fun b => b / c) bcd).
Proof.
  intros Hc H. apply Forall_map. eapply Forall_impl; [|exact H].
  cbn. intros b Hb. apply Z.div_pos; lia.
Qed.

Lemma valid_digits (bcd : list Z) :
  Forall (fun b => 0 <= b) bcd ->
  forallb bcd_valid bcd
  = negb (existsb (fun d => 9 <? d) (map (fun b => b mod 16) bcd))
    && forallb bcd_valid (map (fun b => b / 16) bcd).
Proof.
  intros H. induction H as [|b bcd Hb _ IH]; [reflexivity|].
  cbn [forallb existsb map]. rewrite IH, (bcd_valid_step b) by assumption.
  replace (9 <? b mod 16) with (negb (b mod 16 <? 10)).
  2:{ destruct (b mod 16 <? 10) eqn:E; cbn; symmetry.
      - apply Z.ltb_lt in E. apply Z.ltb_ge. lia.
      - apply Z.ltb_ge in E. apply Z.ltb_lt. lia. }
  destruct (b mod 16 <? 10); cbn [negb orb andb]; [|reflexivity].
  destruct (existsb _ _); cbn [negb orb andb]; [|reflexivity].
  apply andb_false_r.
Qed.

(** The weights that bound the factor: the raw value itself while
    decoding, its BCD encoding while encoding. *)
Lemma decode_weight_step (v : Z) : 0 <= v -> 10 * (v / 16) <= v.
Proof. intros Hv. pose proof (Z.mul_div_le v 16 ltac:(lia)). assert (0 <= v / 16) by (apply Z.div_pos; lia). lia. Qed.

Lemma encode_weight_pos (v : Z) : 0 < v -> 0 < bcd_pack v.
Proof. intros Hv. pose proof (bcd_pack_ge v ltac:(lia)). lia. Qed.

Lemma encode_weight_step (v : Z) : 0 <= v -> 16 * bcd_pack (v / 10) <= bcd_pack v.
Proof.
  intros Hv. rewrite (bcd_pack_step v) by assumption.
  pose proof (Z.mod_pos_bound v 10 ltac:(lia)). lia.
Qed.

Lemma bcd_decode_loop_valid (dt : dtype) (f : nat) : forall value bcd result factor,
  List.length result = List.length bcd ->
  0 < factor ->
  bounded dt (fun b => b) factor bcd ->
  Forall (fun b => b < 2 ^ Z.of_nat f) bcd ->
  Forall (fun r => cast dt r = r) result ->
  forallb bcd_valid bcd = true ->
  bcd_decode_loop dt f value bcd result factor
  = Some (Return (folded dt bcd_unpack factor result bcd)).
Proof.
  induction f as [|f IH]; intros value bcd result factor L Hfac Hbd Hf Hr Hv;
    pose proof (bounded_nonneg dt _ _ _ Hbd) as Hb.
  - cbn. rewrite no_positive_fuel0 by assumption.
    rewrite folded_zero; auto. apply all_zero; auto using no_positive_fuel0.
  - cbn [bcd_decode_loop]. destruct (existsb _ bcd) eqn:E.
    + rewrite valid_digits in Hv by assumption. apply andb_true_iff in Hv.
      destruct Hv as [Hv1 Hv2]. apply negb_true_iff in Hv1. rewrite Hv1.
      rewrite (np_mul_bounded dt (fun b => b) (fun v H => H) factor bcd _ Hfac Hbd E).
      rewrite IH.
      * rewrite (folded_step dt 10 16 bcd_unpack bcd_unpack_step); auto.
      * rewrite np_iadd_length; unfold products; rewrite ?length_map; auto.
      * lia.
      * apply (bounded_step dt 10 16 (fun b => b) decode_weight_step); try assumption; lia.
      * apply Forall_div_fuel; [lia|assumption].
      * apply np_iadd_cast.
      * assumption.
    + rewrite folded_zero; auto. apply all_zero; auto.
Qed.

Lemma bcd_encode_loop_array (dt : dtype) (f : nat) : forall value result factor,
  List.length result = List.length value ->
  0 < factor ->
  bounded dt bcd_pack factor value ->
  Forall (fun b => b < 2 ^ Z.of_nat f) value ->
  Forall (fun r => cast dt r = r) result ->
  bcd_encode_loop dt f value (NdArray dt result) factor
  = Some (Return (NdArray dt (folded dt bcd_pack factor result value))).
Proof.
  induction f as [|f IH]; intros value result factor L Hfac Hbd Hf Hr;
    pose proof (bounded_nonneg dt _ _ _ Hbd) as Hb.
  - cbn. rewrite no_positive_fuel0 by assumption.
    rewrite folded_zero; auto. apply all_zero; auto using no_positive_fuel0.
  - cbn [bcd_encode_loop]. destruct (existsb _ value) eqn:E.
    + rewrite (np_mul_bounded dt bcd_pack encode_weight_pos factor value _ Hfac Hbd E).
      cbn [iadd]. rewrite IH.
      * rewrite (folded_step dt 16 10 bcd_pack bcd_pack_step); auto.
      * rewrite np_iadd_length; unfold products; rewrite ?length_map; auto.
      * lia.
      * apply (bounded_step dt 16 10 bcd_pack encode_weight_step); try assumption; lia.
      * apply Forall_div_fuel; [lia|assumption].
      * apply np_iadd_cast.
    + rewrite folded_zero; auto. apply all_zero; auto.
Qed.

Lemma nibble_eq (k : nat) (v : Z) : nibble k v = (v / 16 ^ Z.of_nat k) mod 16.
Proof.
  unfold nibble. change 0xF with (Z.ones 4).
  rewrite Z.land_ones, Z.shiftr_div_pow2 by lia.
  rewrite Z.pow_mul_r by lia. reflexivity.
Qed.

Lemma nibble_0 (v : Z) : nibble 0 v = v mod 16.
Proof. rewrite nibble_eq. change (16 ^ Z.of_nat 0) with 1. rewrite Z.div_1_r. reflexivity. Qed.

Lemma nibble_S (k : nat) (v : Z) : nibble (S k) v = nibble k (v / 16).
Proof.
  rewrite !nibble_eq, Nat2Z.inj_succ, Z.pow_succ_r by lia.
  rewrite Z.div_div by (try apply Z.pow_pos_nonneg; lia). reflexivity.
Qed.

Lemma bcd_valid_nibbles (v : Z) : 0 <= v ->
  bcd_valid v = true <-> (forall k, nibble k v <= 9).
Proof.
  revert v. apply (Z_strong_ind (fun v => bcd_valid v = true <-> (forall k, nibble k v <= 9))).
  intros v Hv IH. rewrite bcd_valid_step by assumption.
  destruct (Z.eq_dec v 0) as [->|Hnz].
  - split; [|reflexivity]. intros _ k. rewrite nibble_eq. rewrite Z.div_0_l by (apply Z.pow_nonzero; lia).
    cbn. lia.
  - assert (Hq : 0 <= v / 16 < v) by (split; [apply Z.div_pos; lia | apply Z.div_lt; lia]).
    specialize (IH _ Hq). rewrite andb_true_iff, IH, Z.ltb_lt. split.
    + intros [H0 H] [|k]; [rewrite nibble_0; lia | rewrite nibble_S; apply H].
    + intros H. split.
      * specialize (H O). rewrite nibble_0 in H. lia.
      * intros k. rewrite <- nibble_S. apply H.
Qed.

Lemma bcd_invalid_nibble (v : Z) : 0 <= v ->
  bcd_valid v = false <-> (exists k, 9 < nibble k v).
Proof.
  revert v. apply (Z_strong_ind (fun v => bcd_valid v = false <-> (exists k, 9 < nibble k v))).
  intros v Hv IH. rewrite bcd_valid_step by assumption.
  destruct (Z.eq_dec v 0) as [->|Hnz].
  - split; [discriminate|]. intros [k Hk]. rewrite nibble_eq in Hk.
    rewrite Z.div_0_l in Hk by (apply Z.pow_nonzero; lia). cbn in Hk. lia.
  - assert (Hq : 0 <= v / 16 < v) by (split; [apply Z.div_pos; lia | apply Z.div_lt; lia]).
    specialize (IH _ Hq). rewrite andb_false_iff, IH, Z.ltb_ge. split.
    + intros [H0 | [k Hk]].
      * exists O. rewrite nibble_0. lia.
      * exists (S k). rewrite nibble_S. assumption.
    + intros [[|k] Hk].
      * left. rewrite nibble_0 in Hk. lia.
      * right. exists k. rewrite <- nibble_S. assumption.
Qed.

Lemma np_select_filter (p : Z -> bool) (a : list Z) :
  np_select (map p a) a = filter p a.
Proof.
  induction a as [|x a IH]; [reflexivity|]. cbn. destruct (p x); rewrite IH; reflexivity.
Qed.

Lemma filter_head_find (p : Z -> bool) (a : list Z) (x : Z) :
  find p a = Some x -> nth 0 (filter p a) 0 = x.
Proof.
  induction a as [|y a IH]; [discriminate|]. cbn.
  destruct (p y); [intros [= ->]; reflexivity | exact IH].
Qed.

Lemma existsb_find (p : Z -> bool) (a : list Z) :
  existsb p a = true -> exists x, find p a = Some x.
Proof.
  induction a as [|y a IH]; [discriminate|]. cbn.
  destruct (p y); [eauto | exact IH].
Qed.

Lemma map_nibble (k : nat) (value : list Z) :
  map (fun b => b mod 16) (map (fun v => v / 16 ^ Z.of_nat k) value)
  = map (nibble k) value.
Proof.
  rewrite map_map. apply map_ext. intros v. symmetry. apply nibble_eq.
Qed.

Lemma map_shift (k : nat) (value : list Z) :
  map (fun b => b / 16) (map (fun v => v / 16 ^ Z.of_nat k) value)
  = map (fun v => v / 16 ^ Z.of_nat (S k)) value.
Proof.
  rewrite map_map. apply map_ext. intros v.
  rewrite Nat2Z.inj_succ, Z.pow_succ_r by lia.
  rewrite Z.div_div by (try apply Z.pow_pos_nonneg; lia).
  f_equal. lia.
Qed.

Lemma existsb_map {A B : Type} (p : B -> bool) (g : A -> B) (l : list A) :
  existsb p (map g l) = existsb (fun x => p (g x)) l.
Proof. induction l as [|x l IH]; cbn; [reflexivity | rewrite IH; reflexivity]. Qed.

Lemma existsb_false_all (p : Z -> bool) (l : list Z) :
  existsb p l = false -> forall x, In x l -> p x = false.
Proof.
  intros H x Hx. destruct (p x) eqn:E; [|reflexivity].
  rewrite <- H. symmetry. apply existsb_exists. eauto.
Qed.

(** When some nibble is not a decimal digit, the loop raises at the lowest
    nibble position [j] at which some element fails, and reports the first
    element, in array order, that fails at position [j]. *)
Lemma bcd_decode_loop_invalid (dt : dtype) (f : nat) : forall value result factor (k : nat),
  let bcd := map (fun v => v / 16 ^ Z.of_nat k) value in
  Forall (fun v => 0 <= v) value ->
  0 < factor ->
  bounded dt (fun b => b) factor bcd ->
  Forall (fun b => b < 2 ^ Z.of_nat f) bcd ->
  forallb bcd_valid bcd = false ->
  exists x j,
    bcd_decode_loop dt f value bcd result factor = Some (Raise (InvalidBCD x))
    /\ (k <= j)%nat
    /\ find (fun v => 9 <? nibble j v) value = Some x
    /\ (forall v i, In v value -> (k <= i < j)%nat -> nibble i v <= 9).
Proof.
  induction f as [|f IH]; intros value result factor k bcd Hv Hfac Hbd Hf Hbad;
    assert (Hb : Forall (fun b => 0 <= b) bcd)
      by (apply Forall_div_nonneg; [apply Z.pow_pos_nonneg; lia | assumption]).
  - exfalso.
    pose proof (all_zero bcd Hb (no_positive_fuel0 bcd Hf)) as Z0.
    assert (forallb bcd_valid bcd = true).
    { apply forallb_forall. intros b Hin. rewrite Forall_forall in Z0.
      rewrite (Z0 b Hin). reflexivity. }
    congruence.
  - cbn [bcd_decode_loop]. destruct (existsb (fun b => 0 <? b) bcd) eqn:E.
    2:{ exfalso. pose proof (all_zero bcd Hb E) as Z0.
        assert (forallb bcd_valid bcd = true).
        { apply forallb_forall. intros b Hin. rewrite Forall_forall in Z0.
          rewrite (Z0 b Hin). reflexivity. }
        congruence. }
    rewrite valid_digits in Hbad by assumption.
    assert (Hf' : Forall (fun b => b < 2 ^ Z.of_nat f) (map (fun b => b / 16) bcd))
      by (apply Forall_div_fuel; [lia|assumption]).
    assert (Hbd' : bounded dt (fun b => b) (factor * 10) (map (fun b => b / 16) bcd))
      by (apply (bounded_step dt 10 16 (fun b => b) decode_weight_step);
          try assumption; lia).
    rewrite (np_mul_bounded dt (fun b => b) (fun v H => H) factor bcd _ Hfac Hbd E).
    subst bcd. rewrite map_nibble, map_shift in *. rewrite existsb_map in *.
    destruct (existsb (fun v => 9 <? nibble k v) value) eqn:Ek.
    + destruct (existsb_find _ _ Ek) as [x Hx]. exists x, k.
      rewrite map_map, np_select_filter, (filter_head_find _ _ _ Hx).
      split; [reflexivity|]. split; [lia|]. split; [assumption|].
      intros v i _ Hi. lia.
    + cbn [negb andb] in Hbad.
      destruct (IH value (np_iadd dt result (products dt (map (nibble k) value) factor))
                  (factor * 10) (S k) Hv ltac:(lia) Hbd' Hf' Hbad)
        as (x & j & Hrun & Hj & Hfind & Hlow).
      exists x, j. split; [exact Hrun|]. split; [lia|]. split; [assumption|].
      intros v i Hin Hi. destruct (Nat.eq_dec i k) as [->|Hne].
      * pose proof (existsb_false_all _ _ Ek v Hin) as Hk. cbn beta in Hk.
        apply Z.ltb_ge in Hk. assumption.
      * apply Hlow; [assumption|lia].
Qed.

Lemma folded_zeros (dt : dtype) (unpack : Z -> Z) (a : list Z) :
  folded dt unpack 1 (map (fun _ => 0) a) a = map (fun v => cast dt (unpack v)) a.
Proof.
  unfold folded. induction a as [|v a IH]; [reflexivity|].
  cbn [map combine fst snd]. rewrite IH. f_equal. f_equal. lia.
Qed.

Lemma map_cast_small (dt : dtype) (g : Z -> Z) (a : list Z) :
  Forall (fun v => in_range dt (g v)) a -> map (fun v => cast dt (g v)) a = map g a.
Proof.
  intros H. apply map_ext_in. intros v Hv. rewrite Forall_forall in H.
  apply cast_small. auto.
Qed.

Lemma nonneg_in_range (dt : dtype) (x : Z) : 0 <= x <= dtype_max dt -> in_range dt x.
Proof. intros H. pose proof (dtype_min_nonpos dt). unfold in_range. lia. Qed.

Lemma bounded_start (dt : dtype) (weight : Z -> Z) (a : list Z) :
  Forall (fun v => 0 <= v /\ weight v <= dtype_max dt) a -> bounded dt weight 1 a.
Proof.
  intros H. eapply Forall_impl; [|exact H]. cbn beta. intros v [H0 H1]. split; lia.
Qed.

(** On an array of non-negative values of the dtype, all of them BCD
    values, the loop returns the decoded values, none of them wrapped. *)
Lemma bcd_decode_array_valid (dt : dtype) (a : list Z) :
  Forall (fun v => 0 <= v <= dtype_max dt) a -> forallb bcd_valid a = true ->
  bcd_decode_array dt a = Some (Return (map bcd_unpack a)).
Proof.
  intros Ha Hv. unfold bcd_decode_array.
  rewrite bcd_decode_loop_valid; auto.
  - rewrite folded_zeros. do 2 f_equal. apply map_cast_small.
    eapply Forall_impl; [|exact Ha]. cbn beta. intros v Hr.
    pose proof (bcd_unpack_le v ltac:(lia)). apply nonneg_in_range. lia.
  - apply length_map.
  - lia.
  - apply bounded_start. exact Ha.
  - apply loop_fuel_enough.
  - apply Forall_map. apply Forall_forall. intros; apply cast_0.
Qed.

Lemma bcd_decode_array_invalid (dt : dtype) (a : list Z) :
  Forall (fun v => 0 <= v <= dtype_max dt) a -> forallb bcd_valid a = false ->
  exists x j,
    bcd_decode_array dt a = Some (Raise (InvalidBCD x))
    /\ find (fun v => 9 <? nibble j v) a = Some x
    /\ (forall v i, In v a -> (i < j)%nat -> nibble i v <= 9).
Proof.
  intros Ha Hv. unfold bcd_decode_array.
  assert (Ha0 : Forall (fun v => 0 <= v) a).
  { eapply Forall_impl; [|exact Ha]. cbn beta. intros; lia. }
  assert (E : map (fun v => v / 16 ^ Z.of_nat 0) a = a).
  { rewrite <- (map_id a) at 2. apply map_ext. intros v. apply Z.div_1_r. }
  pose proof (bcd_decode_loop_invalid dt (loop_fuel a) a (map (fun _ => 0) a) 1 0 Ha0) as L.
  cbv zeta in L. rewrite E in L.
  destruct (L ltac:(lia) (bounded_start dt (fun b => b) a Ha) (loop_fuel_enough a) Hv)
    as (x & j & Hrun & _ & Hfind & Hlow).
  exists x, j. split; [assumption|]. split; [assumption|].
  intros v i Hin Hi. apply Hlow; [assumption|lia].
Qed.

Lemma encode_first_turn (dt : dtype) (a : list Z) :
  Forall (fun v => 0 <= v) a ->
  folded dt bcd_pack 16
    (map (fun d => cast dt (0 + d)) (products dt (map (fun v => v mod 10) a) 1))
    (map (fun v => v / 10) a)
  = map (fun v => cast dt (bcd_pack v)) a.
Proof.
  intros Ha. unfold folded, products. induction Ha as [|v a Hv _ IH]; [reflexivity|].
  cbn [map combine fst snd]. rewrite IH. f_equal.
  rewrite cast_add_l, Z.add_0_l, cast_add_l. f_equal.
  rewrite (bcd_pack_step v) by assumption. lia.
Qed.

Lemma fits_small (dt : dtype) (x : Z) : 0 <= x <= 1 -> fits dt x = true.
Proof.
  intros H. apply fits_nonneg. split; [lia|].
  assert (1 <= dtype_max dt) by (destruct dt; vm_compute; discriminate). lia.
Qed.

(** On an array of non-negative integers whose BCD encodings are values of
    the dtype, the loop returns these encodings, none of them wrapped. *)
Lemma bcd_encode_array_spec (dt : dtype) (a : list Z) :
  Forall (fun v => 0 <= v /\ bcd_pack v <= dtype_max dt) a ->
  bcd_encode_array dt a
  = Some (Return (if existsb (fun v => 0 <? v) a
                  then NdArray dt (map bcd_pack a)
                  else PyInt 0)).
Proof.
  intros Ha. unfold bcd_encode_array.
  assert (Ha0 : Forall (fun v => 0 <= v) a).
  { eapply Forall_impl; [|exact Ha]. cbn beta. intros; lia. }
  pose proof (loop_fuel_enough a) as F. unfold loop_fuel in *.
  set (f := Z.to_nat (Z.log2 (fold_right Z.max 0 a))) in *.
  cbn [bcd_encode_loop]. destruct (existsb _ a); [|reflexivity].
  unfold np_mul. rewrite fits_small by lia. cbn [iadd].
  rewrite fits_small by lia.
  rewrite bcd_encode_loop_array.
  - rewrite encode_first_turn by assumption. do 3 f_equal.
    apply map_cast_small. eapply Forall_impl; [|exact Ha]. cbn beta.
    intros v [H0 H1]. pose proof (bcd_pack_ge v H0). apply nonneg_in_range. lia.
  - unfold products. rewrite !length_map. reflexivity.
  - lia.
  - apply (bounded_step dt 16 10 bcd_pack encode_weight_step); try lia.
    apply bounded_start. exact Ha.
  - apply Forall_div_fuel; [lia|assumption].
  - apply Forall_map. apply Forall_forall. intros; apply cast_cast.
Qed.

(** *** Arrays that [bcd_encode] turns into arrays *)

Lemma digits_factor_fits (dt : dtype) (k : Z) :
  0 <= k < bits dt / 4 -> fits dt (16 ^ k) = true.
Proof.
  intros Hk. apply fits_nonneg. split; [apply Z.pow_nonneg; lia|].
  transitivity (16 ^ (bits dt / 4 - 1)).
  - apply Z.pow_le_mono_r; lia.
  - destruct dt; vm_compute; discriminate.
Qed.

Lemma positive_below_pow (value : list Z) (e : Z) :
  Forall (fun b => b < 10 ^ e) value ->
  existsb (fun b => 0 <? b) value = true -> 1 <= e.
Proof.
  intros H E. apply existsb_exists in E. destruct E as (b & Hin & Hb).
  apply Z.ltb_lt in Hb. rewrite Forall_forall in H. specialize (H b Hin).
  destruct (Z.lt_ge_cases e 1) as [L|G]; [|exact G]. exfalso.
  destruct (Z.eq_dec e 0) as [->|N].
  - change (10 ^ 0) with 1 in H. lia.
  - rewrite Z.pow_neg_r in H by lia. lia.
Qed.

(** As long as every element has at most [bits dt / 4] decimal digits the
    factor stays a value of the dtype and the loop returns an array,
    whatever the sign of the elements. *)
Lemma bcd_encode_loop_returns (dt : dtype) (f : nat) : forall value r factor k,
  List.length r = List.length value ->
  0 <= k -> factor = 16 ^ k ->
  Forall (fun b => b < 10 ^ (bits dt / 4 - k)) value ->
  Forall (fun b => b < 2 ^ Z.of_nat f) value ->
  exists r', bcd_encode_loop dt f value (NdArray dt r) factor
             = Some (Return (NdArray dt r'))
             /\ List.length r' = List.length value.
Proof.
  induction f as [|f IH]; intros value r factor k L Hk Hfac Hd Hf.
  - cbn. rewrite no_positive_fuel0 by assumption. eauto.
  - cbn [bcd_encode_loop]. destruct (existsb _ value) eqn:E; [|eauto].
    pose proof (positive_below_pow value _ Hd E) as Hroom.
    unfold np_mul. rewrite Hfac, digits_factor_fits by lia. cbn [iadd].
    destruct (IH (map (fun v => v / 10) value)
                (np_iadd dt r (products dt (map (fun v => v mod 10) value) (16 ^ k)))
                (16 ^ k * 16) (k + 1)) as (r' & Hrun & Hlen).
    + rewrite np_iadd_length; unfold products; rewrite !length_map; auto.
    + lia.
    + rewrite Z.pow_add_r by lia. reflexivity.
    + apply Forall_map. eapply Forall_impl; [|exact Hd]. cbn beta. intros b Hb.
      apply Z.div_lt_upper_bound; [lia|].
      replace (bits dt / 4 - k) with (Z.succ (bits dt / 4 - (k + 1))) in Hb by lia.
      rewrite Z.pow_succ_r in Hb by lia. exact Hb.
    + apply Forall_div_fuel; [lia|assumption].
    + exists r'. rewrite length_map in Hlen. split; assumption.
Qed.

Lemma bcd_encode_array_returns (dt : dtype) (a : list Z) :
  existsb (fun v => 0 <? v) a = true ->
  Forall (fun v => v < 10 ^ (bits dt / 4)) a ->
  exists r, bcd_encode_array dt a = Some (Return (NdArray dt r))
            /\ List.length r = List.length a.
Proof.
  intros E Ha. unfold bcd_encode_array.
  pose proof (loop_fuel_enough a) as F. unfold loop_fuel in *.
  set (f := Z.to_nat (Z.log2 (fold_right Z.max 0 a))) in *.
  cbn [bcd_encode_loop]. rewrite E.
  unfold np_mul. rewrite fits_small by lia. cbn [iadd]. rewrite fits_small by lia.
  destruct (bcd_encode_loop_returns dt f (map (fun v => v / 10) a)
              (map (fun d => cast dt (0 + d)) (products dt (map (fun v => v mod 10) a) 1))
              (1 * 16) 1) as (r & Hrun & Hlen).
  - unfold products. rewrite !length_map. reflexivity.
  - lia.
  - reflexivity.
  - apply Forall_map. eapply Forall_impl; [|exact Ha]. cbn beta. intros b Hb.
    assert (1 <= bits dt / 4) by (destruct dt; vm_compute; discriminate).
    apply Z.div_lt_upper_bound; [lia|].
    replace (bits dt / 4) with (Z.succ (bits dt / 4 - 1)) in Hb by lia.
    rewrite Z.pow_succ_r in Hb by lia. exact Hb.
  - apply Forall_div_fuel; [lia|assumption].
  - exists r. rewrite length_map in Hlen. split; assumption.
Qed.

(** *** Decimal digits that fit a dtype *)

Lemma bcd_pack_scaled (c : Z) (k : nat) : 1 <= c <= 10 ->
  forall n, 0 <= n < c * 10 ^ Z.of_nat k -> bcd_pack n < c * 16 ^ Z.of_nat k.
Proof.
  intros Hc. induction k as [|k IH]; intros n Hn.
  - change (10 ^ Z.of_nat 0) with 1 in Hn. change (16 ^ Z.of_nat 0) with 1.
    rewrite bcd_pack_eq by lia.
    replace (n <? 10) with true by (symmetry; apply Z.ltb_lt; lia). lia.
  - rewrite Nat2Z.inj_succ, Z.pow_succ_r in * by lia.
    rewrite bcd_pack_step by lia.
    assert (Hq : 0 <= n / 10 < c * 10 ^ Z.of_nat k).
    { split; [apply Z.div_pos; lia | apply Z.div_lt_upper_bound; lia]. }
    specialize (IH _ Hq). pose proof (Z.mod_pos_bound n 10). lia.
Qed.

(** The numbers whose BCD encoding is a value of the dtype: those of at
    most [bits dt / 4] decimal digits, the leading one at most 7 when the
    dtype is signed and all its digits are used. *)
Lemma decimal_fits (dt : dtype) (n : Z) :
  0 <= n < (if signed dt then 8 else 10) * 10 ^ (bits dt / 4 - 1) ->
  0 <= n /\ bcd_pack n <= dtype_max dt.
Proof.
  intros Hn. split; [lia|].
  assert (Hk : bits dt / 4 - 1 = Z.of_nat (Z.to_nat (bits dt / 4 - 1)))
    by (destruct dt; reflexivity).
  rewrite Hk in Hn.
  assert (Hc : 1 <= (if signed dt then 8 else 10) <= 10) by (destruct (signed dt); lia).
  pose proof (bcd_pack_scaled _ _ Hc n Hn) as B. rewrite <- Hk in B.
  assert ((if signed dt then 8 else 10) * 16 ^ (bits dt / 4 - 1) <= dtype_max dt + 1)
    by (destruct dt; vm_compute; discriminate).
  lia.
Qed.

(** *** The theorems on the BCD codec *)

Lemma forallb_eqb_all_zero (a : list Z) :
  Forall (fun v => 0 <= v) a -> existsb (fun v => 0 <? v) a = false ->
  forallb (fun v => 0 =? v) a = true.
Proof.
  intros Ha E. pose proof (all_zero a Ha E) as Z0. apply forallb_forall.
  intros v Hv. rewrite Forall_forall in Z0. rewrite (Z0 v Hv). reflexivity.
Qed.

Lemma np_all_eq_refl (dt : dtype) (a : list Z) :
  np_all_eq (NdArray dt a) (NdArray dt a) = true.
Proof.
  cbn. rewrite Nat.eqb_refl. cbn. induction a as [|v a IH]; [reflexivity|].
  cbn. rewrite Z.eqb_refl. exact IH.
Qed.

(** C1: decoding the BCD encoding of a non-negative integer gives the
    integer back.  On the scalar path this holds for every [n >= 0]; on the
    array path for every array, of any signed or unsigned integer dtype,
    whose elements are non-negative and whose BCD encodings are values of
    the dtype: at most [bits dt / 4] decimal digits, the leading one at
    most 7 when the dtype is signed and all its nibbles are used.  The
    result compares equal to the input element by element ([==] broadcasts
    the Python 0 an all-zero array encodes to), and it is the input array
    itself as soon as one element is positive.  The array path packs every
    element as the scalar path does, and unpacks it as the scalar path
    does. *)
Theorem bcd_roundtrip_correct (dt : dtype) (n : Z) (a : list Z) :
  0 <= n ->
  Forall (fun v => 0 <= v < (if signed dt then 8 else 10) * 10 ^ (bits dt / 4 - 1)) a ->
  bcd_roundtrip (PyInt n) = Some (Return (PyInt n))
  /\ (exists r, bcd_roundtrip (NdArray dt a) = Some (Return r)
                /\ np_all_eq r (NdArray dt a) = true
                /\ (existsb (fun v => 0 <? v) a = true -> r = NdArray dt a))
  /\ (forall bcd, bcd_encode (NdArray dt a) = Some (Return (NdArray dt bcd)) ->
        Forall2 (fun v e => bcd_encode (PyInt v) = Some (Return (PyInt e))) a bcd
        /\ bcd_decode (NdArray dt bcd) = Some (Return (NdArray dt a))
        /\ Forall2 (fun e v => bcd_decode (PyInt e) = Some (Return (PyInt v))) bcd a).
Proof.
  intros Hn Ha.
  assert (Hfit : Forall (fun v => 0 <= v /\ bcd_pack v <= dtype_max dt) a).
  { eapply Forall_impl; [|exact Ha]. cbn beta. intros v Hv. apply decimal_fits. exact Hv. }
  assert (Ha0 : Forall (fun v => 0 <= v) a).
  { eapply Forall_impl; [|exact Ha]. cbn beta. intros; lia. }
  assert (Hp0 : Forall (fun v => 0 <= v <= dtype_max dt) (map bcd_pack a)).
  { apply Forall_map. eapply Forall_impl; [|exact Hfit]. cbn beta.
    intros v [H0 H1]. pose proof (bcd_pack_ge v H0). lia. }
  assert (Hpv : forallb bcd_valid (map bcd_pack a) = true).
  { apply forallb_forall. intros e He. apply in_map_iff in He. destruct He as (v & <- & Hv).
    apply bcd_pack_valid. rewrite Forall_forall in Ha0. auto. }
  assert (Hdec : bcd_decode (NdArray dt (map bcd_pack a)) = Some (Return (NdArray dt a))).
  { cbn [bcd_decode]. rewrite bcd_decode_array_valid by assumption.
    cbn [option_map outcome_map]. do 3 f_equal. rewrite map_map.
    rewrite <- (map_id a) at 2. apply map_ext_in. intros v Hv.
    rewrite Forall_forall in Ha0. apply bcd_unpack_pack. auto. }
  assert (Henc : bcd_encode (NdArray dt a)
                 = Some (Return (if existsb (fun v => 0 <? v) a
                                 then NdArray dt (map bcd_pack a) else PyInt 0))).
  { cbn [bcd_encode]. apply bcd_encode_array_spec. assumption. }
  split; [|split].
  - unfold bcd_roundtrip. cbn [bcd_encode bcd_decode].
    rewrite bcd_encode_int_pack by assumption. cbn [outcome_map bcd_decode].
    rewrite bcd_decode_int_unpack by (pose proof (bcd_pack_ge n Hn); lia).
    rewrite bcd_pack_valid, bcd_unpack_pack by assumption. reflexivity.
  - unfold bcd_roundtrip. rewrite Henc.
    destruct (existsb (fun v => 0 <? v) a) eqn:E.
    + exists (NdArray dt a). split; [exact Hdec|]. split; [apply np_all_eq_refl | reflexivity].
    + exists (PyInt 0). split; [reflexivity|]. split; [|discriminate].
      cbn [np_all_eq]. apply forallb_eqb_all_zero; assumption.
  - intros bcd Hb. rewrite Henc in Hb.
    destruct (existsb (fun v => 0 <? v) a); [|discriminate].
    injection Hb as <-. split; [|split].
    + clear Hdec Hpv Hp0 Hfit Henc Ha. induction Ha0 as [|v a Hv _ IH]; constructor; [|exact IH].
      cbn [bcd_encode]. rewrite bcd_encode_int_pack by assumption. reflexivity.
    + exact Hdec.
    + clear Hdec Hpv Hp0 Hfit Henc Ha. induction Ha0 as [|v a Hv _ IH]; constructor; [|exact IH].
      cbn [bcd_decode]. rewrite bcd_decode_int_unpack by (pose proof (bcd_pack_ge v Hv); lia).
      rewrite bcd_pack_valid, bcd_unpack_pack by assumption. reflexivity.
Qed.

Lemma bcd_roundtrip_correct_witness :
  bcd_roundtrip (PyInt 19801) = Some (Return (PyInt 19801))
  /\ bcd_roundtrip (NdArray uint32 [821; 0; 19801])
     = Some (Return (NdArray uint32 [821; 0; 19801]))
  /\ bcd_roundtrip (NdArray int64 [7999999999999999; 365])
     = Some (Return (NdArray int64 [7999999999999999; 365])).
Proof.
  assert (Hn : 0 <= 19801) by lia.
  assert (Ha : Forall (fun v => 0 <= v < (if signed uint32 then 8 else 10)
                                         * 10 ^ (bits uint32 / 4 - 1))
                 [821; 0; 19801]).
  { repeat constructor; vm_compute; congruence. }
  assert (Hb : Forall (fun v => 0 <= v < (if signed int64 then 8 else 10)
                                         * 10 ^ (bits int64 / 4 - 1))
                 [7999999999999999; 365]).
  { repeat constructor; vm_compute; congruence. }
  destruct (bcd_roundtrip_correct uint32 19801 [821; 0; 19801] Hn Ha)
    as (H1 & (r & Hr & _ & Hpos) & _).
  destruct (bcd_roundtrip_correct int64 19801 [7999999999999999; 365] Hn Hb)
    as (_ & (r' & Hr' & _ & Hpos') & _).
  split; [exact H1|]. split.
  - rewrite Hr, (Hpos eq_refl). reflexivity.
  - rewrite Hr', (Hpos' eq_refl). reflexivity.
Defined.

(** In a signed 64-bit array the sixteen digits of 9000000000000000 fit the
    sixteen nibbles of the word, but the leading nibble 9 sets the sign
    bit: the encoding is negative, the decoding loop has nothing positive
    to consume, and the round trip gives 0. *)
Lemma bcd_roundtrip_signed_counterexample :
  ~ (forall (dt : dtype) (a : list Z),
       Forall (fun v => 0 <= v < 10 ^ (bits dt / 4)) a ->
       exists r, bcd_roundtrip (NdArray dt a) = Some (Return r)
                 /\ np_all_eq r (NdArray dt a) = true).
Proof.
  intros H.
  destruct (H int64 [9000000000000000]) as (r & Hr & Heq).
  { repeat constructor; vm_compute; congruence. }
  vm_compute in Hr. injection Hr as <-. vm_compute in Heq. discriminate.
Qed.

Lemma forallb_false_elim (p : Z -> bool) (a : list Z) :
  forallb p a = false -> exists v, In v a /\ p v = false.
Proof.
  induction a as [|x a IH]; [discriminate|]. cbn [forallb].
  destruct (p x) eqn:E.
  - intros H. destruct (IH H) as (v & Hv & Hp). exists v. split; [right|]; assumption.
  - intros _. exists x. split; [left; reflexivity | assumption].
Qed.

Lemma invalid_iff (a : list Z) : Forall (fun v => 0 <= v) a ->
  forallb bcd_valid a = false <-> exists v k, In v a /\ 9 < nibble k v.
Proof.
  intros Ha. rewrite Forall_forall in Ha. split.
  - intros H. destruct (forallb_false_elim _ a H) as (v & Hv & E).
    apply bcd_invalid_nibble in E; [|auto]. destruct E as [k Hk]. eauto.
  - intros (v & k & Hv & Hk). destruct (forallb bcd_valid a) eqn:E; [|reflexivity].
    rewrite forallb_forall in E. specialize (E v Hv).
    pose proof (proj1 (bcd_valid_nibbles v (Ha v Hv)) E k). lia.
Qed.

Lemma first_position (p : nat -> bool) : forall k : nat, p k = true ->
  exists j : nat, p j = true /\ forall i : nat, (i < j)%nat -> p i = false.
Proof.
  induction k as [k IH] using (well_founded_induction lt_wf). intros Hk.
  destruct (existsb p (seq 0 k)) eqn:E.
  - apply existsb_exists in E. destruct E as (i & Hi & Hp). apply in_seq in Hi.
    apply (IH i); [lia | exact Hp].
  - exists k. split; [exact Hk|]. intros i Hi.
    destruct (p i) eqn:Hp; [|reflexivity]. rewrite <- E. symmetry.
    apply existsb_exists. exists i. split; [apply in_seq; lia | exact Hp].
Qed.

Lemma typed_nonneg (value : Py.value) :
  well_typed value -> Forall (fun v => 0 <= v) (elements value) ->
  match value with
  | PyInt _ => True
  | NdArray dt a => Forall (fun v => 0 <= v <= dtype_max dt) a
  end.
Proof.
  destruct value as [n|dt a]; [trivial|]. cbn [well_typed elements].
  intros Ht Ha. rewrite Forall_forall in *. intros v Hv.
  specialize (Ht v Hv). specialize (Ha v Hv). unfold in_range in Ht. lia.
Qed.

(** Either every element is a BCD value and [bcd_decode] returns, or it
    raises, reporting the element described in [bcd_decode_loop_invalid]. *)
Lemma bcd_decode_cases (value : Py.value) :
  well_typed value ->
  Forall (fun v => 0 <= v) (elements value) ->
  (forallb bcd_valid (elements value) = true
   /\ exists r, bcd_decode value = Some (Return r))
  \/ (forallb bcd_valid (elements value) = false
      /\ exists x j,
           bcd_decode value = Some (Raise (InvalidBCD x))
           /\ find (fun v => 9 <? nibble j v) (elements value) = Some x
           /\ (forall v i, In v (elements value) -> (i < j)%nat -> nibble i v <= 9)).
Proof.
  intros Ht Ha. pose proof (typed_nonneg value Ht Ha) as Hr.
  destruct (forallb bcd_valid (elements value)) eqn:E; [left|right];
    (split; [reflexivity|]).
  - destruct value as [n|dt a]; cbn [elements] in *.
    + inversion Ha; subst. cbn [forallb] in E. rewrite andb_true_r in E.
      cbn [bcd_decode]. rewrite bcd_decode_int_unpack, E by assumption.
      cbn [outcome_map]. eauto.
    + cbn [bcd_decode]. rewrite bcd_decode_array_valid by assumption. cbn. eauto.
  - destruct value as [n|dt a]; cbn [elements] in *.
    + inversion Ha; subst. cbn [forallb] in E. rewrite andb_true_r in E.
      apply bcd_invalid_nibble in E; [|assumption]. destruct E as [k0 Hk0].
      assert (Hex : exists k : nat, 9 < nibble k n) by eauto.
      destruct (first_position (fun k => 9 <? nibble k n) k0
                  ltac:(apply Z.ltb_lt; exact Hk0)) as (j & Hj & Hlow).
      exists n, j. cbn [bcd_decode]. rewrite bcd_decode_int_unpack by assumption.
      replace (bcd_valid n) with false.
      2:{ symmetry. apply bcd_invalid_nibble; [assumption|]. eauto. }
      split; [reflexivity|]. split.
      * cbn [find]. rewrite Hj. reflexivity.
      * intros v i [<-|[]] Hi. specialize (Hlow i Hi). apply Z.ltb_ge in Hlow. exact Hlow.
    + destruct (bcd_decode_array_invalid dt a Hr E) as (x & j & Hrun & Hfind & Hlow).
      exists x, j. split; [|split; assumption].
      cbn [bcd_decode]. rewrite Hrun. reflexivity.
Qed.

(** C5, for non-negative input (an array holding values of its dtype,
    signed or unsigned): [bcd_decode] returns or raises; it raises if and
    only if some hexadecimal nibble of some element exceeds 9, that is if
    and only if the scalar path raises on some element; and the error
    carries the raw value of an element of the input, namely the first one
    in array order among the elements whose nibble exceeds 9 at the lowest
    position [j] at which any element's nibble does. *)
Theorem bcd_decode_errors (value : Py.value) :
  well_typed value ->
  Forall (fun v => 0 <= v) (elements value) ->
  (exists r, bcd_decode value = Some r)
  /\ ((exists e, bcd_decode value = Some (Raise e))
      <-> (exists v k, In v (elements value) /\ 9 < nibble k v))
  /\ ((exists e, bcd_decode value = Some (Raise e))
      <-> (exists v e, In v (elements value) /\ bcd_decode (PyInt v) = Some (Raise e)))
  /\ (forall e, bcd_decode value = Some (Raise e) ->
        exists x j,
          e = InvalidBCD x /\ In x (elements value) /\ 9 < nibble j x
          /\ find (fun v => 9 <? nibble j v) (elements value) = Some x
          /\ (forall v i, In v (elements value) -> (i < j)%nat -> nibble i v <= 9)).
Proof.
  intros Ht Ha. pose proof (invalid_iff _ Ha) as Hiff.
  assert (Hscalar : forall v, In v (elements value) ->
            ((exists e, bcd_decode (PyInt v) = Some (Raise e)) <-> bcd_valid v = false)).
  { intros v Hv. rewrite Forall_forall in Ha. cbn [bcd_decode].
    rewrite bcd_decode_int_unpack by auto. destruct (bcd_valid v); cbn [outcome_map].
    - split; [intros [e He]; discriminate | discriminate].
    - split; [reflexivity | eauto]. }
  destruct (bcd_decode_cases value Ht Ha)
    as [[Hv [r Hr]] | [Hv (x & j & Hrun & Hfind & Hlow)]].
  - split; [eauto|]. split; [|split].
    + rewrite <- Hiff, Hv, Hr. split; [intros [e He]; discriminate | discriminate].
    + rewrite Hr. split; [intros [e He]; discriminate|].
      intros (v & e & Hin & He). rewrite forallb_forall in Hv.
      assert (bcd_valid v = false) by (apply Hscalar; eauto).
      rewrite Hv in H by assumption. discriminate.
    + intros e He. rewrite Hr in He. discriminate.
  - split; [eauto|]. split; [|split].
    + rewrite <- Hiff. split; eauto.
    + split; [intros _ | eauto].
      destruct (forallb_false_elim _ _ Hv) as (v & Hin & Hbad).
      apply (Hscalar v Hin) in Hbad. destruct Hbad as [e He]. eauto.
    + intros e He. rewrite Hrun in He. injection He as <-.
      exists x, j. destruct (find_some _ _ Hfind) as [Hin Hx].
      apply Z.ltb_lt in Hx. auto 10.
Qed.

Lemma bcd_decode_errors_witness :
  exists x, bcd_decode (NdArray uint8 [0x12; 0xA0; 0x0B; 0x1C]) = Some (Raise (InvalidBCD x)).
Proof.
  assert (Ht : well_typed (NdArray uint8 [0x12; 0xA0; 0x0B; 0x1C])).
  { repeat constructor; vm_compute; congruence. }
  assert (Ha : Forall (fun v => 0 <= v) (elements (NdArray uint8 [0x12; 0xA0; 0x0B; 0x1C]))).
  { repeat constructor; vm_compute; congruence. }
  destruct (bcd_decode_errors (NdArray uint8 [0x12; 0xA0; 0x0B; 0x1C]) Ht Ha)
    as (_ & Hiff & _ & Hrep).
  destruct (proj2 Hiff) as [e He].
  { exists 0xA0, 1%nat. split; [right; left; reflexivity | vm_compute; reflexivity]. }
  destruct (Hrep e He) as (x & _ & -> & _). exists x. exact He.
Defined.

(** The element reported for [[0xA0; 0x0B]] is [0x0B], the second one, while
    the first element that is not a BCD value is [0xA0]. *)
Lemma bcd_decode_first_offending_counterexample :
  ~ (forall x, bcd_decode (NdArray uint8 [0xA0; 0x0B]) = Some (Raise (InvalidBCD x)) ->
               first_offending [0xA0; 0x0B] = Some x).
Proof.
  intros H. specialize (H 0x0B eq_refl). vm_compute in H. discriminate.
Qed.

(** C10: [bcd_encode] of an array whose elements are all zero returns the
    Python [int] 0 and not an array; of an array with a positive element,
    all of whose elements have at most [bits dt / 4] decimal digits, it
    returns an array of the input's length and dtype. *)
Theorem bcd_encode_zero_array_scalar (dt : dtype) (a : list Z) :
  (Forall (fun v => v = 0) a -> bcd_encode (NdArray dt a) = Some (Return (PyInt 0)))
  /\ (Exists (fun v => 0 < v) a ->
      Forall (fun v => v < 10 ^ (bits dt / 4)) a ->
      exists r, bcd_encode (NdArray dt a) = Some (Return (NdArray dt r))
                /\ List.length r = List.length a).
Proof.
  split.
  - intros Hz. cbn [bcd_encode]. unfold bcd_encode_array, loop_fuel.
    cbn [bcd_encode_loop].
    replace (existsb (fun v => 0 <? v) a) with false; [reflexivity|].
    symmetry. induction Hz as [|v a -> _ IH]; [reflexivity|]. cbn. exact IH.
  - intros Hpos Hd. cbn [bcd_encode]. apply bcd_encode_array_returns; [|exact Hd].
    apply existsb_exists. apply Exists_exists in Hpos.
    destruct Hpos as (v & Hin & Hv). exists v. split; [assumption|]. apply Z.ltb_lt. lia.
Qed.

Lemma bcd_encode_zero_array_scalar_witness :
  bcd_encode (NdArray uint32 [0; 0; 0]) = Some (Return (PyInt 0))
  /\ exists r, bcd_encode (NdArray int16 [0; 1234; -5]) = Some (Return (NdArray int16 r))
               /\ List.length r = 3%nat.
Proof.
  split.
  - apply (proj1 (bcd_encode_zero_array_scalar uint32 [0; 0; 0])).
    repeat constructor.
  - apply (proj2 (bcd_encode_zero_array_scalar int16 [0; 1234; -5])).
    + apply Exists_cons_tl. apply Exists_cons_hd. lia.
    + repeat constructor; vm_compute; reflexivity.
Defined.

(** An unsigned 64-bit array holds [10 ^ 16], a number of seventeen digits:
    on the seventeenth turn the factor is [16 ^ 16 = 2 ^ 64], which is not
    a value of the dtype, and the call raises instead of returning an
    array. *)
Lemma bcd_encode_overflow_counterexample :
  ~ (forall (dt : dtype) (a : list Z),
       well_typed (NdArray dt a) -> Exists (fun v => 0 < v) a ->
       exists r, bcd_encode (NdArray dt a) = Some (Return (NdArray dt r))
                 /\ List.length r = List.length a).
Proof.
  intros H. destruct (H uint64 [10 ^ 16]) as (r & Hr & _).
  - repeat constructor; vm_compute; congruence.
  - apply Exists_cons_hd. reflexivity.
  - vm_compute in Hr. discriminate.
Qed.

(** *** The polynomial bits *)

Lemma traverse_digit_chars (ds : list Z) :
  Forall (fun d => 0 <= d < 10) ds ->
  traverse (fun bit => int_of_string 10 (String bit EmptyString)) (map digit_char ds)
  = Some ds.
Proof.
  intros H. induction H as [|d ds Hd _ IH]; [reflexivity|].
  cbn [map traverse]. rewrite IH.
  unfold int_of_string. cbn [list_ascii_of_string].
  rewrite digit_char_not_minus by lia.
  unfold int_digits. cbn [fold_left]. rewrite char_digit_digit_char by lia.
  replace (d <? 10) with true by (symmetry; apply Z.ltb_lt; lia).
  reflexivity.
Qed.

Lemma CRC_init_bits (p : Z) : 0 <= p ->
  CRC_init p = Return (mkCRC p (rev (digits 2 p))).
Proof.
  intros Hp. unfold CRC_init, format_base.
  rewrite list_ascii_of_string_of_list_ascii.
  replace (p <? 0) with false by (symmetry; apply Z.ltb_ge; lia).
  rewrite Z.abs_eq by assumption. cbn [app].
  rewrite traverse_digit_chars; [reflexivity|].
  apply Forall_rev. eapply Forall_impl; [|apply (digits_range 2 p); lia].
  cbn beta. intros; lia.
Qed.

Lemma CRC_init_negative (p : Z) : p < 0 -> CRC_init p = Raise IntParseError.
Proof.
  intros Hp. unfold CRC_init, format_base.
  rewrite list_ascii_of_string_of_list_ascii.
  replace (p <? 0) with true by (symmetry; apply Z.ltb_lt; lia).
  reflexivity.
Qed.

Lemma digits2_length (p : Z) : 1 <= p ->
  List.length (digits 2 p) = S (Z.to_nat (Z.log2 p)).
Proof.
  revert p. assert (G : forall p, 0 <= p -> 1 <= p ->
    List.length (digits 2 p) = S (Z.to_nat (Z.log2 p))).
  { apply (Z_strong_ind (fun p => 1 <= p -> List.length (digits 2 p) = S (Z.to_nat (Z.log2 p)))).
    intros p Hp IH H1. rewrite digits_eq by lia.
    destruct (p <? 2) eqn:E.
    - apply Z.ltb_lt in E. assert (p = 1) by lia. subst. reflexivity.
    - apply Z.ltb_ge in E. cbn [List.length]. rewrite IH.
      + f_equal. rewrite <- Z.div2_div, Z.div2_spec, Z.log2_shiftr by lia.
        assert (1 <= Z.log2 p) by (apply Z.log2_le_pow2; simpl; lia). lia.
      + split; [apply Z.div_pos; lia | apply Z.div_lt; lia].
      + apply Z.div_le_lower_bound; lia. }
  intros p Hp. apply G; lia.
Qed.

Lemma digits2_nth (p : Z) : 0 <= p -> forall k : nat,
  nth k (digits 2 p) 0 = Z.b2z (Z.testbit p (Z.of_nat k)).
Proof.
  revert p. apply (Z_strong_ind (fun p => forall k : nat,
    nth k (digits 2 p) 0 = Z.b2z (Z.testbit p (Z.of_nat k)))).
  intros p Hp IH k. rewrite digits_eq by lia.
  destruct (p <? 2) eqn:E.
  - apply Z.ltb_lt in E. assert (p = 0 \/ p = 1) as [-> | ->] by lia.
    + rewrite Z.testbit_0_l. destruct k as [|[|k]]; reflexivity.
    + destruct k as [|k]; [reflexivity|].
      replace (Z.testbit 1 (Z.of_nat (S k))) with false.
      * destruct k; reflexivity.
      * symmetry. apply Z.bits_above_log2; cbn; lia.
  - apply Z.ltb_ge in E. destruct k as [|k].
    + cbn [nth]. change (Z.of_nat 0) with 0. rewrite Z.bit0_mod. reflexivity.
    + cbn [nth]. rewrite IH.
      * rewrite Nat2Z.inj_succ. rewrite <- Z.div2_div, Z.div2_spec.
        rewrite Z.shiftr_spec by lia. f_equal; try f_equal; lia.
      * split; [apply Z.div_pos; lia | apply Z.div_lt; lia].
Qed.

Lemma digits2_bits (p : Z) : 0 <= p -> Forall (fun b => b = 0 \/ b = 1) (digits 2 p).
Proof.
  intros Hp. eapply Forall_impl; [|apply (digits_range 2 p); lia].
  cbn beta. intros; lia.
Qed.

(** *** The in-place XOR, position by position *)

Lemma ixor_length (m : list Z) : forall s, List.length (ixor m s) = List.length s.
Proof.
  induction m as [|x m IH]; intros [|y s]; cbn; auto.
Qed.

Lemma ixor_nth (m : list Z) : forall s q, (q < List.length s)%nat ->
  nth q (ixor m s) 0 = Z.lxor (nth q s 0) (nth q m 0).
Proof.
  induction m as [|x m IH]; intros [|y s] q Hq; cbn in Hq; try lia.
  - cbn. destruct q; rewrite Z.lxor_0_r; reflexivity.
  - cbn [ixor]. destruct q as [|q]; [reflexivity|]. cbn [nth]. apply IH. lia.
Qed.

Lemma ixor_slice_length (m : list Z) : forall i s,
  List.length (ixor_slice s i m) = List.length s.
Proof.
  induction i as [|i IH]; intros [|y s]; cbn [ixor_slice]; auto using ixor_length.
  cbn. f_equal. apply IH.
Qed.

Lemma ixor_slice_nth (m : list Z) : forall i s q, (q < List.length s)%nat ->
  nth q (ixor_slice s i m) 0
  = Z.lxor (nth q s 0) (if (i <=? q)%nat then nth (q - i) m 0 else 0).
Proof.
  induction i as [|i IH]; intros s q Hq.
  - cbn [ixor_slice]. destruct s; cbn [Nat.leb]; rewrite Nat.sub_0_r; apply ixor_nth; assumption.
  - destruct s as [|y s]; [cbn in Hq; lia|]. cbn [ixor_slice].
    destruct q as [|q].
    + cbn. rewrite Z.lxor_0_r. reflexivity.
    + cbn [nth]. cbn in Hq. rewrite IH by lia. reflexivity.
Qed.

Lemma crc_step_length (pb s : list Z) (i : nat) :
  List.length (crc_step pb s i) = List.length s.
Proof. apply ixor_slice_length. Qed.

Lemma nth_map_land (pb : list Z) (x : Z) (k : nat) :
  nth k (map (fun m => Z.land m x) pb) 0 = Z.land (nth k pb 0) x.
Proof.
  change 0 with (Z.land 0 x) at 1. apply (map_nth (fun m => Z.land m x)).
Qed.

Lemma crc_step_nth (pb s : list Z) (i q : nat) : (q < List.length s)%nat ->
  nth q (crc_step pb s i) 0
  = Z.lxor (nth q s 0)
      (if (i <=? q)%nat then Z.land (nth (q - i) pb 0) (nth i s 0) else 0).
Proof.
  intros Hq. unfold crc_step. rewrite ixor_slice_nth by assumption.
  destruct (i <=? q)%nat; [|reflexivity]. rewrite nth_map_land. reflexivity.
Qed.

Lemma crc_fold_length (pb : list Z) (idx : list nat) : forall s,
  List.length (fold_left (crc_step pb) idx s) = List.length s.
Proof.
  induction idx as [|i idx IH]; intros s; [reflexivity|].
  cbn [fold_left]. rewrite IH. apply crc_step_length.
Qed.

(** The window of turn [i] lies inside the stream. *)
Lemma crc_window_in_range (w : Z) (self : CRC) (stream : list Z) (i : nat) :
  In i (seq 0 (Z.to_nat (Z.of_nat (List.length stream) - CRC_len self))) ->
  (i + List.length (map (fun b => wrap w (- b)) (pol_bin self)) <= List.length stream)%nat.
Proof.
  rewrite in_seq, length_map. unfold CRC_len. lia.
Qed.

(** *** Bit lanes *)

Lemma b2z_lxor (a b : bool) : Z.b2z (xorb a b) = Z.lxor (Z.b2z a) (Z.b2z b).
Proof. destruct a, b; reflexivity. Qed.

Lemma b2z_land (a b : bool) : Z.b2z (a && b) = Z.land (Z.b2z a) (Z.b2z b).
Proof. destruct a, b; reflexivity. Qed.

Lemma lane_length (j : Z) (s : list Z) : List.length (lane j s) = List.length s.
Proof. apply length_map. Qed.

Lemma lane_nth (j : Z) (s : list Z) (q : nat) :
  nth q (lane j s) 0 = Z.b2z (Z.testbit (nth q s 0) j).
Proof.
  unfold lane.
  rewrite <- (map_nth (fun x => Z.b2z (Z.testbit x j))).
  rewrite Z.testbit_0_l. reflexivity.
Qed.

Lemma mask_bit (w j b : Z) : 0 <= j < w -> b = 0 \/ b = 1 ->
  Z.testbit (wrap w (- b)) j = (b =? 1).
Proof.
  intros Hj [-> | ->]; unfold wrap.
  - change (- 0) with 0. rewrite Zmod_0_l. apply Z.testbit_0_l.
  - rewrite Z.mod_pow2_bits_low by lia. change (- (1)) with (-1).
    rewrite Z.bits_m1 by lia. reflexivity.
Qed.

Lemma bit_b2z (b : Z) : b = 0 \/ b = 1 -> Z.b2z (b =? 1) = b.
Proof. intros [-> | ->]; reflexivity. Qed.

Lemma mask_nth (w : Z) (bits : list Z) (k : nat) :
  nth k (map (fun b => wrap w (- b)) bits) 0 = wrap w (- nth k bits 0).
Proof.
  rewrite <- (map_nth (fun b => wrap w (- b))).
  f_equal; unfold wrap; change (- 0) with 0; symmetry; apply Zmod_0_l.
Qed.

Lemma nth_bit (bits : list Z) (k : nat) :
  Forall (fun b => b = 0 \/ b = 1) bits -> nth k bits 0 = 0 \/ nth k bits 0 = 1.
Proof.
  intros H. destruct (Nat.lt_ge_cases k (List.length bits)) as [L|L].
  - rewrite Forall_forall in H. apply H. apply nth_In. assumption.
  - left. apply nth_overflow. assumption.
Qed.

Section Lanes.
Variables (w j : Z) (bits : list Z).
Hypothesis Hj : 0 <= j < w.
Hypothesis Hbits : Forall (fun b => b = 0 \/ b = 1) bits.

Let pbw := map (fun b => wrap w (- b)) bits.
Let pb1 := map (fun b => wrap 1 (- b)) bits.

Lemma lane_step (s : list Z) (i : nat) :
  lane j (crc_step pbw s i) = crc_step pb1 (lane j s) i.
Proof.
  apply (nth_ext _ _ 0 0).
  - rewrite lane_length, !crc_step_length, lane_length. reflexivity.
  - intros q Hq. rewrite lane_length, crc_step_length in Hq.
    rewrite lane_nth, !crc_step_nth by (rewrite ?lane_length; assumption).
    rewrite Z.lxor_spec, b2z_lxor, !lane_nth. f_equal.
    destruct (i <=? q)%nat; [|rewrite Z.testbit_0_l; reflexivity].
    rewrite Z.land_spec, b2z_land. f_equal.
    subst pbw pb1. rewrite !mask_nth.
    pose proof (nth_bit bits (q - i) Hbits) as B.
    rewrite mask_bit by assumption.
    rewrite bit_b2z by assumption.
    destruct B as [-> | ->]; reflexivity.
Qed.

Lemma lane_fold (idx : list nat) : forall s,
  lane j (fold_left (crc_step pbw) idx s) = fold_left (crc_step pb1) idx (lane j s).
Proof.
  induction idx as [|i idx IH]; intros s; [reflexivity|].
  cbn [fold_left]. rewrite IH, lane_step. reflexivity.
Qed.
End Lanes.

Lemma lane_skipn (j : Z) (n : nat) (s : list Z) : lane j (skipn n s) = skipn n (lane j s).
Proof. unfold lane. symmetry. apply skipn_map. Qed.

Lemma lane_slice (j start : Z) (s : list Z) :
  lane j (py_slice_from start s) = py_slice_from start (lane j s).
Proof. unfold py_slice_from. rewrite lane_length. apply lane_skipn. Qed.

(** Lane [j] of [_crc] on words is [_crc] on lane [j]. *)
Lemma lane_crc (w j : Z) (self : CRC) (stream : list Z) :
  0 <= j < w -> Forall (fun b => b = 0 \/ b = 1) (pol_bin self) ->
  lane j (_crc w self stream) = _crc 1 self (lane j stream).
Proof.
  intros Hj Hb. unfold _crc, crc_divide. rewrite lane_slice, lane_length.
  rewrite (lane_fold w j (pol_bin self) Hj Hb). reflexivity.
Qed.

Lemma pol_bin_bits (p : Z) (crc : CRC) :
  CRC_init p = Return crc -> Forall (fun b => b = 0 \/ b = 1) (pol_bin crc).
Proof.
  intros H. destruct (Z.lt_ge_cases p 0) as [N|N].
  - rewrite CRC_init_negative in H by assumption. discriminate.
  - rewrite CRC_init_bits in H by assumption. injection H as <-. cbn [pol_bin].
    apply Forall_rev. apply digits2_bits. assumption.
Qed.

(** C4: bit lane [j] of the CRC of a stream of [w]-bit words is the CRC of
    the stream made of bit [j] of every word. *)
Theorem crc_lanes_independent (w j p : Z) (crc : CRC) (stream : list Z) :
  CRC_init p = Return crc -> 0 <= j < w ->
  lane j (CRC_call w crc stream) = CRC_call 1 crc (lane j stream).
Proof.
  intros Hinit Hj. unfold CRC_call.
  rewrite lane_crc by eauto using pol_bin_bits.
  f_equal. unfold lane. rewrite map_app, map_repeat, Z.testbit_0_l. reflexivity.
Qed.

Lemma crc_lanes_independent_witness :
  match CRC_init 0x180f with
  | Return crc =>
      lane 1 (CRC_call 64 crc [3; 0; 2; 1; 3]) = CRC_call 1 crc [1; 0; 1; 0; 1]
  | Raise _ => False
  end.
Proof.
  destruct (CRC_init 0x180f) as [crc|e] eqn:E.
  - apply (crc_lanes_independent 64 1 0x180f crc [3; 0; 2; 1; 3] E). lia.
  - vm_compute in E. discriminate.
Defined.

(** *** The code against the long division of the format description *)

Import LongDivision.

Lemma check_length_log2 (p : Z) : 1 <= p -> check_length p = Z.to_nat (Z.log2 p).
Proof.
  intros Hp. unfold check_length, bitlength.
  replace (p =? 0) with false by (symmetry; apply Z.eqb_neq; lia).
  f_equal. lia.
Qed.

Lemma poly_bits_length (p : Z) : List.length (poly_bits p) = S (check_length p).
Proof. unfold poly_bits. rewrite length_map, length_seq. reflexivity. Qed.

Lemma pol_bin_poly_bits (p : Z) : 1 <= p ->
  rev (digits 2 p) = map Z.b2z (poly_bits p).
Proof.
  intros Hp. pose proof (check_length_log2 p Hp) as Hk.
  pose proof (digits2_length p Hp) as Hl. rewrite <- Hk in Hl.
  apply (nth_ext _ _ 0 0).
  - rewrite length_rev, length_map, poly_bits_length. assumption.
  - intros q Hq. rewrite length_rev, Hl in Hq.
    rewrite rev_nth by lia. rewrite Hl, digits2_nth by lia.
    change (nth q (map Z.b2z (poly_bits p)) 0)
      with (nth q (map Z.b2z (poly_bits p)) (Z.b2z false)).
    rewrite map_nth. f_equal. unfold poly_bits.
    set (g := fun k : nat => Z.testbit p (Z.of_nat (check_length p - k))).
    rewrite (nth_indep _ false (g O)) by (rewrite length_map, length_seq; lia).
    rewrite map_nth, seq_nth by lia. subst g. cbn beta. f_equal; lia.
Qed.

Lemma CRC_init_poly (p : Z) (crc : CRC) : 1 <= p -> CRC_init p = Return crc ->
  pol_bin crc = map Z.b2z (poly_bits p) /\ CRC_len crc = Z.of_nat (check_length p).
Proof.
  intros Hp H. rewrite CRC_init_bits in H by lia. injection H as <-.
  unfold CRC_len. cbn [pol_bin]. rewrite pol_bin_poly_bits by assumption.
  split; [reflexivity|]. rewrite length_map, poly_bits_length. lia.
Qed.

Lemma xor_window_S (i : nat) (pol : list bool) (x : bool) (s : list bool) :
  xor_window (S i) pol (x :: s) = x :: xor_window i pol s.
Proof. reflexivity. Qed.

Lemma xor_window_0 (pol : list bool) : forall s, (List.length pol <= List.length s)%nat ->
  map Z.b2z (xor_window 0 pol s) = ixor (map Z.b2z pol) (map Z.b2z s).
Proof.
  unfold xor_window. cbn [firstn skipn app Nat.add].
  induction pol as [|c pol IH]; intros s L.
  - reflexivity.
  - destruct s as [|y s]; [cbn in L; lia|].
    cbn [List.length firstn combine map skipn app ixor fst snd].
    rewrite b2z_lxor. f_equal. apply IH. cbn in L. lia.
Qed.

Lemma xor_window_ixor_slice (pol : list bool) : forall i s,
  (i + List.length pol <= List.length s)%nat ->
  map Z.b2z (xor_window i pol s) = ixor_slice (map Z.b2z s) i (map Z.b2z pol).
Proof.
  induction i as [|i IH]; intros s L.
  - rewrite xor_window_0 by lia. destruct s; reflexivity.
  - destruct s as [|y s]; [cbn in L; lia|].
    rewrite xor_window_S. cbn [map ixor_slice]. f_equal. apply IH. cbn in L. lia.
Qed.

Lemma xor_window_length (pol : list bool) (i : nat) (s : list bool) :
  (i + List.length pol <= List.length s)%nat ->
  List.length (xor_window i pol s) = List.length s.
Proof.
  intros L. rewrite <- (length_map Z.b2z), xor_window_ixor_slice by assumption.
  rewrite ixor_slice_length. apply length_map.
Qed.

Lemma ixor_zeros (m : list Z) : forall s, ixor (map (fun _ => 0) m) s = s.
Proof.
  induction m as [|x m IH]; intros [|y s]; cbn; try reflexivity.
  rewrite Z.lxor_0_r, IH. reflexivity.
Qed.

Lemma ixor_slice_zeros (m : list Z) : forall i s, ixor_slice s i (map (fun _ => 0) m) = s.
Proof.
  induction i as [|i IH]; intros [|y s]; cbn [ixor_slice]; try apply ixor_zeros; [reflexivity|].
  rewrite IH. reflexivity.
Qed.

Lemma mask_bool (bits : list Z) : Forall (fun b => b = 0 \/ b = 1) bits ->
  map (fun b => wrap 1 (- b)) bits = bits.
Proof.
  intros H. rewrite <- (map_id bits) at 2. apply map_ext_in. intros b Hb.
  rewrite Forall_forall in H. destruct (H b Hb) as [-> | ->]; reflexivity.
Qed.

Lemma b2z_bits (l : list bool) : Forall (fun b => b = 0 \/ b = 1) (map Z.b2z l).
Proof. apply Forall_map. apply Forall_forall. intros [|] _; auto. Qed.

Lemma step_long_division (pol s : list bool) (i : nat) :
  (i + List.length pol <= List.length s)%nat ->
  crc_step (map Z.b2z pol) (map Z.b2z s) i
  = map Z.b2z (if nth i s false then xor_window i pol s else s).
Proof.
  intros L. unfold crc_step.
  change (nth i (map Z.b2z s) 0) with (nth i (map Z.b2z s) (Z.b2z false)).
  rewrite (map_nth Z.b2z s false i).
  destruct (nth i s false).
  - rewrite xor_window_ixor_slice by assumption. f_equal.
    rewrite <- (map_id (map Z.b2z pol)) at 2. apply map_ext_in. intros b Hb.
    pose proof (b2z_bits pol) as B. rewrite Forall_forall in B.
    destruct (B b Hb) as [-> | ->]; reflexivity.
  - cbn [Z.b2z]. rewrite <- (ixor_slice_zeros (map Z.b2z pol) i (map Z.b2z s)) at 2.
    f_equal. apply map_ext. intros b. apply Z.land_0_r.
Qed.

Lemma fold_long_division (pol : list bool) (idx : list nat) : forall s,
  (forall i, In i idx -> (i + List.length pol <= List.length s)%nat) ->
  fold_left (crc_step (map Z.b2z pol)) idx (map Z.b2z s)
  = map Z.b2z
      (fold_left (fun s i => if nth i s false then xor_window i pol s else s) idx s).
Proof.
  induction idx as [|i idx IH]; intros s H; [reflexivity|].
  cbn [fold_left]. rewrite step_long_division by (apply H; left; reflexivity).
  apply IH. intros i' Hi'.
  replace (List.length (if nth i s false then xor_window i pol s else s)) with (List.length s).
  - apply H. right. assumption.
  - destruct (nth i s false); [|reflexivity]. symmetry. apply xor_window_length.
    apply H. left. reflexivity.
Qed.

Lemma crc_divide_long_division (p : Z) (crc : CRC) (bits : list bool) :
  1 <= p -> CRC_init p = Return crc ->
  crc_divide 1 crc (map Z.b2z bits) = map Z.b2z (divide p bits).
Proof.
  intros Hp Hinit. destruct (CRC_init_poly p crc Hp Hinit) as [Hpol Hlen].
  unfold crc_divide, divide. rewrite Hlen, length_map.
  rewrite mask_bool by (rewrite Hpol; apply b2z_bits). rewrite Hpol.
  replace (Z.to_nat (Z.of_nat (List.length bits) - Z.of_nat (check_length p)))
    with (List.length bits - check_length p)%nat by lia.
  apply fold_long_division. intros i Hi. apply in_seq in Hi.
  rewrite poly_bits_length. lia.
Qed.

Lemma divide_length (p : Z) (crc : CRC) (bits : list bool) :
  1 <= p -> CRC_init p = Return crc ->
  List.length (divide p bits) = List.length bits.
Proof.
  intros Hp Hinit. rewrite <- (length_map Z.b2z).
  rewrite <- (crc_divide_long_division p crc) by assumption.
  unfold crc_divide. rewrite crc_fold_length. apply length_map.
Qed.

(** *** Element width *)

Lemma in_dtype_bits (w x : Z) : 0 <= w ->
  in_dtype w x <-> (forall j, j < 0 \/ w <= j -> Z.testbit x j = false).
Proof.
  intros Hw. unfold in_dtype. split.
  - intros [H0 H1] j [Hj | Hj].
    + apply Z.testbit_neg_r. assumption.
    + destruct (Z.eq_dec x 0) as [->|Hx]; [apply Z.testbit_0_l|].
      apply Z.bits_above_log2; [assumption|].
      assert (Z.log2 x < w) by (apply Z.log2_lt_pow2; lia). lia.
  - intros H. assert (Hx : 0 <= x).
    { destruct (Z.lt_ge_cases x 0) as [N|N]; [|assumption]. exfalso.
      destruct (Z.bits_iff_neg_ex x) as [F _]. destruct (F N) as [k Hk].
      specialize (Hk (Z.max (k + 1) w) ltac:(lia)).
      rewrite H in Hk by lia. discriminate. }
    split; [assumption|].
    destruct (Z.eq_dec x 0) as [->|Hnz]; [apply Z.pow_pos_nonneg; lia|].
    apply Z.log2_lt_pow2; [lia|].
    destruct (Z.lt_ge_cases (Z.log2 x) w) as [L|L]; [assumption|]. exfalso.
    pose proof (Z.bit_log2 x ltac:(lia)) as B. rewrite H in B by lia. discriminate.
Qed.

Lemma in_dtype_lxor (w x y : Z) : 0 <= w ->
  in_dtype w x -> in_dtype w y -> in_dtype w (Z.lxor x y).
Proof.
  intros Hw Hx Hy. rewrite in_dtype_bits in * by assumption.
  intros j Hj. rewrite Z.lxor_spec, Hx, Hy by assumption. reflexivity.
Qed.

Lemma in_dtype_land_r (w x y : Z) : 0 <= w -> in_dtype w y -> in_dtype w (Z.land x y).
Proof.
  intros Hw Hy. rewrite in_dtype_bits in * by assumption.
  intros j Hj. rewrite Z.land_spec, Hy by assumption. apply andb_false_r.
Qed.

Lemma in_dtype_0 (w : Z) : 0 <= w -> in_dtype w 0.
Proof. intros Hw. unfold in_dtype. split; [lia|]. apply Z.pow_pos_nonneg; lia. Qed.

Lemma in_dtype_nth (w : Z) (s : list Z) (q : nat) : 0 <= w ->
  Forall (in_dtype w) s -> in_dtype w (nth q s 0).
Proof.
  intros Hw H. destruct (Nat.lt_ge_cases q (List.length s)) as [L|L].
  - rewrite Forall_forall in H. apply H. apply nth_In. assumption.
  - rewrite nth_overflow by assumption. apply in_dtype_0. assumption.
Qed.

Lemma Forall_nth_intro (P : Z -> Prop) (s : list Z) :
  (forall q, (q < List.length s)%nat -> P (nth q s 0)) -> Forall P s.
Proof.
  intros H. apply Forall_forall. intros x Hx.
  destruct (In_nth s x 0 Hx) as (q & Hq & <-). auto.
Qed.

Lemma crc_step_in_dtype (w : Z) (pb s : list Z) (i : nat) : 0 <= w ->
  Forall (in_dtype w) s -> Forall (in_dtype w) (crc_step pb s i).
Proof.
  intros Hw H. apply Forall_nth_intro. intros q Hq. rewrite crc_step_length in Hq.
  rewrite crc_step_nth by assumption. apply in_dtype_lxor; auto using in_dtype_nth.
  destruct (i <=? q)%nat; [|apply in_dtype_0; assumption].
  apply in_dtype_land_r; auto using in_dtype_nth.
Qed.

Lemma crc_fold_in_dtype (w : Z) (pb : list Z) (idx : list nat) : 0 <= w -> forall s,
  Forall (in_dtype w) s -> Forall (in_dtype w) (fold_left (crc_step pb) idx s).
Proof.
  intros Hw. induction idx as [|i idx IH]; intros s H; [assumption|].
  cbn [fold_left]. apply IH. apply crc_step_in_dtype; assumption.
Qed.

Lemma Forall_skipn (P : Z -> Prop) (n : nat) (s : list Z) : Forall P s -> Forall P (skipn n s).
Proof.
  intros H. rewrite Forall_forall in *. intros x Hx. apply H.
  rewrite <- (firstn_skipn n s). apply in_or_app. right. assumption.
Qed.

Lemma crc_in_dtype (w : Z) (self : CRC) (stream : list Z) : 0 <= w ->
  Forall (in_dtype w) stream -> Forall (in_dtype w) (_crc w self stream).
Proof.
  intros Hw H. unfold _crc, py_slice_from, crc_divide.
  apply Forall_skipn. apply crc_fold_in_dtype; assumption.
Qed.

Lemma py_slice_last (k : nat) (s : list Z) : (1 <= k <= List.length s)%nat ->
  py_slice_from (- Z.of_nat k) s = skipn (List.length s - k) s.
Proof.
  intros Hk. unfold py_slice_from.
  replace (- Z.of_nat k <? 0) with true by (symmetry; apply Z.ltb_lt; lia).
  f_equal. lia.
Qed.

Lemma CRC_call_length (w p : Z) (crc : CRC) (stream : list Z) :
  2 <= p -> CRC_init p = Return crc ->
  List.length (CRC_call w crc stream) = check_length p.
Proof.
  intros Hp Hinit. destruct (CRC_init_poly p crc ltac:(lia) Hinit) as [_ Hlen].
  assert (Hk : (1 <= check_length p)%nat).
  { rewrite check_length_log2 by lia.
    assert (1 <= Z.log2 p) by (apply Z.log2_le_pow2; simpl; lia). lia. }
  unfold CRC_call, _crc. rewrite Hlen, Nat2Z.id.
  assert (L : List.length (crc_divide w crc (stream ++ repeat 0 (check_length p)))
              = (List.length stream + check_length p)%nat).
  { unfold crc_divide. rewrite crc_fold_length, length_app, repeat_length. reflexivity. }
  rewrite py_slice_last by lia. rewrite length_skipn. lia.
Qed.

(** C2, for polynomials [p >= 2] (a check length of at least one bit): the
    engine built from [p] has check length [bitlength p - 1]; called on a
    bit vector it returns the remainder of the binary long division as the
    format description words it (zero bits appended, the polynomial XORed
    into the window at every set bit, the last [check_length] bits kept);
    called on [w]-bit words it returns [check_length] elements of the same
    width. *)
Theorem crc_call_is_long_division (w p : Z) (crc : CRC) (bits : list bool) (stream : list Z) :
  2 <= p -> CRC_init p = Return crc -> 0 <= w -> Forall (fun x => 0 <= x < 2 ^ w) stream ->
  CRC_len crc = bitlength p - 1
  /\ CRC_call 1 crc (map Z.b2z bits) = map Z.b2z (remainder p bits)
  /\ List.length (CRC_call w crc stream) = check_length p
  /\ Forall (fun x => 0 <= x < 2 ^ w) (CRC_call w crc stream).
Proof.
  intros Hp Hinit Hw Hs.
  destruct (CRC_init_poly p crc ltac:(lia) Hinit) as [Hpol Hlen].
  assert (Hk : (1 <= check_length p)%nat).
  { rewrite check_length_log2 by lia.
    assert (1 <= Z.log2 p) by (apply Z.log2_le_pow2; simpl; lia). lia. }
  split; [|split; [|split]].
  - rewrite Hlen. unfold check_length, bitlength.
    replace (p =? 0) with false by (symmetry; apply Z.eqb_neq; lia).
    pose proof (Z.log2_nonneg p). lia.
  - unfold CRC_call, _crc, remainder. cbv zeta. rewrite Hlen, Nat2Z.id.
    replace (map Z.b2z bits ++ repeat 0 (check_length p))
      with (map Z.b2z (bits ++ repeat false (check_length p)))
      by (rewrite map_app, map_repeat; reflexivity).
    rewrite (crc_divide_long_division p crc) by (assumption || lia).
    rewrite py_slice_last.
    + rewrite length_map. apply skipn_map.
    + rewrite length_map, (divide_length p crc) by (assumption || lia).
      rewrite length_app, repeat_length. lia.
  - apply (CRC_call_length w p); assumption.
  - apply crc_in_dtype; [assumption|]. apply Forall_app. split; [assumption|].
    apply Forall_forall. intros x Hx. apply repeat_spec in Hx. subst.
    apply in_dtype_0. assumption.
Qed.

Lemma crc_call_is_long_division_witness :
  match CRC_init 0x180f with
  | Return crc =>
      CRC_call 1 crc (map Z.b2z [true; false; true; true])
      = map Z.b2z (remainder 0x180f [true; false; true; true])
  | Raise _ => False
  end.
Proof.
  destruct (CRC_init 0x180f) as [crc|e] eqn:E.
  - assert (Hp : 2 <= 0x180f) by lia.
    assert (Hw : 0 <= 8) by lia.
    assert (Hs : Forall (fun x => 0 <= x < 2 ^ 8) [3; 200]).
    { repeat constructor; vm_compute; congruence. }
    exact (proj1 (proj2 (crc_call_is_long_division 8 0x180f crc
                           [true; false; true; true] [3; 200] Hp E Hw Hs))).
  - vm_compute in E. discriminate.
Defined.

(** A polynomial of one bit has check length 0, and [stream[-0:]] is the
    whole stream. *)
Lemma crc_call_degenerate_counterexample :
  ~ (forall crc, CRC_init 1 = Return crc ->
       CRC_call 1 crc (map Z.b2z [true; false; true])
       = map Z.b2z (remainder 1 [true; false; true])).
Proof.
  intros H. specialize (H (mkCRC 1 [1]) eq_refl). vm_compute in H. discriminate.
Qed.

(** *** The division is linear for XOR *)

Lemma xor_streams_length (a b : list Z) : List.length a = List.length b ->
  List.length (xor_streams a b) = List.length a.
Proof.
  intros L. unfold xor_streams. rewrite length_map, length_combine. lia.
Qed.

Lemma xor_streams_nth (a : list Z) : forall b q, List.length a = List.length b ->
  nth q (xor_streams a b) 0 = Z.lxor (nth q a 0) (nth q b 0).
Proof.
  unfold xor_streams.
  induction a as [|x a IH]; intros [|y b] q L; try discriminate.
  - destruct q; reflexivity.
  - destruct q as [|q]; [reflexivity|]. cbn [combine map nth]. apply IH.
    cbn in L. lia.
Qed.

Lemma land_lxor_distr (m x y : Z) :
  Z.land m (Z.lxor x y) = Z.lxor (Z.land m x) (Z.land m y).
Proof.
  apply Z.bits_inj'. intros j _.
  rewrite !Z.lxor_spec, !Z.land_spec, Z.lxor_spec.
  destruct (Z.testbit m j), (Z.testbit x j), (Z.testbit y j); reflexivity.
Qed.

Lemma lxor_shuffle (a b c d : Z) :
  Z.lxor (Z.lxor a b) (Z.lxor c d) = Z.lxor (Z.lxor a c) (Z.lxor b d).
Proof.
  apply Z.bits_inj'. intros j _. rewrite !Z.lxor_spec.
  destruct (Z.testbit a j), (Z.testbit b j), (Z.testbit c j), (Z.testbit d j); reflexivity.
Qed.

Lemma crc_step_linear (pb a b : list Z) (i : nat) : List.length a = List.length b ->
  crc_step pb (xor_streams a b) i = xor_streams (crc_step pb a i) (crc_step pb b i).
Proof.
  intros L. apply (nth_ext _ _ 0 0).
  - rewrite crc_step_length, xor_streams_length by assumption.
    rewrite xor_streams_length by (rewrite !crc_step_length; assumption).
    rewrite crc_step_length. reflexivity.
  - intros q Hq. rewrite crc_step_length, xor_streams_length in Hq by assumption.
    rewrite crc_step_nth by (rewrite xor_streams_length; assumption).
    rewrite !xor_streams_nth by (rewrite ?crc_step_length; assumption).
    rewrite !crc_step_nth by lia.
    rewrite lxor_shuffle. f_equal.
    destruct (i <=? q)%nat; [apply land_lxor_distr | reflexivity].
Qed.

Lemma crc_fold_linear (pb : list Z) (idx : list nat) : forall a b,
  List.length a = List.length b ->
  fold_left (crc_step pb) idx (xor_streams a b)
  = xor_streams (fold_left (crc_step pb) idx a) (fold_left (crc_step pb) idx b).
Proof.
  induction idx as [|i idx IH]; intros a b L; [reflexivity|].
  cbn [fold_left]. rewrite crc_step_linear by assumption.
  apply IH. rewrite !crc_step_length. assumption.
Qed.

(** A turn at a cleared position changes nothing. *)
Lemma crc_step_idle (pb s : list Z) (i : nat) : nth i s 0 = 0 -> crc_step pb s i = s.
Proof.
  intros H. apply (nth_ext _ _ 0 0); [apply crc_step_length|].
  intros q Hq. rewrite crc_step_length in Hq. rewrite crc_step_nth, H by assumption.
  destruct (i <=? q)%nat; rewrite ?Z.land_0_r; apply Z.lxor_0_r.
Qed.

Lemma crc_fold_idle (pb : list Z) (idx : list nat) (s : list Z) :
  (forall i, In i idx -> nth i s 0 = 0) -> fold_left (crc_step pb) idx s = s.
Proof.
  induction idx as [|i idx IH]; intros H; [reflexivity|].
  cbn [fold_left]. rewrite crc_step_idle by (apply H; left; reflexivity).
  apply IH. intros i' Hi'. apply H. right. assumption.
Qed.

(** *** Invariants of the loop over [range(0, n)] *)

Lemma fold_seq_invariant {A : Type} (step : A -> nat -> A) (P : nat -> A -> Prop) :
  forall m a s,
    P a s ->
    (forall i s, (a <= i < a + m)%nat -> P i s -> P (S i) (step s i)) ->
    P (a + m)%nat (fold_left step (seq a m) s).
Proof.
  induction m as [|m IH]; intros a s H0 Hstep.
  - rewrite Nat.add_0_r. exact H0.
  - cbn [seq fold_left]. replace (a + S m)%nat with (S a + m)%nat by lia.
    apply IH.
    + apply Hstep; [lia | exact H0].
    + intros i s' Hi. apply Hstep. lia.
Qed.

Lemma land_mask_full (w x : Z) : 0 < w -> in_dtype w x -> Z.land (wrap w (- (1))) x = x.
Proof.
  intros Hw Hx. apply Z.bits_inj'. intros j Hj. rewrite Z.land_spec.
  destruct (Z.lt_ge_cases j w) as [L|L].
  - rewrite mask_bit by (auto; lia). reflexivity.
  - rewrite in_dtype_bits in Hx by lia. rewrite (Hx j) by lia. apply andb_false_r.
Qed.

(** The turns clear the positions they visit, when the leading bit of the
    polynomial is set. *)
Lemma crc_fold_clears (w : Z) (bits : list Z) (n : nat) (s : list Z) :
  0 < w -> nth 0 bits 0 = 1 -> Forall (in_dtype w) s -> (n <= List.length s)%nat ->
  forall q, (q < n)%nat ->
    nth q (fold_left (crc_step (map (fun b => wrap w (- b)) bits)) (seq 0 n) s) 0 = 0.
Proof.
  intros Hw Hlead Hs Hn.
  set (pb := map (fun b => wrap w (- b)) bits).
  pose proof (fold_seq_invariant (crc_step pb)
    (fun i s' => List.length s' = List.length s /\ Forall (in_dtype w) s'
                 /\ forall q, (q < i)%nat -> nth q s' 0 = 0) n 0 s) as F.
  cbn beta in F. destruct F as (_ & _ & F).
  - split; [reflexivity|]. split; [assumption|]. intros q Hq. lia.
  - intros i s' Hi (Hl & Hd & Hz). split; [rewrite crc_step_length; assumption|].
    split; [apply crc_step_in_dtype; [lia|assumption]|].
    intros q Hq. rewrite crc_step_nth by lia.
    destruct (Nat.eq_dec q i) as [->|Hne].
    + rewrite Nat.leb_refl, Nat.sub_diag. subst pb. rewrite mask_nth, Hlead.
      rewrite land_mask_full by (try apply in_dtype_nth; (assumption || lia)).
      apply Z.lxor_nilpotent.
    + replace (i <=? q)%nat with false by (symmetry; apply Nat.leb_gt; lia).
      rewrite Z.lxor_0_r. apply Hz. lia.
  - exact F.
Qed.

(** *** A stream that ends in its own remainder *)

Lemma nth_zeros (n q : nat) : nth q (repeat 0 n) 0 = 0.
Proof. apply nth_repeat. Qed.

Lemma crc_unfold (w : Z) (self : CRC) (stream : list Z) (n k : nat) :
  CRC_len self = Z.of_nat k -> (1 <= k)%nat -> List.length stream = (n + k)%nat ->
  _crc w self stream
  = skipn n (fold_left (crc_step (map (fun b => wrap w (- b)) (pol_bin self)))
                       (seq 0 n) stream).
Proof.
  intros Hlen Hk L. unfold _crc, crc_divide. rewrite Hlen, L.
  replace (Z.to_nat (Z.of_nat (n + k) - Z.of_nat k)) with n by lia.
  rewrite py_slice_last by (rewrite crc_fold_length; lia).
  rewrite crc_fold_length, L. f_equal. lia.
Qed.

Lemma pol_bin_lead (p : Z) (crc : CRC) : 1 <= p -> CRC_init p = Return crc ->
  nth 0 (pol_bin crc) 0 = 1.
Proof.
  intros Hp H. rewrite CRC_init_bits in H by lia. injection H as <-. cbn [pol_bin].
  pose proof (digits2_length p Hp) as Hl.
  rewrite rev_nth by lia. rewrite Hl, digits2_nth by lia.
  replace (Z.of_nat (S (Z.to_nat (Z.log2 p)) - 1)) with (Z.log2 p)
    by (pose proof (Z.log2_nonneg p); lia).
  rewrite Z.bit_log2 by lia. reflexivity.
Qed.

Lemma forallb_zero_nth (l : list Z) :
  (forall q, nth q l 0 = 0) -> forallb (fun x => x =? 0) l = true.
Proof.
  intros H. apply forallb_forall. intros x Hx.
  destruct (In_nth l x 0 Hx) as (q & _ & <-). rewrite H. reflexivity.
Qed.

Lemma forallb_nonzero_nth (l : list Z) (q : nat) :
  nth q l 0 <> 0 -> forallb (fun x => x =? 0) l = false.
Proof.
  intros H. destruct (forallb (fun x => x =? 0) l) eqn:E; [|reflexivity].
  exfalso. apply H. destruct (Nat.lt_ge_cases q (List.length l)) as [L|L].
  - rewrite forallb_forall in E. apply Z.eqb_eq. apply E. apply nth_In. assumption.
  - apply nth_overflow. assumption.
Qed.

Lemma valid_len (p : Z) (crc : CRC) : 2 <= p -> CRC_init p = Return crc ->
  CRC_len crc = Z.of_nat (check_length p) /\ (1 <= check_length p)%nat.
Proof.
  intros Hp Hinit.
  destruct (CRC_init_poly p crc ltac:(lia) Hinit) as [_ Hlen]. split; [exact Hlen|].
  rewrite check_length_log2 by lia.
  assert (1 <= Z.log2 p) by (apply Z.log2_le_pow2; simpl; lia). lia.
Qed.

Section ValidStream.
Variables (w p : Z) (crc : CRC) (data : list Z).
Hypothesis Hinit : CRC_init p = Return crc.
Hypothesis Hp : 2 <= p.
Hypothesis Hw : 0 < w.
Hypothesis Hdata : Forall (in_dtype w) data.

Let pb := map (fun b => wrap w (- b)) (pol_bin crc).
Let k := check_length p.
Let n := List.length data.
Let r := CRC_call w crc data.
Let z := repeat 0 n ++ r.

Lemma valid_r_length : List.length r = k.
Proof. apply (CRC_call_length w p); assumption. Qed.

Lemma valid_call :
  r = skipn n (fold_left (crc_step pb) (seq 0 n) (data ++ repeat 0 k)).
Proof.
  destruct (valid_len p crc Hp Hinit) as [Hlen Hk]; fold k in Hlen, Hk. subst r. unfold CRC_call. rewrite Hlen, Nat2Z.id.
  apply (crc_unfold w crc _ n k); auto.
  rewrite length_app, repeat_length. reflexivity.
Qed.

(** The division of the zero-extended data leaves the remainder after
    [n] cleared positions. *)
Lemma valid_divided :
  fold_left (crc_step pb) (seq 0 n) (data ++ repeat 0 k) = z.
Proof.
  destruct (valid_len p crc Hp Hinit) as [Hlen Hk]; fold k in Hlen, Hk.
  assert (Hext : Forall (in_dtype w) (data ++ repeat 0 k)).
  { apply Forall_app. split; [assumption|]. apply Forall_forall. intros x Hx.
    apply repeat_spec in Hx. subst. apply in_dtype_0. lia. }
  apply (nth_ext _ _ 0 0).
  - subst z. rewrite crc_fold_length, !length_app, !repeat_length, valid_r_length.
    reflexivity.
  - intros q Hq. rewrite crc_fold_length, length_app, repeat_length in Hq.
    subst z. destruct (Nat.lt_ge_cases q n) as [L|L].
    + rewrite app_nth1 by (rewrite repeat_length; assumption). rewrite nth_zeros.
      apply crc_fold_clears; auto.
      * eapply pol_bin_lead; [|eassumption]. lia.
      * rewrite length_app. fold n. lia.
    + rewrite app_nth2 by (rewrite repeat_length; assumption).
      rewrite repeat_length, valid_call, nth_skipn. f_equal. lia.
Qed.

Lemma valid_split :
  data ++ r = xor_streams (data ++ repeat 0 k) z.
Proof.
  apply (nth_ext _ _ 0 0).
  - rewrite xor_streams_length; subst z;
      rewrite !length_app, ?repeat_length, ?valid_r_length; reflexivity.
  - intros q Hq. rewrite xor_streams_nth
      by (subst z; rewrite !length_app, !repeat_length, valid_r_length; reflexivity).
    subst z. destruct (Nat.lt_ge_cases q n) as [L|L].
    + rewrite !app_nth1 by (rewrite ?repeat_length; assumption).
      rewrite nth_zeros, Z.lxor_0_r. reflexivity.
    + rewrite !app_nth2 by (rewrite ?repeat_length; assumption).
      rewrite repeat_length, nth_zeros, Z.lxor_0_l. reflexivity.
Qed.

Lemma valid_z_idle : fold_left (crc_step pb) (seq 0 n) z = z.
Proof.
  apply crc_fold_idle. intros i Hi. apply in_seq in Hi. subst z.
  rewrite app_nth1 by (rewrite repeat_length; lia). apply nth_zeros.
Qed.

(** The division of the stream with its remainder leaves only zeros. *)
Lemma valid_zero (q : nat) :
  nth q (fold_left (crc_step pb) (seq 0 n) (data ++ r)) 0 = 0.
Proof.
  assert (Lz : List.length (data ++ repeat 0 k) = List.length z).
  { subst z. rewrite !length_app, !repeat_length, valid_r_length. reflexivity. }
  rewrite valid_split, crc_fold_linear by assumption.
  rewrite valid_divided, valid_z_idle.
  rewrite xor_streams_nth by reflexivity. apply Z.lxor_nilpotent.
Qed.

Lemma crc_check_valid : CRC_check w crc (data ++ r) = true.
Proof.
  destruct (valid_len p crc Hp Hinit) as [Hlen Hk]; fold k in Hlen, Hk. unfold CRC_check.
  rewrite (crc_unfold w crc _ n k)
    by (auto; rewrite length_app, valid_r_length; reflexivity).
  apply forallb_zero_nth. intros q. rewrite nth_skipn. apply valid_zero.
Qed.
End ValidStream.

(** *** A single flipped bit *)

Lemma flip_bit_length (j : Z) : forall i s, List.length (flip_bit i j s) = List.length s.
Proof.
  induction i as [|i IH]; intros [|x s]; cbn; auto.
Qed.

Lemma flip_bit_nth (j : Z) : forall i s q, (i < List.length s)%nat ->
  nth q (flip_bit i j s) 0
  = Z.lxor (nth q s 0) (if (q =? i)%nat then 2 ^ j else 0).
Proof.
  induction i as [|i IH]; intros [|x s] q Hi; cbn in Hi; try lia.
  - cbn [flip_bit]. destruct q as [|q]; cbn [nth Nat.eqb]; [reflexivity|].
    rewrite Z.lxor_0_r. reflexivity.
  - cbn [flip_bit]. destruct q as [|q]; cbn [nth Nat.eqb].
    + rewrite Z.lxor_0_r. reflexivity.
    + apply IH. lia.
Qed.

Lemma flip_bit_xor (i : nat) (j : Z) (s : list Z) : (i < List.length s)%nat ->
  flip_bit i j s = xor_streams s (flip_bit i j (repeat 0 (List.length s))).
Proof.
  intros Hi. apply (nth_ext _ _ 0 0).
  - rewrite flip_bit_length, xor_streams_length;
      rewrite ?flip_bit_length, ?repeat_length; reflexivity.
  - intros q _. rewrite xor_streams_nth by (rewrite flip_bit_length, repeat_length; reflexivity).
    rewrite !flip_bit_nth by (rewrite ?repeat_length; assumption).
    rewrite nth_zeros, Z.lxor_0_l. reflexivity.
Qed.

Lemma lxor_bit (a b : Z) : a = 0 \/ a = 1 -> b = 0 \/ b = 1 ->
  Z.lxor a b = 0 \/ Z.lxor a b = 1.
Proof. intros [-> | ->] [-> | ->]; cbn; auto. Qed.

Section SingleBit.
Variables (pb : list Z) (t N n : nat).
Hypothesis Hbits : Forall (fun b => b = 0 \/ b = 1) pb.
Hypothesis Hlead : nth 0 pb 0 = 1.
Hypothesis Ht1 : (1 <= t)%nat.
Hypothesis Ht : nth t pb 0 = 1.
Hypothesis Hlast : forall q, (t < q)%nat -> nth q pb 0 = 0.
Hypothesis HtN : (n + t <= N)%nat.

Lemma single_bit_step (i : nat) (s : list Z) : (i < n)%nat ->
  single_bit_invariant t N i s -> single_bit_invariant t N (S i) (crc_step pb s i).
Proof.
  intros Hi (Hl & Hb & Hz & L & HL & HL1 & HLz & HLt).
  destruct (nth_bit s i Hb) as [E|E].
  - rewrite crc_step_idle by assumption.
    split; [assumption|]. split; [assumption|]. split.
    + intros q Hq. destruct (Nat.eq_dec q i) as [->|Hne]; [assumption|]. apply Hz. lia.
    + exists L. repeat split; auto. intros q Hq. apply HLt. lia.
  - assert (Hstep : forall q, (q < N)%nat ->
              nth q (crc_step pb s i) 0
              = Z.lxor (nth q s 0) (if (i <=? q)%nat then nth (q - i) pb 0 else 0)).
    { intros q Hq. rewrite crc_step_nth, E by lia.
      destruct (i <=? q)%nat; [|reflexivity]. f_equal.
      destruct (nth_bit pb (q - i) Hbits) as [-> | ->]; reflexivity. }
    assert (HiL : (L < i + t)%nat) by (apply HLt; [lia|assumption]).
    split; [rewrite crc_step_length; assumption|]. split; [|split].
    + apply Forall_nth_intro. intros q Hq. rewrite crc_step_length in Hq.
      rewrite Hstep by lia. apply lxor_bit; [apply nth_bit; assumption|].
      destruct (i <=? q)%nat; [apply nth_bit; assumption | auto].
    + intros q Hq. rewrite Hstep by lia.
      destruct (Nat.eq_dec q i) as [->|Hne].
      * rewrite Nat.leb_refl, Nat.sub_diag, E, Hlead. reflexivity.
      * replace (i <=? q)%nat with false by (symmetry; apply Nat.leb_gt; lia).
        rewrite Hz by lia. reflexivity.
    + exists (i + t)%nat. split; [lia|]. split; [|split].
      * rewrite Hstep by lia.
        replace (i <=? i + t)%nat with true by (symmetry; apply Nat.leb_le; lia).
        replace (i + t - i)%nat with t by lia.
        rewrite Ht, HLz by lia. reflexivity.
      * intros q Hq. destruct (Nat.lt_ge_cases q N) as [LN|LN].
        -- rewrite Hstep by lia.
           replace (i <=? q)%nat with true by (symmetry; apply Nat.leb_le; lia).
           rewrite HLz, Hlast by lia. reflexivity.
        -- apply nth_overflow. rewrite crc_step_length. lia.
      * intros q Hq _. lia.
Qed.

(** After the [n] turns the set bit sits in the last [N - n] positions. *)
Lemma single_bit_survives (s : list Z) :
  single_bit_invariant t N 0 s ->
  exists L, (n <= L < N)%nat /\ nth L (fold_left (crc_step pb) (seq 0 n) s) 0 = 1.
Proof.
  intros H0.
  pose proof (fold_seq_invariant (crc_step pb) (single_bit_invariant t N) n 0 s H0) as F.
  cbn [Nat.add] in F.
  destruct F as (_ & _ & Hz & L & HL & HL1 & _).
  - intros i s' Hi Hinv. apply single_bit_step; [lia|assumption].
  - exists L. split; [|assumption]. split; [|assumption].
    destruct (Nat.lt_ge_cases L n) as [C|C]; [|assumption].
    rewrite Hz in HL1 by assumption. discriminate.
Qed.
End SingleBit.

(** *** The last set bit of a polynomial with two terms *)

Lemma second_set_bit (p : Z) : 1 <= p -> p <> 2 ^ Z.log2 p ->
  exists m, 0 <= m < Z.log2 p /\ Z.testbit p m = true.
Proof.
  intros Hp Hne. pose proof (Z.log2_spec p ltac:(lia)) as [Hlo Hhi].
  pose proof (Z.log2_nonneg p) as Hd.
  set (d := Z.log2 p) in *. rewrite Z.pow_succ_r in Hhi by assumption.
  set (r := p - 2 ^ d).
  assert (Hr : 0 < r < 2 ^ d) by (subst r; lia).
  assert (Hmod : r = p mod 2 ^ d).
  { apply Z.mod_unique with (q := 1); subst r; lia. }
  exists (Z.log2 r). split.
  - split; [apply Z.log2_nonneg|]. apply Z.log2_lt_pow2; lia.
  - rewrite <- (Z.mod_pow2_bits_low p d) by (apply Z.log2_lt_pow2; lia).
    rewrite <- Hmod. apply Z.bit_log2. lia.
Qed.

Lemma last_one (l : list Z) :
  (exists t, nth t l 0 = 1) ->
  exists t, nth t l 0 = 1 /\ forall q, (t < q)%nat -> nth q l 0 <> 1.
Proof.
  induction l as [|x l IH]; intros [t0 H0].
  - destruct t0; discriminate.
  - destruct (in_dec Z.eq_dec 1 l) as [Hin|Hnin].
    + destruct (In_nth l 1 0 Hin) as (t' & _ & Ht').
      destruct (IH (ex_intro _ t' Ht')) as (t & Ht & Hmax).
      exists (S t). split; [exact Ht|]. intros [|q] Hq; [lia|]. cbn [nth]. apply Hmax. lia.
    + destruct t0 as [|t0].
      * exists O. split; [exact H0|]. intros [|q] Hq; [lia|]. cbn [nth].
        intros Hc. apply Hnin. rewrite <- Hc.
        destruct (Nat.lt_ge_cases q (List.length l)) as [C|C]; [apply nth_In; assumption|].
        rewrite nth_overflow in Hc by assumption. discriminate.
      * exfalso. cbn [nth] in H0. apply Hnin. rewrite <- H0.
        destruct (Nat.lt_ge_cases t0 (List.length l)) as [C|C]; [apply nth_In; assumption|].
        rewrite nth_overflow in H0 by assumption. discriminate.
Qed.

Lemma pol_bin_last_term (p : Z) (crc : CRC) :
  1 <= p -> p <> 2 ^ Z.log2 p -> CRC_init p = Return crc ->
  exists t, (1 <= t <= check_length p)%nat
            /\ nth t (pol_bin crc) 0 = 1
            /\ forall q, (t < q)%nat -> nth q (pol_bin crc) 0 = 0.
Proof.
  intros Hp Hne Hinit.
  pose proof (pol_bin_bits p crc Hinit) as Hbits.
  destruct (CRC_init_poly p crc Hp Hinit) as [Hpol Hlen].
  assert (Hsize : List.length (pol_bin crc) = S (check_length p)).
  { unfold CRC_len in Hlen. lia. }
  destruct (second_set_bit p Hp Hne) as (m & Hm & Hbit).
  pose proof (check_length_log2 p Hp) as Hk.
  assert (H0 : nth (check_length p - Z.to_nat m) (pol_bin crc) 0 = 1).
  { rewrite CRC_init_bits in Hinit by lia. injection Hinit as <-. cbn [pol_bin] in *.
    rewrite length_rev in Hsize. rewrite rev_nth by (rewrite Hsize; lia).
    rewrite Hsize, digits2_nth by lia.
    replace (Z.of_nat (S (check_length p) - S (check_length p - Z.to_nat m))) with m by lia.
    rewrite Hbit. reflexivity. }
  destruct (pol_bin crc) as [|x pb'] eqn:Epb; [discriminate|].
  assert (H1 : exists t', nth t' pb' 0 = 1).
  { exists (check_length p - Z.to_nat m - 1)%nat.
    replace (check_length p - Z.to_nat m)%nat
      with (S (check_length p - Z.to_nat m - 1)) in H0 by lia.
    exact H0. }
  destruct (last_one pb' H1) as (t' & Ht' & Hmax).
  exists (S t'). split; [|split].
  - split; [lia|]. cbn in Hsize.
    destruct (Nat.lt_ge_cases t' (List.length pb')) as [C|C]; [lia|].
    rewrite nth_overflow in Ht' by assumption. discriminate.
  - exact Ht'.
  - intros [|q] Hq; [lia|]. cbn [nth].
    assert (Hb' : Forall (fun b => b = 0 \/ b = 1) pb') by (inversion Hbits; assumption).
    destruct (nth_bit pb' q Hb') as [E|E]; [assumption|].
    exfalso. apply (Hmax q); [lia|assumption].
Qed.

Lemma lane_bits (j : Z) (s : list Z) : Forall (fun b => b = 0 \/ b = 1) (lane j s).
Proof.
  unfold lane. apply Forall_map. apply Forall_forall. intros x _.
  destruct (Z.testbit x j); cbn; auto.
Qed.

Lemma testbit_pow2_same (j : Z) : 0 <= j -> Z.testbit (2 ^ j) j = true.
Proof. intros Hj. apply Z.pow2_bits_true. assumption. Qed.

(** One flipped bit leaves a set bit in the checked part of the stream. *)
Lemma crc_check_flipped (w p : Z) (crc : CRC) (data : list Z) (i : nat) (j : Z) :
  CRC_init p = Return crc -> 2 <= p -> p <> 2 ^ Z.log2 p -> 0 < w ->
  Forall (in_dtype w) data ->
  (i < List.length (data ++ CRC_call w crc data))%nat -> 0 <= j < w ->
  CRC_check w crc (flip_bit i j (data ++ CRC_call w crc data)) = false.
Proof.
  intros Hinit Hp Hne Hw Hdata Hi Hj.
  destruct (valid_len p crc Hp Hinit) as [Hlen Hk].
  pose proof (valid_r_length w p crc data Hinit Hp) as Hr.
  pose proof (pol_bin_bits p crc Hinit) as Hbits.
  set (k := check_length p) in *. set (n := List.length data).
  set (s := data ++ CRC_call w crc data) in *.
  assert (Ls : List.length s = (n + k)%nat) by (subst s; rewrite length_app; lia).
  set (e := flip_bit i j (repeat 0 (List.length s))).
  set (pb := map (fun b => wrap w (- b)) (pol_bin crc)).
  assert (Le : List.length e = List.length s)
    by (subst e; rewrite flip_bit_length, repeat_length; reflexivity).
  unfold CRC_check.
  rewrite (crc_unfold w crc _ n k) by (auto; rewrite flip_bit_length; assumption).
  fold pb. rewrite flip_bit_xor by assumption. fold e.
  rewrite crc_fold_linear by (symmetry; assumption).
  (* the bit lane of the flipped bit *)
  destruct (pol_bin_last_term p crc ltac:(lia) Hne Hinit) as (t & Ht1 & Ht & Hlast).
  pose proof (lane_fold w j (pol_bin crc) Hj Hbits (seq 0 n) e) as Hlane.
  rewrite mask_bool in Hlane by assumption.
  destruct (single_bit_survives (pol_bin crc) t (n + k) n Hbits
              (pol_bin_lead p crc ltac:(lia) Hinit) ltac:(lia) Ht Hlast ltac:(fold k; lia)
              (lane j e)) as (L & HL & HL1).
  { split; [rewrite lane_length; lia|]. split; [apply lane_bits|]. split; [intros q Hq; lia|].
    assert (Hu : forall q, nth q (lane j e) 0 = if (q =? i)%nat then 1 else 0).
    { intros q. rewrite lane_nth. subst e. rewrite flip_bit_nth by (rewrite repeat_length; assumption).
      rewrite nth_zeros, Z.lxor_0_l. destruct (q =? i)%nat.
      - rewrite testbit_pow2_same by lia. reflexivity.
      - rewrite Z.testbit_0_l. reflexivity. }
    exists i. split; [lia|]. split; [|split].
    - rewrite Hu, Nat.eqb_refl. reflexivity.
    - intros q Hq. rewrite Hu. replace (q =? i)%nat with false by (symmetry; apply Nat.eqb_neq; lia).
      reflexivity.
    - intros q _ Hq. rewrite Hu in Hq. destruct (q =? i)%nat eqn:E; [|discriminate].
      apply Nat.eqb_eq in E. lia. }
  rewrite <- Hlane, lane_nth in HL1.
  apply (forallb_nonzero_nth _ (L - n)). rewrite nth_skipn.
  replace (n + (L - n))%nat with L by lia.
  rewrite xor_streams_nth by (rewrite !crc_fold_length; symmetry; assumption).
  unfold pb, n, s in *.
  rewrite (valid_zero w p crc data Hinit Hp Hw Hdata), Z.lxor_0_l.
  intros Hc. rewrite Hc, Z.testbit_0_l in HL1. discriminate.
Qed.

(** C3, for polynomials [p >= 2]: a stream that ends in the CRC of the
    words before it passes [check]; and when [p] is not a power of two
    (the polynomial has a second term), flipping any single bit of any
    word of such a stream makes [check] fail. *)
Theorem crc_check_detects (w p : Z) (crc : CRC) (data : list Z) (i : nat) (j : Z) :
  CRC_init p = Return crc -> 2 <= p -> 0 < w ->
  Forall (fun x => 0 <= x < 2 ^ w) data ->
  let s := data ++ CRC_call w crc data in
  CRC_check w crc s = true
  /\ (p <> 2 ^ Z.log2 p -> (i < List.length s)%nat -> 0 <= j < w ->
      CRC_check w crc (flip_bit i j s) = false).
Proof.
  intros Hinit Hp Hw Hdata s. split.
  - apply (crc_check_valid w p); assumption.
  - intros Hne Hi Hj. apply (crc_check_flipped w p); assumption.
Qed.

Lemma crc_check_detects_witness :
  match CRC_init 0x180f with
  | Return crc =>
      let s := [5; 0; 7; 2] ++ CRC_call 3 crc [5; 0; 7; 2] in
      CRC_check 3 crc s = true /\ CRC_check 3 crc (flip_bit 9 1 s) = false
  | Raise _ => False
  end.
Proof.
  destruct (CRC_init 0x180f) as [crc|e] eqn:E.
  - assert (Hp : 2 <= 0x180f) by lia.
    assert (Hw : 0 < 3) by lia.
    assert (Hd : Forall (fun x => 0 <= x < 2 ^ 3) [5; 0; 7; 2]).
    { repeat constructor; vm_compute; congruence. }
    destruct (crc_check_detects 3 0x180f crc [5; 0; 7; 2] 9 1 E Hp Hw Hd) as [H1 H2].
    split; [exact H1|]. apply H2.
    + vm_compute. discriminate.
    + rewrite length_app, (CRC_call_length 3 0x180f crc) by assumption.
      vm_compute. lia.
    + lia.
  - vm_compute in E. discriminate.
Defined.

(** For the polynomial [x] (binary 10) every remainder is zero, and so is
    the remainder of every stream that ends in a zero bit. *)
Lemma crc_check_flip_counterexample :
  ~ (forall crc, CRC_init 2 = Return crc ->
       let s := [1] ++ CRC_call 1 crc [1] in
       CRC_check 1 crc s = true /\ CRC_check 1 crc (flip_bit 0 0 s) = false).
Proof.
  intros H. destruct (H (mkCRC 2 [1; 0]) eq_refl) as [_ H2].
  vm_compute in H2. discriminate.
Qed.

(** ** Header time *)

Section HeaderTimeFacts.
Import HeaderTime.
Variable wrap_days : Z.
Hypothesis Hwrap : 0 < wrap_days.

Lemma wrap_period_pos : 0 < wrap_period wrap_days.
Proof. unfold wrap_period, ticks_per_day, ticks_per_second. lia. Qed.

Lemma time_in_epoch_shift (h : fields) (c t : Z) :
  time_in_epoch wrap_days h c = Return t ->
  exists base, time_in_epoch wrap_days h 0 = Return base
               /\ t = base + c * wrap_period wrap_days
               /\ forall c', time_in_epoch wrap_days h c'
                             = Return (base + c' * wrap_period wrap_days).
Proof.
  unfold time_in_epoch, wrap_period, ticks_per_day.
  destruct (bcd_decode_int (bcd_jday h)) as [jday|e1];
    destruct (bcd_decode_int (bcd_seconds h)) as [seconds|e2];
    destruct (bcd_decode_int (bcd_fraction h)) as [fraction|e3];
    try discriminate.
  intros [= <-]. eexists. split; [reflexivity|]. split; [ring|].
  intros c'. f_equal. ring.
Qed.

(** The epoch chosen is the closest one, and the earlier one in a tie. *)
Lemma nearest_epoch_closest (base ref c' : Z) :
  let P := wrap_period wrap_days in
  let c := nearest_epoch wrap_days base ref in
  Z.abs (base + c * P - ref) <= Z.abs (base + c' * P - ref)
  /\ (Z.abs (base + c * P - ref) = Z.abs (base + c' * P - ref) -> c <= c').
Proof.
  intros P c. pose proof wrap_period_pos as HP. fold P in HP.
  subst c. unfold nearest_epoch. fold P.
  set (q := (P + 2 * (base - ref)) / (2 * P)).
  assert (Hq : 2 * P * q <= P + 2 * (base - ref) < 2 * P * q + 2 * P).
  { subst q. pose proof (Z.div_mod (P + 2 * (base - ref)) (2 * P) ltac:(lia)).
    pose proof (Z.mod_pos_bound (P + 2 * (base - ref)) (2 * P) ltac:(lia)). lia. }
  clearbody q.
  assert (Hc : c' < - q \/ c' = - q \/ - q < c') by lia.
  destruct Hc as [Hc | [-> | Hc]]; [| lia |]; nia.
Qed.

Lemma nearest_epoch_window (base ref c : Z) :
  2 * Z.abs (ref - (base + c * wrap_period wrap_days)) < wrap_period wrap_days ->
  nearest_epoch wrap_days base ref = c.
Proof.
  intros H. pose proof wrap_period_pos as HP. unfold nearest_epoch.
  set (P := wrap_period wrap_days) in *.
  assert (E : (P + 2 * (base - ref)) / (2 * P) = - c).
  { symmetry. apply Z.div_unique with (r := P + 2 * (base - ref) + 2 * P * c); lia. }
  rewrite E. lia.
Qed.

(** C6: two reference epochs that each lie strictly within half the wrap
    period of the timestamp the fields denote in some wrap of the day
    counter both resolve to that timestamp. *)
Theorem header_time_reference_window (h : fields) (c t ref1 ref2 : Z) :
  time_in_epoch wrap_days h c = Return t ->
  2 * Z.abs (ref1 - t) < wrap_period wrap_days ->
  2 * Z.abs (ref2 - t) < wrap_period wrap_days ->
  time wrap_days h ref1 = Return t /\ time wrap_days h ref2 = Return t.
Proof.
  intros Ht H1 H2.
  destruct (time_in_epoch_shift h c t Ht) as (base & Hbase & -> & Hall).
  unfold time. rewrite Hbase.
  rewrite !nearest_epoch_window with (c := c) by assumption.
  rewrite Hall. split; reflexivity.
Qed.
End HeaderTimeFacts.

Lemma header_time_reference_window_witness :
  let h := HeaderTime.mkFields 0x821 0x19801 0 in
  let day := HeaderTime.ticks_per_day in
  HeaderTime.time 1000 h (56322 * day) = HeaderTime.time 1000 h (57320 * day).
Proof.
  intros h day.
  assert (Hw : 0 < 1000) by lia.
  assert (Ht : HeaderTime.time_in_epoch 1000 h 56 = Return 49093542010000)
    by (vm_compute; reflexivity).
  assert (H1 : 2 * Z.abs (56322 * day - 49093542010000) < HeaderTime.wrap_period 1000)
    by (vm_compute; reflexivity).
  assert (H2 : 2 * Z.abs (57320 * day - 49093542010000) < HeaderTime.wrap_period 1000)
    by (vm_compute; reflexivity).
  destruct (header_time_reference_window 1000 Hw h 56 _ _ _ Ht H1 H2) as [E1 E2].
  rewrite E1, E2. reflexivity.
Defined.

(** References 499 and 501 days after a candidate are two days apart and
    fall on either side of the midpoint between two epochs. *)
Lemma header_time_reference_jitter_counterexample :
  ~ (forall (h : HeaderTime.fields) (ref1 ref2 : Z),
       2 * Z.abs (ref1 - ref2) <= HeaderTime.wrap_period HeaderTime.mark5b_wrap_days ->
       HeaderTime.time HeaderTime.mark5b_wrap_days h ref1
       = HeaderTime.time HeaderTime.mark5b_wrap_days h ref2).
Proof.
  intros H.
  specialize (H (HeaderTime.mkFields 0 0 0)
                (499 * HeaderTime.ticks_per_day) (501 * HeaderTime.ticks_per_day)).
  vm_compute in H. specialize (H ltac:(discriminate)). discriminate.
Qed.

(** ** Frame *)

(** C8: a frame whose validity flag is false has all-zero data of its
    declared shape, whatever its payload words are; and the invalid frame
    built from samples has as many payload words as the samples encode to,
    each of them the sentinel [0x11223344], none of them zero. *)
Theorem invalid_frame_data_and_payload (OPT : Q) (f : Frame.frame)
    (samples : list (list Q)) (header : list Z) (bps : Z) (nchan : nat) :
  Frame.valid f = false ->
  Frame.data OPT f = repeat (repeat 0%Q (snd (Frame.shape f))) (fst (Frame.shape f))
  /\ (forall words, Frame.data OPT (Frame.mkFrame (Frame.header f) words
                                       (Frame.bps f) (Frame.nchan f) false)
                    = repeat (repeat 0%Q (Frame.nchan f))
                        (Z.to_nat (Z.of_nat (List.length words) * 32
                                   / (Frame.bps f * Z.of_nat (Frame.nchan f)))))
  /\ let f6 := Frame.from_samples OPT samples header bps nchan false in
     Frame.valid f6 = false
     /\ Forall (fun word => word = 0x11223344) (Frame.payload f6)
     /\ List.length (Frame.payload f6) = List.length (Payload.encode OPT bps samples)
     /\ Forall (fun word => word <> 0) (Frame.payload f6).
Proof.
  intros Hv. split; [|split].
  - unfold Frame.data. rewrite Hv. reflexivity.
  - intros words. reflexivity.
  - cbn. split; [reflexivity|]. split; [|split].
    + apply Forall_map. apply Forall_forall. intros; reflexivity.
    + apply length_map.
    + apply Forall_map. apply Forall_forall. intros x _. discriminate.
Qed.

Lemma invalid_frame_data_and_payload_witness :
  let OPT := (33359 # 10000)%Q in
  let f := Frame.mkFrame [0xABADDEED; 0; 0; 0] [0x12345678; 0x9ABCDEF0] 2 8 false in
  Frame.data OPT f = [repeat 0%Q 8; repeat 0%Q 8; repeat 0%Q 8; repeat 0%Q 8].
Proof.
  intros OPT f.
  exact (proj1 (invalid_frame_data_and_payload OPT f [] [] 2 8 eq_refl)).
Defined.

(** ** Stream *)

Lemma round_nearest (x : Q) : (Qabs (inject_Z (Stream.round x) - x) <= 1 # 2)%Q.
Proof.
  unfold Stream.round.
  pose proof (Qfloor_le (x + (1 # 2))) as Hlo.
  pose proof (Qlt_floor (x + (1 # 2))) as Hhi.
  rewrite inject_Z_plus in Hhi. change (inject_Z 1) with 1%Q in Hhi.
  apply Qabs_case; intros _; lra.
Qed.

(** C9: a stream opened for reading starts at sample 0; [seek] to an
    in-range sample count [n] followed by [tell] gives [n]; [tell] in time
    is the start time plus the cursor over the sample rate; [seek] to a
    timestamp puts the cursor at [(target - start time) * sample rate]
    rounded to the nearest integer, and [tell] in time is then less than
    one sample period away from the target. *)
Theorem stream_seek_tell (fh : Stream.reader) (n : Z) (target : Q) :
  0 <= n <= Stream.size fh -> (0 < Stream.sample_rate fh)%Q ->
  Stream.tell (Stream.open_read (Stream.time0 fh) (Stream.sample_rate fh) (Stream.size fh)) = 0
  /\ Stream.tell (Stream.seek fh n) = n
  /\ (Stream.tell_time fh
      == Stream.time0 fh + inject_Z (Stream.tell fh) / Stream.sample_rate fh)%Q
  /\ Stream.tell (Stream.seek_time fh target)
     = Stream.round ((target - Stream.time0 fh) * Stream.sample_rate fh)%Q
  /\ (Qabs (Stream.tell_time (Stream.seek_time fh target) - target)
      < 1 / Stream.sample_rate fh)%Q.
Proof.
  intros Hn Hrate. split; [reflexivity|]. split; [reflexivity|].
  split; [reflexivity|]. split; [reflexivity|].
  unfold Stream.tell_time, Stream.seek_time, Stream.seek. cbn [Stream.time0 Stream.sample_rate Stream.offset].
  set (r := Stream.sample_rate fh) in *. set (t0 := Stream.time0 fh).
  set (x := ((target - t0) * r)%Q).
  pose proof (round_nearest x) as Hr.
  assert (Hne : ~ (r == 0)%Q) by lra.
  assert (E : (t0 + inject_Z (Stream.round x) / r - target
               == (inject_Z (Stream.round x) - x) / r)%Q).
  { subst x. field. exact Hne. }
  rewrite E. unfold Qdiv. rewrite Qabs_Qmult.
  assert (Hinv : (0 < / r)%Q) by (apply Qinv_lt_0_compat; exact Hrate).
  rewrite (Qabs_pos (/ r)) by lra.
  apply Qle_lt_trans with ((1 # 2) * / r)%Q.
  - apply Qmult_le_compat_r; [exact Hr | lra].
  - apply Qmult_lt_compat_r; [exact Hinv | reflexivity].
Qed.

Lemma stream_seek_tell_witness :
  let fh := Stream.open_read (5 # 1) (32000000 # 1) 20000 in
  Stream.tell (Stream.seek fh 10000) = 10000.
Proof.
  intros fh.
  assert (Hn : 0 <= 10000 <= Stream.size fh) by (vm_compute; split; discriminate).
  assert (Hr : (0 < Stream.sample_rate fh)%Q) by reflexivity.
  exact (proj1 (proj2 (stream_seek_tell fh 10000 (5 # 1) Hn Hr))).
Defined.

(** ** Payload codec *)

Import Payload.

Lemma chunks_aux_concat {A : Type} (n : nat) : (0 < n)%nat ->
  forall fuel (l : list A), (List.length l <= fuel)%nat ->
    List.concat (chunks_aux fuel n l) = l.
Proof.
  intros Hn. induction fuel as [|f IH]; intros l Hl.
  - destruct l; [reflexivity | cbn in Hl; lia].
  - destruct l as [|x l]; [reflexivity|].
    cbn [chunks_aux List.concat]. rewrite IH; [apply firstn_skipn|].
    rewrite length_skipn. cbn [List.length] in *. lia.
Qed.

Lemma chunks_concat {A : Type} (n : nat) (l : list A) : (0 < n)%nat ->
  List.concat (chunks n l) = l.
Proof. intros Hn. apply chunks_aux_concat; [assumption | reflexivity]. Qed.

Lemma chunks_aux_rows {A : Type} (n : nat) : (0 < n)%nat ->
  forall (rows : list (list A)) fuel,
    Forall (fun row => List.length row = n) rows ->
    (List.length (List.concat rows) <= fuel)%nat ->
    chunks_aux fuel n (List.concat rows) = rows.
Proof.
  intros Hn. induction rows as [|row rows IH]; intros fuel Hrows Hfuel.
  - destruct fuel; reflexivity.
  - inversion Hrows as [|? ? Hrow Hrest]; subst.
    cbn [List.concat] in *. rewrite length_app in Hfuel.
    destruct fuel as [|f]; [lia|].
    destruct row as [|x row]; [cbn in Hn; lia|].
    cbn [chunks_aux app].
    change (x :: row ++ List.concat rows) with ((x :: row) ++ List.concat rows).
    rewrite firstn_app, skipn_app, Nat.sub_diag, firstn_all, skipn_all.
    cbn [firstn skipn app]. rewrite app_nil_r. f_equal.
    apply IH; [assumption|]. cbn [List.length] in Hfuel. lia.
Qed.

Lemma chunks_rows {A : Type} (n : nat) (rows : list (list A)) : (0 < n)%nat ->
  Forall (fun row => List.length row = n) rows ->
  chunks n (List.concat rows) = rows.
Proof. intros Hn H. apply chunks_aux_rows; auto. Qed.

Lemma chunks_aux_full {A : Type} (n : nat) : (0 < n)%nat ->
  forall m fuel (l : list A), List.length l = (m * n)%nat ->
    Forall (fun c => List.length c = n) (chunks_aux fuel n l).
Proof.
  intros Hn. induction m as [|m IH]; intros fuel l Hl.
  - destruct l; [|discriminate]. destruct fuel; constructor.
  - destruct fuel as [|f]; [constructor|].
    destruct l as [|x l]; [constructor|].
    cbn [chunks_aux]. constructor.
    + rewrite length_firstn. cbn [Nat.mul] in Hl. lia.
    + apply IH. rewrite length_skipn. cbn [Nat.mul] in Hl. lia.
Qed.

(** *** Fields of a packed word *)

Lemma testbit_field (bps word : Z) (k : nat) (j : Z) : 0 <= bps -> 0 <= j ->
  Z.testbit (field bps word k) j
  = Z.testbit word (j + bps * Z.of_nat k) && (j <? bps).
Proof.
  intros Hb Hj. unfold field.
  replace (2 ^ bps - 1) with (Z.ones bps) by (rewrite Z.ones_equiv; lia).
  rewrite Z.land_spec, Z.shiftr_spec, Z.testbit_ones_nonneg by lia. reflexivity.
Qed.

Lemma field_field (bps word : Z) (per i k : nat) :
  0 < bps -> bps * Z.of_nat per = 8 -> (k < per)%nat ->
  field bps (field 8 word i) k = field bps word (i * per + k).
Proof.
  intros Hb Hper Hk. apply Z.bits_inj'. intros j Hj.
  rewrite !testbit_field by lia.
  destruct (j <? bps) eqn:E; [|rewrite !andb_false_r; reflexivity].
  apply Z.ltb_lt in E. rewrite !andb_true_r.
  replace (j + bps * Z.of_nat k <? 8) with true by (symmetry; apply Z.ltb_lt; nia).
  rewrite andb_true_r. f_equal. nia.
Qed.

Lemma field_div_mod (bps word : Z) (k : nat) : 0 <= bps ->
  field bps word k = (word / (2 ^ bps) ^ Z.of_nat k) mod 2 ^ bps.
Proof.
  intros Hb. unfold field.
  replace (2 ^ bps - 1) with (Z.ones bps) by (rewrite Z.ones_equiv; lia).
  rewrite Z.land_ones, Z.shiftr_div_pow2 by lia.
  rewrite Z.pow_mul_r by lia. reflexivity.
Qed.

Lemma field_pack (bps : Z) : 0 < bps -> forall (k : nat) (codes : list Z),
  Forall (fun c => 0 <= c < 2 ^ bps) codes ->
  field bps (pack bps codes) k = nth k codes 0.
Proof.
  intros Hb. assert (HB : 0 < 2 ^ bps) by (apply Z.pow_pos_nonneg; lia).
  induction k as [|k IH]; intros codes Hc; rewrite field_div_mod by lia.
  - change ((2 ^ bps) ^ Z.of_nat 0) with 1. rewrite Z.div_1_r.
    destruct Hc as [|c codes Hc0 Hc]; [reflexivity|]. unfold pack. cbn [undigits nth].
    symmetry. apply Z.mod_unique with (q := undigits (2 ^ bps) codes); lia.
  - destruct Hc as [|c codes Hc0 Hc].
    + unfold pack. cbn [undigits nth]. rewrite Z.div_0_l by (apply Z.pow_nonzero; lia).
      apply Zmod_0_l.
    + cbn [nth]. rewrite <- (IH codes Hc), field_div_mod by lia.
      rewrite Nat2Z.inj_succ, Z.pow_succ_r by lia.
      rewrite <- Z.div_div by (try apply Z.pow_pos_nonneg; lia).
      f_equal. f_equal. unfold pack. cbn [undigits].
      symmetry. apply Z.div_unique with (r := c); lia.
Qed.

Lemma flat_map_map {A B C : Type} (g : A -> B) (f : B -> list C) (l : list A) :
  flat_map f (map g l) = flat_map (fun x => f (g x)) l.
Proof. induction l as [|x l IH]; cbn; [reflexivity | rewrite IH; reflexivity]. Qed.

Lemma map_seq_offset {C : Type} (g : nat -> C) (s : nat) : forall n t,
  map (fun k => g (s + k)%nat) (seq t n) = map g (seq (s + t) n).
Proof.
  induction n as [|n IH]; intros t; [reflexivity|].
  cbn [seq map]. f_equal. rewrite IH. f_equal. f_equal. lia.
Qed.

Lemma flat_map_seq {C : Type} (g : nat -> C) (per : nat) : forall a,
  flat_map (fun i => map (fun k => g (i * per + k)%nat) (seq 0 per)) (seq 0 a)
  = map g (seq 0 (a * per)).
Proof.
  induction a as [|a IH]; [reflexivity|].
  rewrite seq_S, flat_map_app, IH. cbn [flat_map Nat.add]. rewrite app_nil_r.
  replace (S a * per)%nat with (a * per + per)%nat by lia.
  rewrite seq_app, map_app. f_equal. cbn [Nat.add].
  rewrite map_seq_offset. f_equal. f_equal. lia.
Qed.

Lemma map_nth_seq (l : list Z) :
  map (fun k => nth k l 0) (seq 0 (List.length l)) = l.
Proof.
  apply (nth_ext _ _ 0 0).
  - rewrite length_map, length_seq. reflexivity.
  - intros q Hq. rewrite length_map, length_seq in Hq.
    rewrite (nth_indep _ 0 ((fun k => nth k l 0) O)) by (rewrite length_map, length_seq; lia).
    rewrite (map_nth (fun k => nth k l 0)), seq_nth by lia. reflexivity.
Qed.

Section CodecFacts.
Variable OPT : Q.
Hypothesis HOPT : (1 < OPT)%Q.
Variable bps : Z.
Hypothesis Hbps : bps = 1 \/ bps = 2.

Let per := Z.to_nat (8 / bps).
Let spw := Z.to_nat (32 / bps).

Lemma per_spec : bps * Z.of_nat per = 8 /\ (spw = 4 * per)%nat /\ (0 < spw)%nat.
Proof.
  subst per spw. destruct Hbps as [E | E]; rewrite E;
    (split; [reflexivity|]; split; [reflexivity|]; vm_compute; lia).
Qed.

(** The levels looked up for the four bytes of a word are the levels of
    its fields, in order. *)
Lemma decode_word (word : Z) :
  flat_map (lut OPT bps) (word_bytes word)
  = map (fun m => level OPT bps (field bps word m)) (seq 0 spw).
Proof.
  destruct per_spec as (Hper & Hspw & _).
  unfold word_bytes. rewrite flat_map_map. unfold lut. fold per.
  rewrite Hspw. rewrite <- (flat_map_seq (fun m => level OPT bps (field bps word m)) per 4).
  apply flat_map_ext. intros i. apply map_ext_in. intros k Hk. apply in_seq in Hk.
  f_equal. apply field_field; lia.
Qed.

Lemma decode_packed (codes : list Z) :
  List.length codes = spw -> Forall (fun c => 0 <= c < 2 ^ bps) codes ->
  flat_map (lut OPT bps) (word_bytes (pack bps codes)) = map (level OPT bps) codes.
Proof.
  intros Hl Hc. rewrite decode_word.
  transitivity (map (level OPT bps) (map (fun k => nth k codes 0) (seq 0 spw))).
  - rewrite map_map. apply map_ext. intros m. f_equal.
    apply field_pack; [destruct Hbps; lia | assumption].
  - rewrite <- Hl, map_nth_seq. reflexivity.
Qed.

(** *** The nearest code *)

Lemma nearest_spec (x : Q) : forall codes best,
  let r := nearest OPT bps x best codes in
  (r = best \/ In r codes)
  /\ forall c, c = best \/ In c codes ->
              (Qabs (x - level OPT bps r) <= Qabs (x - level OPT bps c))%Q.
Proof.
  induction codes as [|c codes IH]; intros best r.
  - split; [left; reflexivity|]. intros c [-> | []]. apply Qle_refl.
  - subst r. cbn [nearest].
    destruct (Qlt_le_dec (Qabs (x - level OPT bps c)) (Qabs (x - level OPT bps best)))
      as [Hlt|Hle].
    + destruct (IH c) as [Hin Hmin]. split.
      * destruct Hin as [-> | Hin]; [right; left; reflexivity | right; right; assumption].
      * intros c' [-> | [-> | Hc']].
        -- eapply Qle_trans; [apply Hmin; left; reflexivity|]. apply Qlt_le_weak. assumption.
        -- apply Hmin. left. reflexivity.
        -- apply Hmin. right. assumption.
    + destruct (IH best) as [Hin Hmin]. split.
      * destruct Hin as [-> | Hin]; [left; reflexivity | right; right; assumption].
      * intros c' [-> | [-> | Hc']].
        -- apply Hmin. left. reflexivity.
        -- eapply Qle_trans; [apply Hmin; left; reflexivity|]. assumption.
        -- apply Hmin. right. assumption.
Qed.

Lemma Qabs_le_0 (a : Q) : (Qabs a <= 0)%Q -> (a == 0)%Q.
Proof. apply Qabs_case; intros; lra. Qed.

Lemma nearest_code_range (x : Q) : 0 <= nearest_code OPT bps x < 2 ^ bps.
Proof.
  unfold nearest_code. destruct (nearest_spec x
    (map Z.of_nat (seq 1 (List.length (alphabet OPT bps) - 1))) 0) as [Hin _].
  destruct Hbps as [-> | ->]; cbn in Hin |- *; intuition lia.
Qed.

(** At a level of the alphabet the nearest code is the code of that
    level. *)
Lemma level_nearest_code (x : Q) :
  In x (alphabet OPT bps) -> level OPT bps (nearest_code OPT bps x) = x.
Proof.
  intros Hx. unfold nearest_code.
  destruct (nearest_spec x
    (map Z.of_nat (seq 1 (List.length (alphabet OPT bps) - 1))) 0) as [Hin Hmin].
  set (r := nearest OPT bps x 0 _) in *. clearbody r.
  assert (Hzero : forall c, (c = 0 \/ In c (map Z.of_nat (seq 1 (List.length (alphabet OPT bps) - 1)))) ->
            level OPT bps c = x -> (x == level OPT bps r)%Q).
  { intros c Hc Hl. specialize (Hmin c Hc). rewrite Hl in Hmin.
    assert (E : (Qabs (x - x) == 0)%Q).
    { setoid_replace (x - x)%Q with 0%Q by ring. reflexivity. }
    rewrite E in Hmin. apply Qabs_le_0 in Hmin. lra. }
  destruct Hbps as [-> | ->].
  - change (alphabet OPT 1) with [(- (1))%Q; 1%Q] in *.
    cbn [List.length Nat.sub seq map In Z.of_nat Pos.of_succ_nat Pos.succ] in Hin.
    clear Hmin.
    destruct Hx as [<- | [<- | []]].
    + specialize (Hzero 0 ltac:(auto) eq_refl).
      destruct Hin as [-> | [<- | []]]; [reflexivity|].
      change (level OPT 1 1) with 1%Q in Hzero. lra.
    + specialize (Hzero 1 ltac:(right; left; reflexivity) eq_refl).
      destruct Hin as [-> | [<- | []]]; [|reflexivity].
      change (level OPT 1 0) with (- (1))%Q in Hzero. lra.
  - change (alphabet OPT 2) with [(- OPT)%Q; 1%Q; (- (1))%Q; OPT] in *.
    cbn [List.length Nat.sub seq map In Z.of_nat Pos.of_succ_nat Pos.succ] in Hin.
    clear Hmin.
    destruct Hx as [<- | [<- | [<- | [<- | []]]]].
    + specialize (Hzero 0 ltac:(auto) eq_refl).
      destruct Hin as [-> | [<- | [<- | [<- | []]]]]; try reflexivity;
        [change (level OPT 2 1) with 1%Q in Hzero
        |change (level OPT 2 2) with (- (1))%Q in Hzero
        |change (level OPT 2 3) with OPT in Hzero]; lra.
    + specialize (Hzero 1 ltac:(right; left; reflexivity) eq_refl).
      destruct Hin as [-> | [<- | [<- | [<- | []]]]]; try reflexivity;
        [change (level OPT 2 0) with (- OPT)%Q in Hzero
        |change (level OPT 2 2) with (- (1))%Q in Hzero
        |change (level OPT 2 3) with OPT in Hzero]; lra.
    + specialize (Hzero 2 ltac:(right; right; left; reflexivity) eq_refl).
      destruct Hin as [-> | [<- | [<- | [<- | []]]]]; try reflexivity;
        [change (level OPT 2 0) with (- OPT)%Q in Hzero
        |change (level OPT 2 1) with 1%Q in Hzero
        |change (level OPT 2 3) with OPT in Hzero]; lra.
    + specialize (Hzero 3 ltac:(right; right; right; left; reflexivity) eq_refl).
      destruct Hin as [-> | [<- | [<- | [<- | []]]]]; try reflexivity;
        [change (level OPT 2 0) with (- OPT)%Q in Hzero
        |change (level OPT 2 1) with 1%Q in Hzero
        |change (level OPT 2 2) with (- (1))%Q in Hzero]; lra.
Qed.
End CodecFacts.

Lemma flat_map_packed (OPT : Q) (bps : Z) (chunks : list (list Z)) :
  bps = 1 \/ bps = 2 ->
  Forall (fun c => List.length c = Z.to_nat (32 / bps)
                   /\ Forall (fun x => 0 <= x < 2 ^ bps) c) chunks ->
  flat_map (fun word => flat_map (lut OPT bps) (word_bytes word)) (map (pack bps) chunks)
  = map (level OPT bps) (List.concat chunks).
Proof.
  intros Hbps H. induction H as [|c chunks [Hl Hc] _ IH]; [reflexivity|].
  cbn [map flat_map List.concat]. rewrite map_app, IH.
  rewrite (decode_packed OPT bps Hbps) by assumption. reflexivity.
Qed.

(** C7: for one or two bits per sample and a high level [OPT > 1],
    decoding the words encoded from rows of [nchan] samples, all of them
    values of the quantization alphabet and together filling whole 32-bit
    words, gives the rows back exactly. *)
Theorem payload_roundtrip (OPT : Q) (bps : Z) (nchan : nat) (samples : list (list Q)) :
  (1 < OPT)%Q -> bps = 1 \/ bps = 2 -> (0 < nchan)%nat ->
  Forall (fun row => List.length row = nchan
                     /\ Forall (fun x => In x (alphabet OPT bps)) row) samples ->
  (exists m, List.length (List.concat samples) = (m * Z.to_nat (32 / bps))%nat) ->
  decode OPT bps nchan (encode OPT bps samples) = samples.
Proof.
  intros HOPT Hbps Hn Hrows [m Hm].
  destruct (per_spec bps Hbps) as (_ & _ & Hspw).
  unfold decode, encode.
  set (codes := map (nearest_code OPT bps) (List.concat samples)).
  rewrite (flat_map_packed OPT bps _ Hbps).
  - rewrite chunks_concat by assumption. subst codes. rewrite map_map.
    rewrite (map_ext_in _ (fun x => x)).
    + rewrite map_id. apply chunks_rows; [assumption|].
      eapply Forall_impl; [|exact Hrows]. cbn beta. intros row [H _]. exact H.
    + intros x Hx. apply level_nearest_code; try assumption.
      apply in_concat in Hx. destruct Hx as (row & Hrow & Hx).
      rewrite Forall_forall in Hrows. destruct (Hrows row Hrow) as [_ Hal].
      rewrite Forall_forall in Hal. auto.
  - assert (Hfull : Forall (fun c => List.length c = Z.to_nat (32 / bps))
                      (chunks (Z.to_nat (32 / bps)) codes)).
    { apply (chunks_aux_full _ Hspw m). subst codes. rewrite length_map. exact Hm. }
    assert (Hrange : Forall (fun x => 0 <= x < 2 ^ bps) codes).
    { subst codes. apply Forall_map. apply Forall_forall. intros x _.
      apply nearest_code_range; assumption. }
    rewrite Forall_forall in Hfull, Hrange. apply Forall_forall. intros c Hc. split; [auto|].
    apply Forall_forall. intros x Hx. apply Hrange.
    rewrite <- (chunks_concat (Z.to_nat (32 / bps)) codes Hspw).
    apply in_concat. eauto.
Qed.

Lemma payload_roundtrip_witness :
  decode (33359 # 10000) 2 8
    (encode (33359 # 10000) 2
       [[1; - (1); 33359 # 10000; - (33359 # 10000); 1; 1; 1; 1]%Q;
        [1; - (1); 33359 # 10000; - (33359 # 10000); - (33359 # 10000); 33359 # 10000; 1; 1]%Q])
  = [[1; - (1); 33359 # 10000; - (33359 # 10000); 1; 1; 1; 1]%Q;
     [1; - (1); 33359 # 10000; - (33359 # 10000); - (33359 # 10000); 33359 # 10000; 1; 1]%Q].
Proof.
  apply payload_roundtrip.
  - reflexivity.
  - right. reflexivity.
  - apply Nat.lt_0_succ.
  - change (alphabet (33359 # 10000) 2)
      with [(- (33359 # 10000))%Q; 1%Q; (- (1))%Q; (33359 # 10000)%Q].
    repeat (apply Forall_cons || apply Forall_nil || split); try reflexivity;
      cbn [In]; auto 6.
  - exists 1%nat. reflexivity.
Defined.

(** ** Greatest common divisor and least common multiple *)

(** The loop returns within [|b|] turns; its result is the greatest common
    divisor up to sign, and takes the sign of a divisor that is not zero. *)
Lemma gcd_loop_spec (fuel : nat) : forall a b, Z.abs b <= Z.of_nat fuel ->
  exists g, gcd_loop fuel a b = Some g
            /\ Z.abs g = Z.gcd a b
            /\ (0 < b -> 0 < g) /\ (b < 0 -> g < 0) /\ (b = 0 -> g = a).
Proof.
  induction fuel as [|f IH]; intros a b Hb.
  - assert (b = 0) by lia. subst b. exists a. cbn.
    rewrite Z.gcd_0_r. repeat split; lia.
  - cbn [gcd_loop]. destruct (b =? 0) eqn:E.
    + apply Z.eqb_eq in E. subst b. exists a.
      rewrite Z.gcd_0_r. repeat split; lia.
    + apply Z.eqb_neq in E.
      assert (Hm : Z.abs (a mod b) < Z.abs b).
      { destruct (Z.lt_ge_cases 0 b) as [P|N].
        - pose proof (Z.mod_pos_bound a b P). lia.
        - pose proof (Z.mod_neg_bound a b ltac:(lia)). lia. }
      destruct (IH b (a mod b) ltac:(lia)) as (g & Hg & Habs & Hpos & Hneg & Hz).
      exists g. split; [exact Hg|]. split.
      * rewrite Habs, Z.gcd_comm, Z.gcd_mod by assumption. apply Z.gcd_comm.
      * destruct (Z.eq_dec (a mod b) 0) as [M|M].
        -- specialize (Hz M). subst g. repeat split; lia.
        -- split; [|split; [|lia]].
           ++ intros P. apply Hpos. pose proof (Z.mod_pos_bound a b P). lia.
           ++ intros N. apply Hneg. pose proof (Z.mod_neg_bound a b N). lia.
Qed.

(** X1: [gcd] returns the greatest common divisor of its arguments up to
    sign, for all integers. *)
Theorem gcd_is_gcd (a b : Z) :
  exists g, gcd a b = Some g
            /\ Z.abs g = Z.gcd a b
            /\ (g | a) /\ (g | b)
            /\ (forall d, (d | a) -> (d | b) -> (d | g)).
Proof.
  destruct (gcd_loop_spec (Z.to_nat (Z.abs b)) a b ltac:(lia)) as (g & Hg & Habs & _).
  exists g. split; [exact Hg|]. split; [exact Habs|].
  assert (Hd : forall x, (Z.gcd a b | x) -> (g | x)).
  { intros x Hx. apply Z.divide_abs_l. rewrite Habs. exact Hx. }
  split; [apply Hd, Z.gcd_divide_l|]. split; [apply Hd, Z.gcd_divide_r|].
  intros d Ha Hb. apply Z.divide_abs_r. rewrite Habs. apply Z.gcd_greatest; assumption.
Qed.

(** X2: Unless [b] is zero, the result of [gcd] has the sign of [b]; for
    [b = 0] it is [a] itself, whatever its sign. *)
Theorem gcd_sign (a b : Z) :
  exists g, gcd a b = Some g
            /\ Z.sgn g = (if b =? 0 then Z.sgn a else Z.sgn b)
            /\ (b = 0 -> g = a).
Proof.
  destruct (gcd_loop_spec (Z.to_nat (Z.abs b)) a b ltac:(lia))
    as (g & Hg & _ & Hpos & Hneg & Hz).
  exists g. split; [exact Hg|]. split; [|exact Hz].
  destruct (b =? 0) eqn:E.
  - apply Z.eqb_eq in E. rewrite (Hz E). reflexivity.
  - apply Z.eqb_neq in E. destruct (Z.lt_ge_cases 0 b) as [P|N].
    + specialize (Hpos P). rewrite !Z.sgn_pos by assumption. reflexivity.
    + specialize (Hneg ltac:(lia)). rewrite !Z.sgn_neg by lia. reflexivity.
Qed.

Lemma lcm_abs_product (a b : Z) : Z.abs (a * b) = Z.lcm a b * Z.gcd a b.
Proof.
  destruct (Z.eq_dec (Z.gcd a b) 0) as [G|G].
  - apply Z.gcd_eq_0 in G. destruct G as [-> ->]. reflexivity.
  - unfold Z.lcm. destruct (Z.gcd_divide_r a b) as [q Hq].
    rewrite Hq at 2. rewrite Z.div_mul by assumption.
    rewrite Hq at 1. rewrite Z.mul_assoc, !Z.abs_mul.
    rewrite (Z.abs_eq (Z.gcd a b)) by apply Z.gcd_nonneg. reflexivity.
Qed.

(** X3: [lcm] raises [ZeroDivisionError] exactly when both arguments are zero;
    otherwise it returns the least common multiple with the sign of [b]:
    negative for a negative [b] and a non-zero [a]. *)
Theorem lcm_signed (a b : Z) :
  lcm a b = Some (if (a =? 0) && (b =? 0) then ZeroDivisionError
                  else Quotient (Z.sgn b * Z.lcm a b)).
Proof.
  unfold lcm.
  destruct (gcd_loop_spec (Z.to_nat (Z.abs b)) a b ltac:(lia))
    as (g & Hg & Habs & Hpos & Hneg & Hz).
  unfold gcd. rewrite Hg. cbn [option_map]. f_equal. unfold floordiv.
  pose proof (lcm_abs_product a b) as P.
  destruct (g =? 0) eqn:E.
  - apply Z.eqb_eq in E. subst g. cbn in Habs. symmetry in Habs.
    apply Z.gcd_eq_0 in Habs. destruct Habs as [-> ->]. reflexivity.
  - apply Z.eqb_neq in E.
    replace ((a =? 0) && (b =? 0)) with false.
    2:{ symmetry. apply andb_false_iff.
        destruct (Z.eq_dec a 0) as [A|A]; [|left; apply Z.eqb_neq; assumption].
        destruct (Z.eq_dec b 0) as [B|B]; [|right; apply Z.eqb_neq; assumption].
        subst. specialize (Hz eq_refl). lia. }
    f_equal. rewrite P.
    destruct (Z.lt_trichotomy b 0) as [N | [B | Q]].
    + specialize (Hneg N). rewrite Z.sgn_neg by assumption.
      replace (Z.gcd a b) with (- g) by lia.
      replace (Z.lcm a b * - g) with ((-1 * Z.lcm a b) * g) by lia.
      apply Z.div_mul. assumption.
    + subst b. rewrite Z.lcm_0_r. cbn. reflexivity.
    + specialize (Hpos Q). rewrite Z.sgn_pos by assumption.
      replace (Z.gcd a b) with g by lia.
      rewrite Z.mul_1_l. apply Z.div_mul. assumption.
Qed.

(** ** BCD codec: signs, the other round trip, order *)

(** A minus sign in front of the digits negates what [int] reads. *)
Lemma int_of_string_format_opp (b' b n : Z) : 2 <= b <= 36 -> 0 < n ->
  int_of_string b' (format_base b (- n))
  = option_map Z.opp (int_of_string b' (format_base b n)).
Proof.
  intros Hb Hn. rewrite (int_of_string_format b' b n) by lia.
  unfold int_of_string, format_base.
  rewrite list_ascii_of_string_of_list_ascii.
  replace (- n <? 0) with true by (symmetry; apply Z.ltb_lt; lia).
  replace (Z.abs (- n)) with n by lia.
  cbn [app].
  replace (Ascii.eqb "-" "-") with true by reflexivity.
  assert (R : Forall (fun d => 0 <= d < 36) (digits b n)).
  { eapply Forall_impl; [|apply digits_range; lia]. cbn. intros; lia. }
  rewrite <- int_digits_rev by assumption.
  destruct (rev (digits b n)) as [|d l] eqn:E.
  - exfalso. apply (digits_nonempty b n).
    rewrite <- (rev_involutive (digits b n)), E. reflexivity.
  - reflexivity.
Qed.

Lemma bcd_encode_int_opp_pos (n : Z) : 0 < n ->
  bcd_encode_int (- n) = Return (- bcd_pack n).
Proof.
  intros Hn. pose proof (bcd_encode_int_pack n ltac:(lia)) as P.
  unfold bcd_encode_int, format_d in *.
  rewrite int_of_string_format_opp by lia.
  destruct (int_of_string 16 (format_base 10 n)); [|discriminate].
  injection P as ->. reflexivity.
Qed.

Lemma bcd_decode_int_opp_pos (v : Z) : 0 < v ->
  bcd_decode_int (- v)
  = if bcd_valid v then Return (- bcd_unpack v) else Raise (InvalidBCD (- v)).
Proof.
  intros Hv. pose proof (bcd_decode_int_unpack v ltac:(lia)) as P.
  unfold bcd_decode_int, format_x in *.
  rewrite int_of_string_format_opp by lia.
  destruct (int_of_string 10 (format_base 16 v)), (bcd_valid v); try discriminate.
  - injection P as ->. reflexivity.
  - reflexivity.
Qed.

(** X4: On a Python [int] of either sign [bcd_encode] returns, and the sign
    passes through: the encoding of [- n] is minus the encoding of [n]. *)
Theorem bcd_encode_scalar_sign (n : Z) :
  exists e, bcd_encode (PyInt n) = Some (Return (PyInt e))
            /\ bcd_encode (PyInt (- n)) = Some (Return (PyInt (- e)))
            /\ Z.sgn e = Z.sgn n.
Proof.
  cbn [bcd_encode].
  destruct (Z.lt_trichotomy n 0) as [N | [-> | P]].
  - exists (- bcd_pack (- n)).
    replace n with (- - n) at 1 by lia.
    rewrite bcd_encode_int_opp_pos by lia. rewrite Z.opp_involutive.
    rewrite bcd_encode_int_pack by lia. cbn [outcome_map].
    split; [reflexivity|]. split; [reflexivity|].
    pose proof (bcd_pack_ge (- n) ltac:(lia)).
    rewrite !Z.sgn_neg by lia. reflexivity.
  - exists 0. repeat split.
  - exists (bcd_pack n). rewrite bcd_encode_int_opp_pos, bcd_encode_int_pack by lia.
    cbn [outcome_map]. split; [reflexivity|]. split; [reflexivity|].
    pose proof (bcd_pack_ge n ltac:(lia)).
    rewrite !Z.sgn_pos by lia. reflexivity.
Qed.

(** X5: On a Python [int] the sign passes through [bcd_decode] too: [- v]
    decodes to minus what [v] decodes to, and is refused, with its own raw
    value reported, whenever [v] is. *)
Theorem bcd_decode_scalar_sign (v : Z) :
  bcd_decode_int (- v)
  = match bcd_decode_int v with
    | Return r => Return (- r)
    | Raise _ => Raise (InvalidBCD (- v))
    end.
Proof.
  destruct (Z.lt_trichotomy v 0) as [N | [-> | P]].
  - replace v with (- - v) at 2 by lia.
    rewrite (bcd_decode_int_opp_pos (- v)) by lia.
    rewrite (bcd_decode_int_unpack (- v)) by lia.
    destruct (bcd_valid (- v)); [|reflexivity].
    rewrite Z.opp_involutive. reflexivity.
  - reflexivity.
  - rewrite bcd_decode_int_opp_pos, bcd_decode_int_unpack by lia.
    destruct (bcd_valid v); reflexivity.
Qed.

(** *** Encoding what was decoded *)

Lemma bcd_unpack_pos (v : Z) : 1 <= v -> 1 <= bcd_unpack v.
Proof.
  intros Hv. assert (H0 : 0 <= v) by lia. revert v H0 Hv.
  apply (Z_strong_ind (fun v => 1 <= v -> 1 <= bcd_unpack v)).
  intros v Hv IH H1. rewrite bcd_unpack_eq by assumption.
  destruct (v <? 16) eqn:E; [assumption|]. apply Z.ltb_ge in E.
  assert (Hq : 0 <= v / 16 < v) by (split; [apply Z.div_pos; lia | apply Z.div_lt; lia]).
  assert (Hq1 : 1 <= v / 16) by (apply Z.div_le_lower_bound; lia).
  specialize (IH _ Hq Hq1).
  pose proof (Z.mod_pos_bound v 16 ltac:(lia)). lia.
Qed.

Lemma bcd_pack_unpack (v : Z) : 0 <= v -> bcd_valid v = true ->
  bcd_pack (bcd_unpack v) = v.
Proof.
  revert v. apply (Z_strong_ind (fun v => bcd_valid v = true -> bcd_pack (bcd_unpack v) = v)).
  intros v Hv IH Hval.
  rewrite bcd_valid_eq in Hval by assumption.
  rewrite bcd_unpack_eq by assumption.
  destruct (v <? 16) eqn:E.
  - apply Z.ltb_lt in Hval. rewrite bcd_pack_eq by assumption.
    replace (v <? 10) with true by (symmetry; apply Z.ltb_lt; lia). reflexivity.
  - apply Z.ltb_ge in E. apply andb_true_iff in Hval. destruct Hval as [Hd Hq].
    apply Z.ltb_lt in Hd.
    assert (Q : 0 <= v / 16 < v) by (split; [apply Z.div_pos; lia | apply Z.div_lt; lia]).
    assert (Q1 : 1 <= v / 16) by (apply Z.div_le_lower_bound; lia).
    pose proof (bcd_unpack_pos (v / 16) Q1) as U.
    pose proof (Z.mod_pos_bound v 16 ltac:(lia)) as M.
    rewrite bcd_pack_eq by lia.
    replace (v mod 16 + 10 * bcd_unpack (v / 16) <? 10) with false
      by (symmetry; apply Z.ltb_ge; lia).
    replace ((v mod 16 + 10 * bcd_unpack (v / 16)) mod 10) with (v mod 16).
    2:{ apply Z.mod_unique with (q := bcd_unpack (v / 16)); lia. }
    replace ((v mod 16 + 10 * bcd_unpack (v / 16)) / 10) with (bcd_unpack (v / 16)).
    2:{ apply Z.div_unique with (r := v mod 16); lia. }
    rewrite (IH (v / 16) Q Hq). pose proof (Z.div_mod v 16). lia.
Qed.

Lemma existsb_pos_unpack (a : list Z) : Forall (fun v => 0 <= v) a ->
  existsb (fun x => 0 <? x) (map bcd_unpack a) = existsb (fun x => 0 <? x) a.
Proof.
  intros H. induction H as [|v a Hv _ IH]; [reflexivity|].
  cbn [map existsb]. rewrite IH. f_equal.
  destruct (Z.eq_dec v 0) as [->|N]; [reflexivity|].
  pose proof (bcd_unpack_pos v ltac:(lia)).
  transitivity true; [apply Z.ltb_lt; lia | symmetry; apply Z.ltb_lt; lia].
Qed.

(** X6: The round trip in the other direction: whatever [bcd_decode] returns
    for a non-negative raw value, or for an array of non-negative raw
    values of its dtype, [bcd_encode] turns back into that input (into the
    Python 0 when the array holds no positive element); and the decoded
    array has the length of its input. *)
Theorem bcd_decode_then_encode (dt : dtype) (v : Z) (a : list Z) :
  0 <= v -> Forall (fun x => 0 <= x <= dtype_max dt) a ->
  (forall u, bcd_decode (PyInt v) = Some (Return (PyInt u)) ->
             bcd_encode (PyInt u) = Some (Return (PyInt v)))
  /\ (forall d, bcd_decode (NdArray dt a) = Some (Return d) ->
        exists d', d = NdArray dt d' /\ List.length d' = List.length a
          /\ bcd_encode d
             = Some (Return (if existsb (fun x => 0 <? x) a then NdArray dt a else PyInt 0))).
Proof.
  intros Hv Ha. split.
  - intros u Hu. cbn [bcd_decode bcd_encode] in *.
    rewrite bcd_decode_int_unpack in Hu by assumption.
    destruct (bcd_valid v) eqn:E; [|discriminate].
    cbn [outcome_map] in Hu. injection Hu as <-.
    pose proof (bcd_unpack_le v Hv).
    rewrite bcd_encode_int_pack by lia. rewrite bcd_pack_unpack by assumption.
    reflexivity.
  - intros d Hd. cbn [bcd_decode] in Hd.
    assert (Ha0 : Forall (fun x => 0 <= x) a).
    { eapply Forall_impl; [|exact Ha]. cbn beta. intros; lia. }
    destruct (forallb bcd_valid a) eqn:E.
    + rewrite bcd_decode_array_valid in Hd by assumption.
      cbn [option_map outcome_map] in Hd. injection Hd as <-.
      exists (map bcd_unpack a). split; [reflexivity|].
      split; [apply length_map|].
      assert (Hback : map bcd_pack (map bcd_unpack a) = a).
      { rewrite map_map. rewrite <- (map_id a) at 2. apply map_ext_in. intros x Hx.
        rewrite forallb_forall in E. rewrite Forall_forall in Ha0.
        apply bcd_pack_unpack; auto. }
      cbn [bcd_encode]. rewrite bcd_encode_array_spec.
      * rewrite existsb_pos_unpack, Hback by assumption. reflexivity.
      * apply Forall_map. apply Forall_forall. intros x Hx.
        rewrite forallb_forall in E. rewrite Forall_forall in Ha.
        specialize (Ha x Hx). pose proof (bcd_unpack_le x ltac:(lia)).
        rewrite bcd_pack_unpack by (try apply E; try assumption; lia). lia.
    + destruct (bcd_decode_array_invalid dt a Ha E) as (x & j & Hrun & _).
      rewrite Hrun in Hd. discriminate.
Qed.

Lemma bcd_decode_then_encode_witness :
  bcd_encode (PyInt 821) = Some (Return (PyInt 0x821))
  /\ bcd_encode (NdArray uint16 [821; 0; 1980])
     = Some (Return (NdArray uint16 [0x821; 0; 0x1980])).
Proof.
  assert (Hv : 0 <= 0x821) by lia.
  assert (Ha : Forall (fun x => 0 <= x <= dtype_max uint16) [0x821; 0; 0x1980]).
  { repeat constructor; vm_compute; congruence. }
  destruct (bcd_decode_then_encode uint16 0x821 [0x821; 0; 0x1980] Hv Ha) as [H1 H2].
  split; [exact (H1 821 eq_refl)|].
  destruct (H2 (NdArray uint16 [821; 0; 1980]) eq_refl) as (d' & _ & _ & H). exact H.
Defined.

(** *** Order *)

Lemma bcd_pack_lt (n : Z) : 0 <= n -> forall m, 0 <= m < n -> bcd_pack m < bcd_pack n.
Proof.
  revert n.
  apply (Z_strong_ind (fun n => forall m, 0 <= m < n -> bcd_pack m < bcd_pack n)).
  intros n Hn IH m Hm.
  rewrite (bcd_pack_step m), (bcd_pack_step n) by lia.
  pose proof (Z.mod_pos_bound m 10 ltac:(lia)) as Mm.
  pose proof (Z.mod_pos_bound n 10 ltac:(lia)) as Mn.
  pose proof (Z.div_mod m 10 ltac:(lia)) as Dm.
  pose proof (Z.div_mod n 10 ltac:(lia)) as Dn.
  assert (Hq : m / 10 <= n / 10) by (apply Z.div_le_mono; lia).
  destruct (Z.eq_dec (m / 10) (n / 10)) as [Q|Q].
  - rewrite Q. lia.
  - assert (Hn10 : 0 <= n / 10 < n).
    { split; [apply Z.div_pos; lia|]. apply Z.div_lt; lia. }
    assert (Hm10 : 0 <= m / 10) by (apply Z.div_pos; lia).
    specialize (IH (n / 10) Hn10 (m / 10) ltac:(lia)). lia.
Qed.

(** X7: [bcd_encode] keeps the order of non-negative integers: a larger
    number has a larger BCD value, so BCD fields compare as the numbers
    they hold (and distinct numbers never share an encoding). *)
Theorem bcd_encode_increasing (m n : Z) :
  0 <= m < n ->
  exists e f, bcd_encode (PyInt m) = Some (Return (PyInt e))
              /\ bcd_encode (PyInt n) = Some (Return (PyInt f))
              /\ e < f.
Proof.
  intros H. exists (bcd_pack m), (bcd_pack n). cbn [bcd_encode].
  rewrite !bcd_encode_int_pack by lia. cbn [outcome_map].
  split; [reflexivity|]. split; [reflexivity|]. apply bcd_pack_lt; lia.
Qed.

Lemma bcd_encode_increasing_witness :
  exists e f, bcd_encode (PyInt 99) = Some (Return (PyInt e))
              /\ bcd_encode (PyInt 100) = Some (Return (PyInt f))
              /\ e < f.
Proof. apply bcd_encode_increasing. lia. Defined.

(** *** Digits *)

Lemma bcd_pack_nibble (k : nat) : forall n, 0 <= n ->
  nibble k (bcd_pack n) = (n / 10 ^ Z.of_nat k) mod 10.
Proof.
  induction k as [|k IH]; intros n Hn.
  - rewrite nibble_0, bcd_pack_step by assumption.
    change (10 ^ Z.of_nat 0) with 1. rewrite Z.div_1_r.
    pose proof (Z.mod_pos_bound n 10 ltac:(lia)).
    symmetry. apply Z.mod_unique with (q := bcd_pack (n / 10)); lia.
  - rewrite nibble_S, bcd_pack_step by assumption.
    pose proof (Z.mod_pos_bound n 10 ltac:(lia)).
    replace ((n mod 10 + 16 * bcd_pack (n / 10)) / 16) with (bcd_pack (n / 10)).
    2:{ apply Z.div_unique with (r := n mod 10); lia. }
    rewrite IH by (apply Z.div_pos; lia).
    rewrite Nat2Z.inj_succ, Z.pow_succ_r by lia.
    rewrite Z.div_div by (try apply Z.pow_pos_nonneg; lia). reflexivity.
Qed.

(** X8: What the encoding is: hexadecimal digit [k] of the BCD value of a
    non-negative [n] is decimal digit [k] of [n], for every position. *)
Theorem bcd_encode_nibbles (n : Z) (k : nat) :
  0 <= n ->
  exists e, bcd_encode (PyInt n) = Some (Return (PyInt e))
            /\ nibble k e = (n / 10 ^ Z.of_nat k) mod 10.
Proof.
  intros Hn. exists (bcd_pack n). cbn [bcd_encode].
  rewrite bcd_encode_int_pack by assumption. split; [reflexivity|].
  apply bcd_pack_nibble. assumption.
Qed.

Lemma bcd_encode_nibbles_witness :
  exists e, bcd_encode (PyInt 19801) = Some (Return (PyInt e))
            /\ nibble 3 e = (19801 / 10 ^ Z.of_nat 3) mod 10.
Proof. apply bcd_encode_nibbles. lia. Defined.

(** ** CRC engine: construction, linearity, what [check] accepts *)

(** X9: A negative polynomial is refused (its binary string starts with a
    minus sign, which [int] cannot read on its own); any other polynomial
    gives an engine whose [pol_bin] holds the binary digits of the
    polynomial, leading digit first, and whose length is the position of
    the leading digit. *)
Theorem CRC_init_polynomial (p : Z) :
  if p <? 0 then CRC_init p = Raise IntParseError
  else exists crc, CRC_init p = Return crc
         /\ polynomial crc = p
         /\ CRC_len crc = Z.log2 p
         /\ forall k : nat, nth k (rev (pol_bin crc)) 0 = Z.b2z (Z.testbit p (Z.of_nat k)).
Proof.
  destruct (p <? 0) eqn:E.
  - apply Z.ltb_lt in E. apply CRC_init_negative. assumption.
  - apply Z.ltb_ge in E. exists (mkCRC p (rev (digits 2 p))).
    split; [apply CRC_init_bits; assumption|]. split; [reflexivity|].
    cbn [pol_bin]. split.
    + unfold CRC_len. cbn [pol_bin]. rewrite length_rev.
      destruct (Z.eq_dec p 0) as [->|N]; [reflexivity|].
      rewrite digits2_length by lia. pose proof (Z.log2_nonneg p). lia.
    + intros k. rewrite rev_involutive. apply digits2_nth. assumption.
Qed.

(** *** Linearity *)

Lemma xor_streams_app (a1 b1 a2 b2 : list Z) : List.length a1 = List.length b1 ->
  xor_streams (a1 ++ a2) (b1 ++ b2) = xor_streams a1 b1 ++ xor_streams a2 b2.
Proof.
  revert b1. induction a1 as [|x a1 IH]; intros [|y b1] L; try discriminate.
  - reflexivity.
  - unfold xor_streams in *. cbn [app combine map]. rewrite IH by (cbn in L; lia).
    reflexivity.
Qed.

Lemma xor_streams_zeros_r (a : list Z) :
  xor_streams a (repeat 0 (List.length a)) = a.
Proof.
  unfold xor_streams. induction a as [|x a IH]; [reflexivity|].
  cbn [List.length repeat combine map fst snd]. rewrite Z.lxor_0_r, IH. reflexivity.
Qed.

Lemma xor_streams_zeros_l (a : list Z) :
  xor_streams (repeat 0 (List.length a)) a = a.
Proof.
  unfold xor_streams. induction a as [|x a IH]; [reflexivity|].
  cbn [List.length repeat combine map fst snd]. rewrite Z.lxor_0_l, IH. reflexivity.
Qed.

Lemma xor_streams_zeros (n : nat) :
  xor_streams (repeat 0 n) (repeat 0 n) = repeat 0 n.
Proof.
  rewrite <- (repeat_length 0 n) at 1. apply xor_streams_zeros_l.
Qed.

Lemma skipn_xor_streams (n : nat) : forall a b,
  skipn n (xor_streams a b) = xor_streams (skipn n a) (skipn n b).
Proof.
  unfold xor_streams. induction n as [|n IH]; intros a b; [reflexivity|].
  destruct a as [|x a]; [reflexivity|].
  destruct b as [|y b].
  - cbn [combine map skipn]. rewrite combine_nil. reflexivity.
  - cbn [combine map skipn]. apply IH.
Qed.

Lemma py_slice_xor_streams (start : Z) (a b : list Z) :
  List.length a = List.length b ->
  py_slice_from start (xor_streams a b)
  = xor_streams (py_slice_from start a) (py_slice_from start b).
Proof.
  intros L. unfold py_slice_from.
  rewrite xor_streams_length, <- L by assumption. apply skipn_xor_streams.
Qed.

Lemma crc_xor (w : Z) (self : CRC) (a b : list Z) :
  List.length a = List.length b ->
  _crc w self (xor_streams a b) = xor_streams (_crc w self a) (_crc w self b).
Proof.
  intros L. unfold _crc, crc_divide.
  rewrite xor_streams_length, <- L by assumption.
  rewrite crc_fold_linear by assumption.
  apply py_slice_xor_streams. rewrite !crc_fold_length. assumption.
Qed.

(** X10: The CRC is linear for XOR: the CRC of the element-wise XOR of two
    streams of one length is the XOR of their CRCs. *)
Theorem crc_call_xor (w : Z) (self : CRC) (a b : list Z) :
  List.length a = List.length b ->
  CRC_call w self (xor_streams a b)
  = xor_streams (CRC_call w self a) (CRC_call w self b).
Proof.
  intros L. unfold CRC_call.
  rewrite <- crc_xor by (rewrite !length_app; lia).
  f_equal. rewrite xor_streams_app by assumption.
  rewrite xor_streams_zeros. reflexivity.
Qed.

Lemma crc_call_xor_witness :
  CRC_call 8 (mkCRC 0x180f [1; 1; 0; 0; 0; 0; 0; 0; 0; 1; 1; 1; 1])
    (xor_streams [5; 0; 255] [17; 42; 3])
  = xor_streams
      (CRC_call 8 (mkCRC 0x180f [1; 1; 0; 0; 0; 0; 0; 0; 0; 1; 1; 1; 1]) [5; 0; 255])
      (CRC_call 8 (mkCRC 0x180f [1; 1; 0; 0; 0; 0; 0; 0; 0; 1; 1; 1; 1]) [17; 42; 3]).
Proof. apply crc_call_xor. reflexivity. Defined.

(** *** Streams of zeros *)

Lemma crc_zeros (w : Z) (self : CRC) (n : nat) :
  Forall (fun x => x = 0) (_crc w self (repeat 0 n)).
Proof.
  unfold _crc, crc_divide. rewrite crc_fold_idle by (intros; apply nth_zeros).
  unfold py_slice_from. apply Forall_skipn.
  apply Forall_forall. intros x Hx. apply repeat_spec in Hx. assumption.
Qed.

(** X11: A stream of zeros of any length, the empty one included, has an
    all-zero CRC and passes [check], whatever the polynomial. *)
Theorem crc_zero_stream (w : Z) (self : CRC) (n : nat) :
  Forall (fun x => x = 0) (CRC_call w self (repeat 0 n))
  /\ CRC_check w self (repeat 0 n) = true.
Proof.
  split.
  - unfold CRC_call. rewrite <- repeat_app. apply crc_zeros.
  - unfold CRC_check. apply forallb_forall. intros x Hx.
    pose proof (crc_zeros w self n) as Z0. rewrite Forall_forall in Z0.
    rewrite (Z0 x Hx). reflexivity.
Qed.

(** *** What [check] accepts *)

Lemma xor_streams_all_zero : forall r c : list Z, List.length r = List.length c ->
  forallb (fun x => x =? 0) (xor_streams r c) = true <-> c = r.
Proof.
  unfold xor_streams.
  induction r as [|x r IH]; intros [|y c] L; try discriminate.
  - cbn. tauto.
  - cbn [combine map forallb fst snd]. rewrite andb_true_iff, IH by (cbn in L; lia).
    rewrite Z.eqb_eq, Z.lxor_eq_0_iff. split.
    + intros [-> ->]. reflexivity.
    + intros E. injection E as -> ->. split; reflexivity.
Qed.

Lemma skipn_app_exact {A : Type} (l1 l2 : list A) :
  skipn (List.length l1) (l1 ++ l2) = l2.
Proof. induction l1 as [|x l1 IH]; [reflexivity | exact IH]. Qed.

Lemma nth_zeros_app (n i : nat) (c : list Z) : (i < n)%nat ->
  nth i (repeat 0 n ++ c) 0 = 0.
Proof.
  intros H. rewrite app_nth1 by (rewrite repeat_length; assumption). apply nth_zeros.
Qed.

(** X12: A stream passes [check] exactly when its last [len(crc)] elements are
    the CRC of the elements before them. *)
Theorem crc_check_iff (w p : Z) (self : CRC) (data c : list Z) :
  CRC_init p = Return self -> 2 <= p ->
  Z.of_nat (List.length c) = CRC_len self ->
  CRC_check w self (data ++ c) = true <-> c = CRC_call w self data.
Proof.
  intros Hinit Hp Hc.
  destruct (valid_len p self Hp Hinit) as [Hlen Hk].
  set (k := LongDivision.check_length p) in *.
  assert (Lc : List.length c = k) by lia.
  set (n := List.length data).
  set (pb := map (fun b => wrap w (- b)) (pol_bin self)).
  set (A := data ++ repeat 0 k).
  assert (LA : List.length A = (n + k)%nat).
  { unfold A. rewrite length_app, repeat_length. reflexivity. }
  assert (Hr : CRC_call w self data = skipn n (fold_left (crc_step pb) (seq 0 n) A)).
  { unfold CRC_call. rewrite Hlen, Nat2Z.id.
    apply (crc_unfold w self A n k); assumption. }
  assert (Hsplit : data ++ c = xor_streams A (repeat 0 n ++ c)).
  { unfold A. rewrite xor_streams_app by (rewrite repeat_length; reflexivity).
    unfold n. rewrite xor_streams_zeros_r. rewrite <- Lc, xor_streams_zeros_l.
    reflexivity. }
  assert (LB : List.length A = List.length (repeat 0 n ++ c)).
  { rewrite LA, length_app, repeat_length. lia. }
  unfold CRC_check.
  rewrite (crc_unfold w self (data ++ c) n k) by (try rewrite length_app; auto; lia).
  fold pb. rewrite Hsplit, crc_fold_linear by assumption.
  rewrite (crc_fold_idle pb (seq 0 n) (repeat 0 n ++ c)).
  2:{ intros i Hi. apply in_seq in Hi. apply nth_zeros_app. lia. }
  rewrite skipn_xor_streams, <- Hr.
  rewrite <- (repeat_length 0 n) at 1. rewrite skipn_app_exact.
  apply xor_streams_all_zero.
  rewrite Hr, length_skipn, crc_fold_length. lia.
Qed.

Lemma crc_check_iff_witness :
  CRC_check 3 (mkCRC 0x180f [1; 1; 0; 0; 0; 0; 0; 0; 0; 1; 1; 1; 1])
    ([5; 0; 7; 2] ++ [2; 2; 5; 7; 5; 5; 2; 5; 2; 7; 0; 0]) = false.
Proof.
  assert (Hinit : CRC_init 0x180f
                  = Return (mkCRC 0x180f [1; 1; 0; 0; 0; 0; 0; 0; 0; 1; 1; 1; 1]))
    by reflexivity.
  assert (Hp : 2 <= 0x180f) by lia.
  assert (Hc : Z.of_nat (List.length [2; 2; 5; 7; 5; 5; 2; 5; 2; 7; 0; 0])
               = CRC_len (mkCRC 0x180f [1; 1; 0; 0; 0; 0; 0; 0; 0; 1; 1; 1; 1]))
    by reflexivity.
  pose proof (crc_check_iff 3 0x180f _ [5; 0; 7; 2] _ Hinit Hp Hc) as [H _].
  destruct (CRC_check 3 _ _) eqn:E; [|reflexivity].
  specialize (H eq_refl). vm_compute in H. discriminate.
Defined.

(** *** Leading zeros *)

Lemma crc_step_shift (pb : list Z) (m : nat) (s : list Z) (i : nat) :
  crc_step pb (repeat 0 m ++ s) (m + i) = repeat 0 m ++ crc_step pb s i.
Proof.
  unfold crc_step.
  assert (E : nth (m + i) (repeat 0 m ++ s) 0 = nth i s 0).
  { rewrite <- (repeat_length 0 m) at 1. apply app_nth2_plus. }
  rewrite E. clear E.
  generalize (map (fun x => Z.land x (nth i s 0)) pb). intros msk.
  induction m as [|m IH]; [reflexivity|].
  cbn [repeat app Nat.add ixor_slice]. f_equal. exact IH.
Qed.

Lemma crc_fold_shift (pb : list Z) (m : nat) : forall n s0 s,
  fold_left (crc_step pb) (seq (m + s0) n) (repeat 0 m ++ s)
  = repeat 0 m ++ fold_left (crc_step pb) (seq s0 n) s.
Proof.
  induction n as [|n IH]; intros s0 s; [reflexivity|].
  cbn [seq fold_left]. rewrite crc_step_shift.
  rewrite <- Nat.add_succ_r. apply IH.
Qed.

(** X13: Zeros in front of a stream do not change its CRC: the division
    skips them, so the checksum cannot tell how many there were. *)
Theorem crc_leading_zeros (w p : Z) (self : CRC) (m : nat) (data : list Z) :
  CRC_init p = Return self -> 2 <= p ->
  CRC_call w self (repeat 0 m ++ data) = CRC_call w self data.
Proof.
  intros Hinit Hp.
  destruct (valid_len p self Hp Hinit) as [Hlen Hk].
  set (k := LongDivision.check_length p) in *.
  set (n := List.length data).
  unfold CRC_call. rewrite Hlen, Nat2Z.id, <- app_assoc.
  set (s := data ++ repeat 0 k).
  assert (Ls : List.length s = (n + k)%nat).
  { unfold s. rewrite length_app, repeat_length. reflexivity. }
  rewrite (crc_unfold w self (repeat 0 m ++ s) (m + n) k)
    by (try rewrite length_app, repeat_length; auto; lia).
  rewrite (crc_unfold w self s n k) by assumption.
  set (pb := map (fun b => wrap w (- b)) (pol_bin self)).
  rewrite seq_app, fold_left_app.
  rewrite (crc_fold_idle pb (seq 0 m)).
  2:{ intros i Hi. apply in_seq in Hi. apply nth_zeros_app. lia. }
  replace (seq (0 + m) n) with (seq (m + 0) n) by (f_equal; lia).
  rewrite crc_fold_shift.
  replace (m + n)%nat with (n + List.length (repeat 0%Z m))%nat
    by (rewrite repeat_length; lia).
  rewrite <- skipn_skipn, skipn_app_exact. reflexivity.
Qed.

Lemma crc_leading_zeros_witness :
  CRC_call 8 (mkCRC 0x180f [1; 1; 0; 0; 0; 0; 0; 0; 0; 1; 1; 1; 1])
    (repeat 0 3 ++ [5; 0; 255])
  = CRC_call 8 (mkCRC 0x180f [1; 1; 0; 0; 0; 0; 0; 0; 0; 1; 1; 1; 1]) [5; 0; 255].
Proof. apply (crc_leading_zeros 8 0x180f); [reflexivity | lia]. Defined.

(** *** Streams too short to divide *)

(** X14: On a stream no longer than the check length the loop of [_crc] has
    no turn and the slice [stream[-len:]] is the whole stream: [check]
    accepts such a stream exactly when all its elements are zero, and
    raises nothing. *)
Theorem crc_check_short (w : Z) (self : CRC) (stream : list Z) :
  Z.of_nat (List.length stream) <= CRC_len self ->
  _crc w self stream = stream
  /\ CRC_check w self stream = forallb (fun x => x =? 0) stream.
Proof.
  intros H.
  assert (E : _crc w self stream = stream).
  { unfold _crc, crc_divide, py_slice_from.
    replace (Z.to_nat (Z.of_nat (List.length stream) - CRC_len self)) with O by lia.
    cbn [seq fold_left].
    destruct (- CRC_len self <? 0) eqn:N.
    - replace (Z.to_nat (Z.max 0 (- CRC_len self + Z.of_nat (List.length stream))))
        with O by lia.
      reflexivity.
    - apply Z.ltb_ge in N. replace (Z.to_nat (- CRC_len self)) with O by lia.
      reflexivity. }
  split; [exact E|]. unfold CRC_check. rewrite E. reflexivity.
Qed.

Lemma crc_check_short_witness :
  CRC_check 8 (mkCRC 0x180f [1; 1; 0; 0; 0; 0; 0; 0; 0; 1; 1; 1; 1]) [0; 3; 0] = false.
Proof.
  assert (H : Z.of_nat (List.length [0; 3; 0])
              <= CRC_len (mkCRC 0x180f [1; 1; 0; 0; 0; 0; 0; 0; 0; 1; 1; 1; 1]))
    by (vm_compute; discriminate).
  rewrite (proj2 (crc_check_short 8 _ [0; 3; 0] H)). reflexivity.
Defined.
